(** * needacab-webhooks: event store and query engine

    A shallow embedding of the webhook receiver's storage and query code
    (the multi-hook server: [loadHook], [ensureHookLoaded], [storeEvent],
    [tokenizeQuery], [parseTokens], [deepAny], [getByPath], [eventMatches],
    [buildSummary], [csvEscape], [parseLimit], the webhook receiver and
    the [/api/...] handlers), followed by the properties that were checked
    against it: those of the specification first, then further properties
    of the code.

    Conventions of the model.
    - A JavaScript string is a [string] whose characters are the code units
      U+0000..U+00FF (Latin-1); [toLowerCase], [trim] and the [\s] class are
      rendered on that range.
    - JSON numbers are the integers ([Z]); fractional numbers and numbers
      outside the safe-integer range are not represented.
    - An object is an association list in property order.  A property the
      code reads by a fixed name ([id], [receivedAt], [payload], ...) is
      looked up among the own properties ([Json.get]); none of these names
      is a member of a builtin prototype.  [getByPath], which reads names
      taken from the request, follows the prototype chain as well.
    - [undefined] is [None] where a JavaScript expression can produce it.
    - A JavaScript exception is the [Throw] outcome of the [result] type;
      a handler that lets one escape answers through the error middleware
      at the end of the file (400), which is the [ServerError] response.
    - Builtins whose behaviour is not written in the repository
      ([JSON.parse], [String.prototype.localeCompare], [Number],
      [Array.prototype.sort], the members of the builtin prototypes) and
      the process configuration are fields of the [Env] class.
    - The two characters of the display summary above U+00FF stand as
      their UTF-8 bytes ([arrow], [ellipsis]). *)

From Stdlib Require Import Ascii String ZArith List Permutation Sorted Lia Bool.
From Stdlib Require Import DecimalString QArith Qround.
From stdpp Require Import base gmap strings list fin_maps.
From Equations Require Import Equations.

Set Warnings "-abstract-large-number".
Local Close Scope Q_scope.
Local Open Scope Z_scope.
Local Open Scope nat_scope.

(** ** JavaScript strings *)

Module JsString.

Definition code (c : ascii) : nat := nat_of_ascii c.

(** The [\s] class (and the characters removed by [trim]) below U+0100. *)
Definition is_space (c : ascii) : bool :=
  let n := code c in
  ((9 <=? n) && (n <=? 13)) || (n =? 32) || (n =? 160).

(** [toLowerCase] on one Latin-1 code unit. *)
Definition lower_char (c : ascii) : ascii :=
  let n := code c in
  if ((65 <=? n) && (n <=? 90)) ||
     ((192 <=? n) && (n <=? 222) && negb (n =? 215))
  then ascii_of_nat (n + 32) else c.

Fixpoint toLowerCase (s : string) : string :=
  match s with
  | EmptyString => EmptyString
  | String c s' => String (lower_char c) (toLowerCase s')
  end.

Fixpoint trimStart (s : string) : string :=
  match s with
  | EmptyString => EmptyString
  | String c s' => if is_space c then trimStart s' else s
  end.

(** [trimEnd]: a character is dropped when it is a space and everything
    after it has been dropped. *)
Fixpoint trimEnd (s : string) : string :=
  match s with
  | EmptyString => EmptyString
  | String c s' =>
      match trimEnd s' with
      | EmptyString => if is_space c then EmptyString else String c EmptyString
      | r => String c r
      end
  end.

Definition trim (s : string) : string := trimEnd (trimStart s).

(** Truthiness of a string: non-empty. *)
Definition nonempty (s : string) : bool :=
  match s with EmptyString => false | _ => true end.

Fixpoint startsWith (s p : string) : bool :=
  match p, s with
  | EmptyString, _ => true
  | String a p', String b s' => Ascii.eqb a b && startsWith s' p'
  | String _ _, EmptyString => false
  end.

(** [hay.includes(needle)] *)
Fixpoint includes (hay needle : string) : bool :=
  startsWith hay needle ||
  match hay with
  | EmptyString => false
  | String _ hay' => includes hay' needle
  end.

(** [s.includes(c)] for a one-character needle, as used by the regular
    expression tests. *)
Fixpoint has_char (p : ascii -> bool) (s : string) : bool :=
  match s with
  | EmptyString => false
  | String c s' => p c || has_char p s'
  end.

Fixpoint last_char (s : string) : option ascii :=
  match s with
  | EmptyString => None
  | String c EmptyString => Some c
  | String _ s' => last_char s'
  end.

Definition first_char (s : string) : option ascii :=
  match s with EmptyString => None | String c _ => Some c end.

(** [s.startsWith(q) && s.endsWith(q)] for a one-character [q]. *)
Definition wrapped_in (q : ascii) (s : string) : bool :=
  match first_char s, last_char s with
  | Some a, Some b => Ascii.eqb a q && Ascii.eqb b q
  | _, _ => false
  end.

Fixpoint drop_last (s : string) : string :=
  match s with
  | EmptyString => EmptyString
  | String _ EmptyString => EmptyString
  | String c s' => String c (drop_last s')
  end.

(** [s.slice(1, -1)] *)
Definition slice_1_m1 (s : string) : string :=
  match s with
  | EmptyString => EmptyString
  | String _ s' => drop_last s'
  end.

(** [s.split(sep)] for a one-character separator; never the empty list. *)
Fixpoint split (sep : ascii) (s : string) : list string :=
  match s with
  | EmptyString => [EmptyString]
  | String c s' =>
      if Ascii.eqb c sep then EmptyString :: split sep s'
      else match split sep s' with
           | [] => [String c EmptyString]
           | w :: ws => String c w :: ws
           end
  end.

(** [parts.join(sep)] *)
Fixpoint join (sep : string) (parts : list string) : string :=
  match parts with
  | [] => EmptyString
  | [p] => p
  | p :: ps => p +:+ sep +:+ join sep ps
  end.

(** [s.indexOf(c)] as a split of [s] around the first occurrence of [c]:
    [Some (before, after)], or [None] when [c] does not occur
    ([indexOf] returning -1). *)
Fixpoint cut_at (c : ascii) (s : string) : option (string * string) :=
  match s with
  | EmptyString => None
  | String a s' =>
      if Ascii.eqb a c then Some (EmptyString, s')
      else match cut_at c s' with
           | Some (b, r) => Some (String a b, r)
           | None => None
           end
  end.

End JsString.
Import JsString.

(** ** JSON values *)

#[local] Unset Elimination Schemes.
Inductive json : Type :=
| JNull
| JBool (b : bool)
| JNum (z : Z)
| JStr (s : string)
| JArr (items : list json)
| JObj (props : list (string * json)).
#[local] Set Elimination Schemes.

(** Outcome of a JavaScript expression that may throw. *)
Inductive result (A : Type) : Type :=
| Ok (a : A)
| Throw.
Arguments Ok {A} a.
Arguments Throw {A}.

(** Sequencing: the second computation runs when the first did not
    throw. *)
Definition bind {A B} (r : result A) (k : A -> result B) : result B :=
  match r with
  | Ok a => k a
  | Throw => Throw
  end.

Notation "'let*' x ':=' r 'in' k" := (bind r (fun x => k))
  (at level 10, x name, r at level 100, k at level 200).

(** The outcomes of a sequence of computations, when none throws. *)
Fixpoint all_ok {A} (l : list (result A)) : result (list A) :=
  match l with
  | [] => Ok []
  | r :: l' => let* x := r in let* xs := all_ok l' in Ok (x :: xs)
  end.

Module Json.

(** Structural induction through the nested lists. *)
Section json_ind.
Variable P : json -> Prop.
Hypothesis Hnull : P JNull.
Hypothesis Hbool : forall b, P (JBool b).
Hypothesis Hnum : forall z, P (JNum z).
Hypothesis Hstr : forall s, P (JStr s).
Hypothesis Harr : forall items, Forall P items -> P (JArr items).
Hypothesis Hobj : forall props, Forall (fun kv => P (snd kv)) props -> P (JObj props).

Fixpoint json_ind' (v : json) : P v :=
  match v with
  | JNull => Hnull
  | JBool b => Hbool b
  | JNum z => Hnum z
  | JStr s => Hstr s
  | JArr items =>
      Harr items
        ((fix go (l : list json) : Forall P l :=
            match l with
            | [] => List.Forall_nil P
            | x :: l' => @List.Forall_cons _ P x l' (json_ind' x) (go l')
            end) items)
  | JObj props =>
      Hobj props
        ((fix go (l : list (string * json)) : Forall (fun kv => P (snd kv)) l :=
            match l with
            | [] => List.Forall_nil _
            | kv :: l' => @List.Forall_cons _ _ kv l' (json_ind' (snd kv)) (go l')
            end) props)
  end.
End json_ind.

(** Number of nodes of a value. *)
Fixpoint size (v : json) : nat :=
  match v with
  | JArr items => S (list_sum (map size items))
  | JObj props => S (list_sum (map (fun kv => size (snd kv)) props))
  | _ => 1
  end.

(** Truthiness ([Boolean(v)], [!v]). *)
Definition truthy (v : json) : bool :=
  match v with
  | JNull => false
  | JBool b => b
  | JNum z => negb (Z.eqb z 0)
  | JStr s => nonempty s
  | JArr _ | JObj _ => true
  end.

Definition dquote : ascii := "034"%char.
Definition backslash : ascii := "092"%char.

Definition hex_digit (n : nat) : ascii :=
  if n <? 10 then ascii_of_nat (48 + n) else ascii_of_nat (87 + n).

(** The escape of one code unit inside a JSON string literal. *)
Definition escape_char (c : ascii) : string :=
  let n := code c in
  if n =? 34 then String backslash (String dquote EmptyString)
  else if n =? 92 then String backslash (String backslash EmptyString)
  else if n =? 8 then String backslash "b"
  else if n =? 9 then String backslash "t"
  else if n =? 10 then String backslash "n"
  else if n =? 12 then String backslash "f"
  else if n =? 13 then String backslash "r"
  else if n <? 32 then
    String backslash
      ("u00" +:+ String (hex_digit (n / 16)) (String (hex_digit (n mod 16)) EmptyString))
  else String c EmptyString.

Fixpoint escape (s : string) : string :=
  match s with
  | EmptyString => EmptyString
  | String c s' => escape_char c +:+ escape s'
  end.

(** [JSON.stringify] of a string. *)
Definition quote (s : string) : string :=
  String dquote (escape s +:+ String dquote EmptyString).

Definition render_int (z : Z) : string := NilZero.string_of_int (Z.to_int z).

(** [JSON.stringify(v)] for a JSON value. *)
Fixpoint stringify (v : json) : string :=
  match v with
  | JNull => "null"
  | JBool true => "true"
  | JBool false => "false"
  | JNum z => render_int z
  | JStr s => quote s
  | JArr items => "[" +:+ join "," (map stringify items) +:+ "]"
  | JObj props =>
      "{" +:+ join "," (map (fun kv => quote (fst kv) +:+ ":" +:+ stringify (snd kv)) props)
          +:+ "}"
  end.

(** Own property lookup in an object. *)
Fixpoint lookup_prop (k : string) (props : list (string * json)) : option json :=
  match props with
  | [] => None
  | (k', v) :: rest => if String.eqb k' k then Some v else lookup_prop k rest
  end.

(** The canonical array index a property name denotes, if any. *)
Definition index_of_name (p : string) : option nat :=
  match NilZero.uint_of_string p with
  | Some u =>
      let i := Nat.of_uint u in
      if String.eqb (NilZero.string_of_uint (Nat.to_uint i)) p then Some i else None
  | None => None
  end.

(** The own property [p] of a value that is neither [null] nor
    [undefined]: the properties of an object, the elements and [length] of
    an array, the characters and [length] of a string.  This is [cur[p]]
    for every name that no builtin prototype holds. *)
Definition get (cur : json) (p : string) : option json :=
  match cur with
  | JObj props => lookup_prop p props
  | JArr items =>
      if String.eqb p "length" then Some (JNum (Z.of_nat (length items)))
      else match index_of_name p with
           | Some i => nth_error items i
           | None => None
           end
  | JStr s =>
      if String.eqb p "length" then Some (JNum (Z.of_nat (String.length s)))
      else match index_of_name p with
           | Some i => match String.get i s with
                       | Some c => Some (JStr (String c EmptyString))
                       | None => None
                       end
           | None => None
           end
  | _ => None
  end.

End Json.

(** ** Utilities *)

(** [stringifySafe(x)] on a defined value: strings pass through, anything
    else goes through [JSON.stringify]; the [catch] branch is never reached
    on JSON values. *)
Definition stringifySafe_val (v : json) : string :=
  match v with
  | JStr s => s
  | _ => Json.stringify v
  end.

(** [e.toLowerCase()] where [e] may be [undefined]: a [TypeError] then. *)
Definition toLowerCase_of (x : option string) : result string :=
  match x with
  | Some s => Ok (toLowerCase s)
  | None => Throw
  end.

(** [String(value)], [value.toString()] and the conversion of a template
    literal, for a value that is not [undefined].  An object answers
    through [Object.prototype.toString] unless it has a property
    [toString] of its own: the value of such a property of a JSON value is
    not callable, and the conversion throws a [TypeError].  An array joins
    the conversions of its elements, [null] giving the empty string. *)
Fixpoint to_String (v : json) : result string :=
  match v with
  | JNull => Ok "null"
  | JBool true => Ok "true"
  | JBool false => Ok "false"
  | JNum z => Ok (Json.render_int z)
  | JStr s => Ok s
  | JArr items =>
      let* parts := all_ok (map (fun x => match x with
                                     | JNull => Ok EmptyString
                                     | _ => to_String x
                                     end) items) in
      Ok (join "," parts)
  | JObj props =>
      match Json.lookup_prop "toString" props with
      | Some _ => Throw
      | None => Ok "[object Object]"
      end
  end.

(** [items.join(sep)] *)
Definition array_join (sep : string) (items : list json) : result string :=
  let* parts := all_ok (map (fun x => match x with
                                 | JNull => Ok EmptyString
                                 | _ => to_String x
                                 end) items) in
  Ok (join sep parts).

(** [normalizeQ(q)] for an absent or string-valued parameter. *)
Definition normalizeQ (q : option string) : string :=
  match q with
  | Some s => trim s
  | None => EmptyString
  end.

Definition is_csv_special (c : ascii) : bool :=
  let n := code c in (n =? 34) || (n =? 44) || (n =? 10) || (n =? 13).

Fixpoint double_quotes (s : string) : string :=
  match s with
  | EmptyString => EmptyString
  | String c s' =>
      if Ascii.eqb c Json.dquote then String c (String c (double_quotes s'))
      else String c (double_quotes s')
  end.

(** [csvEscape(value)] on a string value ([value == null] gives the
    empty string). *)
Definition csvEscape (value : option string) : string :=
  let s := match value with Some s => s | None => EmptyString end in
  if has_char is_csv_special s
  then String Json.dquote (double_quotes s +:+ String Json.dquote EmptyString)
  else s.

(** ** Field-aware token parsing *)

Definition is_quote (c : ascii) : bool :=
  Ascii.eqb c Json.dquote || Ascii.eqb c "'"%char.

(** The inner loop of [tokenizeQuery]: scans one token from [s] and
    returns the scanned text [q.slice(start, i)] with the unread rest.
    [quoteChar] is [Some c] when [inQuotes] holds. *)
Fixpoint scan_token (quoteChar : option ascii) (s : string) : string * string :=
  match s with
  | EmptyString => (EmptyString, EmptyString)
  | String ch s' =>
      match quoteChar with
      | None =>
          if is_quote ch then
            let '(t, r) := scan_token (Some ch) s' in (String ch t, r)
          else if is_space ch then (EmptyString, s)
          else let '(t, r) := scan_token None s' in (String ch t, r)
      | Some qc =>
          if Ascii.eqb ch qc then
            let '(t, r) := scan_token None s' in (String ch t, r)
          else let '(t, r) := scan_token (Some qc) s' in (String ch t, r)
      end
  end.

Lemma scan_token_rest_le qc s :
  String.length (snd (scan_token qc s)) <= String.length s.
Proof.
  revert qc. induction s as [|ch s IH]; intros qc; simpl; [lia|].
  destruct qc as [qc|].
  - destruct (Ascii.eqb ch qc).
    + specialize (IH None). destruct (scan_token None s); simpl in *; lia.
    + specialize (IH (Some qc)). destruct (scan_token (Some qc) s); simpl in *; lia.
  - destruct (is_quote ch).
    + specialize (IH (Some ch)). destruct (scan_token (Some ch) s); simpl in *; lia.
    + destruct (is_space ch); simpl; [lia|].
      specialize (IH None). destruct (scan_token None s); simpl in *; lia.
Qed.

Lemma scan_token_progress ch s :
  is_space ch = false ->
  String.length (snd (scan_token None (String ch s))) < String.length (String ch s).
Proof.
  intros Hsp. simpl. rewrite Hsp.
  destruct (is_quote ch).
  - pose proof (scan_token_rest_le (Some ch) s).
    destruct (scan_token (Some ch) s); simpl in *; lia.
  - pose proof (scan_token_rest_le None s).
    destruct (scan_token None s); simpl in *; lia.
Qed.

Lemma trimStart_length s : String.length (trimStart s) <= String.length s.
Proof.
  induction s as [|c s IH]; simpl; [lia|].
  destruct (is_space c); simpl; lia.
Qed.

Lemma trimStart_head c s' s : trimStart s = String c s' -> is_space c = false.
Proof.
  induction s as [|a s IH]; simpl; [discriminate|].
  destruct (is_space a) eqn:E; [exact IH|].
  intros [= -> _]. exact E.
Qed.

Lemma next_token_shorter q ch s' :
  trimStart q = String ch s' ->
  String.length (snd (scan_token None (String ch s'))) < String.length q.
Proof.
  intros Hq.
  pose proof (trimStart_length q) as Hle.
  pose proof (scan_token_progress ch s' (trimStart_head _ _ _ Hq)) as Hlt.
  rewrite Hq in Hle. lia.
Qed.

(** One round of the outer loop of [tokenizeQuery]: skip white space, stop
    when the input is exhausted, otherwise scan a token.  The result is the
    scanned text with the unread rest, which is shorter than the input. *)
Definition next_token (q : string) :
  option {p : string * string | String.length (snd p) < String.length q} :=
  match trimStart q as t return trimStart q = t -> _ with
  | EmptyString => fun _ => None
  | String ch s' => fun Hq =>
      Some (exist _ (scan_token None (String ch s')) (next_token_shorter q ch s' Hq))
  end eq_refl.

(** [tokenizeQuery(q)]: every scanned text is trimmed and kept when it is
    not empty. *)
Equations tokenizeQuery (q : string) : list string by wf (String.length q) lt :=
  tokenizeQuery q with next_token q := {
    | None => [];
    | Some (exist _ (raw, rest) Hlt) =>
        (if nonempty (trim raw) then [trim raw] else []) ++ tokenizeQuery rest }.

Record tokens : Type := {
  fieldTokens : list (string * string);   (* { key, value } *)
  textTokens : list string
}.

(** The quote stripping shared by field values and text tokens. *)
Definition strip_quotes (v : string) : string :=
  if wrapped_in Json.dquote v || wrapped_in "'"%char v then slice_1_m1 v else v.

(** The field token a raw token [t] denotes, if any: the [idx > 0] branch
    of the loop of [parseTokens] up to its [continue]. *)
Definition field_token_of (t : string) : option (string * string) :=
  match cut_at ":"%char t with
  | Some (before, after) =>
      if nonempty before then
        let key := trim before in
        let value := strip_quotes (trim after) in
        if nonempty key && nonempty value
        then Some (toLowerCase key, toLowerCase value)
        else None
      else None
  | None => None
  end.

(** The text token a raw token denotes when it is not a field token. *)
Definition text_token_of (t : string) : option string :=
  let v := strip_quotes (trim t) in
  if nonempty v then Some (toLowerCase v) else None.

(** [parseTokens(q)] *)
Definition parseTokens (q : string) : tokens :=
  fold_left
    (fun acc t =>
       match field_token_of t with
       | Some ft => {| fieldTokens := fieldTokens acc ++ [ft]; textTokens := textTokens acc |}
       | None =>
           match text_token_of t with
           | Some txt => {| fieldTokens := fieldTokens acc; textTokens := textTokens acc ++ [txt] |}
           | None => acc
           end
       end)
    (tokenizeQuery q)
    {| fieldTokens := []; textTokens := [] |}.

(** ** Deep key search *)

(** A stack entry of [deepAny]: [{ value, key }], [key] being [null] for
    the root. *)
Definition frame : Type := json * option string.

(** The entries pushed for a popped [value], in push order. *)
Definition pushed (value : json) (key : option string) : list frame :=
  match value with
  | JArr items => map (fun x => (x, key)) items
  | JObj props => map (fun kv => (snd kv, Some (fst kv))) props
  | _ => []
  end.

Definition stack_size (stack : list frame) : nat :=
  list_sum (map (fun f => Json.size (fst f)) stack).

Lemma stack_size_app s1 s2 : stack_size (s1 ++ s2) = stack_size s1 + stack_size s2.
Proof. unfold stack_size. rewrite map_app, list_sum_app. reflexivity. Qed.

Lemma stack_size_rev s : stack_size (rev s) = stack_size s.
Proof.
  induction s as [|f s IH]; [reflexivity|].
  simpl rev. rewrite stack_size_app, IH. unfold stack_size. simpl. lia.
Qed.

Lemma stack_size_pushed v key : S (stack_size (pushed v key)) = Json.size v.
Proof.
  destruct v; try reflexivity; unfold stack_size, pushed; simpl;
    rewrite map_map; reflexivity.
Qed.

(** The [while (stack.length)] loop of [deepAny].  The head of the list is
    the top of the stack, so the entries pushed in one round appear in
    reverse push order. *)
Equations? deepAny_loop (predicate' : option string -> json -> bool)
    (stack : list frame) : bool by wf (stack_size stack) lt :=
  deepAny_loop predicate' [] := false;
  deepAny_loop predicate' ((value, key) :: rest) :=
    if predicate' key value then true
    else deepAny_loop predicate' (rev (pushed value key) ++ rest).
Proof.
  rewrite stack_size_app, stack_size_rev.
  pose proof (stack_size_pushed value key) as Hs.
  change (stack_size ((value, key) :: rest)) with (Json.size value + stack_size rest).
  lia.
Qed.

(** [deepAny(obj, predicate)] *)
Definition deepAny (obj : json) (predicate' : option string -> json -> bool) : bool :=
  deepAny_loop predicate' [(obj, None)].

(** [eventMatchesFieldToken(evt, keyLower, valueLower)].  Every value the
    traversal visits is defined, so [stringifySafe] yields a string. *)
Definition eventMatchesFieldToken (evt : json) (keyLower valueLower : string) : bool :=
  deepAny evt (fun field val =>
    match field with
    | None => false
    | Some f =>
        if negb (nonempty f) then false
        else if negb (String.eqb (toLowerCase f) keyLower) then false
        else includes (toLowerCase (stringifySafe_val val)) valueLower
    end).

(** [eventMatchesTextToken(evt, tokenLower)] *)
Definition eventMatchesTextToken (evt : json) (tokenLower : string) : bool :=
  includes (toLowerCase (stringifySafe_val evt)) tokenLower.

(** ** Configuration *)

(** The value of [HOOK_ALLOWLIST] as the configuration computes it from the
    environment variable of the same name:
    [(v || "").split(",").map((s) => s.trim()).filter(Boolean)]. *)
Definition parse_allowlist (v : option string) : list string :=
  List.filter nonempty
    (map trim (split ","%char (match v with Some s => s | None => EmptyString end))).

(** ** Arrays *)

Module JsArray.

(** [arr.slice(-n)] for a natural [n]: [-0] is [0], so [n = 0] keeps the
    whole array. *)
Definition slice_last {A} (n : nat) (arr : list A) : list A :=
  match n with
  | O => arr
  | _ => skipn (length arr - n) arr
  end.

(** [arr.slice(0, n)] *)
Definition slice_first {A} (n : nat) (arr : list A) : list A := firstn n arr.

(** [arr.unshift(x)] *)
Definition unshift {A} (x : A) (arr : list A) : list A := x :: arr.

(** [arr.pop()]: the array without its last element. *)
Definition pop {A} (arr : list A) : list A := removelast arr.

(** Insertion of [x] in front of the first element it does not have to
    follow. *)
Fixpoint insert_sorted {A} (compareFn : A -> A -> Z) (x : A) (arr : list A) : list A :=
  match arr with
  | [] => [x]
  | y :: arr' =>
      if (0 <? compareFn x y)%Z then y :: insert_sorted compareFn x arr'
      else x :: y :: arr'
  end.

(** The stable arrangement of an array by a comparator: every element is
    inserted behind the elements it has to follow, the later elements
    first. *)
Definition stable_sort {A} (compareFn : A -> A -> Z) (arr : list A) : list A :=
  foldr (insert_sorted compareFn) [] arr.

(** A consistent comparator for the elements of an array, in the words of
    the language definition ([Array.prototype.sort]): the elements that
    compare as 0 form classes, and the classes are totally ordered. *)
Definition consistent {A} (compareFn : A -> A -> Z) (arr : list A) : Prop :=
  (forall a, In a arr -> compareFn a a = 0%Z) /\
  (forall a b, In a arr -> In b arr -> compareFn a b = 0%Z -> compareFn b a = 0%Z) /\
  (forall a b c, In a arr -> In b arr -> In c arr ->
     compareFn a b = 0%Z -> compareFn b c = 0%Z -> compareFn a c = 0%Z) /\
  (forall a b c, In a arr -> In b arr -> In c arr ->
     (compareFn a b < 0)%Z -> (compareFn b c < 0)%Z -> (compareFn a c < 0)%Z) /\
  (forall a b c, In a arr -> In b arr -> In c arr ->
     (0 < compareFn a b)%Z -> (0 < compareFn b c)%Z -> (0 < compareFn a c)%Z).

End JsArray.
Import JsArray.

Lemma insert_sorted_perm {A} (compareFn : A -> A -> Z) x arr :
  Permutation (insert_sorted compareFn x arr) (x :: arr).
Proof.
  induction arr as [|y arr IH]; simpl; [reflexivity|].
  destruct (0 <? compareFn x y)%Z; [| reflexivity].
  rewrite IH. apply perm_swap.
Qed.

Lemma stable_sort_perm {A} (compareFn : A -> A -> Z) arr :
  Permutation (stable_sort compareFn arr) arr.
Proof.
  induction arr as [|x arr IH]; simpl; [reflexivity|].
  rewrite insert_sorted_perm, IH. reflexivity.
Qed.

(** ** Values that are not JSON values *)

(** What a property access yields: a JSON value, or a value of the
    language that is not one (a function, an object of a builtin
    prototype), of a type the environment chooses. *)
Inductive reached (B : Type) : Type :=
| Plain (v : json)
| Foreign (b : B).
Arguments Plain {B} v.
Arguments Foreign {B} b.

(** ** Process environment *)

(** The configuration read from [process.env] and the builtins the code
    calls but does not define.  The two limits are natural numbers, as
    their defaults are.  [Number] yields [None] for a value that is not
    finite ([NaN], [Infinity]).

    [sort] is [Array.prototype.sort].  The language fixes its result for a
    consistent comparator: the sort is stable (ECMAScript 2019), so the
    result is the stable arrangement.  For any other comparator the order
    is left to the engine, and all that is known of the result is that it
    rearranges the array.

    [builtin] is the type of the values that are not JSON values;
    [inherited v p] is what the prototype chain of the JSON value [v]
    yields for a name [p] that is not an own property of [v],
    [builtin_get b p] is [b[p]], and [builtin_text b] is
    [stringifySafe(b)]: the text [JSON.stringify] gives, [None] for
    [undefined], which is what a function gives.  An access that throws
    (the [caller] and [arguments] of a builtin function) counts as
    [undefined]: the only caller of [getByPath] is
    [eventMatchesSelectedField], which throws on [undefined] as well. *)
Class Env : Type := {
  MAX_RECENT_PER_HOOK : nat;
  MAX_EXPORT : nat;
  HOOK_ALLOWLIST : list string;
  JSON_parse : string -> option json;
  localeCompare : string -> string -> Z;
  Number : string -> option Q;
  sort : forall A : Type, (A -> A -> Z) -> list A -> list A;
  sort_rearranges :
    forall (A : Type) (compareFn : A -> A -> Z) (arr : list A),
      Permutation (sort A compareFn arr) arr;
  sort_of_consistent :
    forall (A : Type) (compareFn : A -> A -> Z) (arr : list A),
      consistent compareFn arr -> sort A compareFn arr = stable_sort compareFn arr;
  builtin : Type;
  inherited : json -> string -> option (reached builtin);
  builtin_get : builtin -> string -> option (reached builtin);
  builtin_text : builtin -> option string
}.
Arguments sort {Env} {A} compareFn arr.

(** ** Path helper *)

Section Paths.
Context `{env : Env}.

(** [cur[p]] for a value that is neither [null] nor [undefined]: an own
    property, or else what the prototype chain yields. *)
Definition prop (cur : reached builtin) (p : string) : option (reached builtin) :=
  match cur with
  | Plain v =>
      match Json.get v p with
      | Some x => Some (Plain x)
      | None => inherited v p
      end
  | Foreign b => builtin_get b p
  end.

(** The [for (const p of parts)] loop of [getByPath]. *)
Fixpoint walk (cur : option (reached builtin)) (parts : list string) :
    option (reached builtin) :=
  match parts with
  | [] => cur
  | p :: parts' =>
      match cur with
      | None | Some (Plain JNull) => None
      | Some c => walk (prop c p) parts'
      end
  end.

(** [getByPath(obj, pathStr)]; [None] is [undefined]. *)
Definition getByPath (obj : json) (pathStr : string) : option (reached builtin) :=
  if negb (Json.truthy obj) || negb (nonempty pathStr) then None
  else walk (Some (Plain obj)) (List.filter nonempty (split "."%char pathStr)).

(** [stringifySafe(x)] for what [getByPath] returns: [JSON.stringify]
    returns [undefined] on [undefined] and on a function and does not
    throw, so the result is [undefined] again. *)
Definition stringifySafe (x : option (reached builtin)) : option string :=
  match x with
  | Some (Plain v) => Some (stringifySafe_val v)
  | Some (Foreign b) => builtin_text b
  | None => None
  end.

(** ** Matchers *)

(** [eventMatchesSelectedField(evt, fieldPath, value)] *)
Definition eventMatchesSelectedField (evt : json) (fieldPath value : string) : result bool :=
  let v := toLowerCase (trim value) in
  if negb (nonempty v) then Ok true
  else
    let f := trim fieldPath in
    if negb (nonempty f) || String.eqb f "any" || String.eqb f "fulltext" then
      Ok (includes (toLowerCase (stringifySafe_val evt)) v)
    else
      match toLowerCase_of (stringifySafe (getByPath evt f)) with
      | Ok s => Ok (includes s v)
      | Throw => Throw
      end.

(** [eventMatches(evt, { q, field, value })] *)
Definition eventMatches (evt : json) (q field value : string) : result bool :=
  let rest :=
    let qq := normalizeQ (Some q) in
    if negb (nonempty qq) then true
    else
      let ts := parseTokens qq in
      forallb (fun ft => eventMatchesFieldToken evt (fst ft) (snd ft)) (fieldTokens ts)
      && forallb (fun txt => eventMatchesTextToken evt txt) (textTokens ts) in
  if nonempty value && nonempty (trim value) then
    match eventMatchesSelectedField evt field value with
    | Ok true => Ok rest
    | Ok false => Ok false
    | Throw => Throw
    end
  else Ok rest.

End Paths.

(** ** Storage *)

(** The data directory and the cache: [files] maps a hook name [h] to the
    contents of [DATA_DIR/h.ndjson]; [recentByHook] is the [Map] of the
    same name. *)
Record state : Type := {
  files : gmap string string;
  recentByHook : gmap string (list json)
}.

Definition is_hook_char (c : ascii) : bool :=
  let n := code c in
  ((97 <=? n) && (n <=? 122)) || ((65 <=? n) && (n <=? 90)) ||
  ((48 <=? n) && (n <=? 57)) || (n =? 95) || (n =? 45).

Fixpoint all_chars (p : ascii -> bool) (s : string) : bool :=
  match s with
  | EmptyString => true
  | String c s' => p c && all_chars p s'
  end.

Definition newline : ascii := "010"%char.

Section Store.
Context `{env : Env}.

(** [isHookAllowed(hook)] *)
Definition isHookAllowed (hook : string) : bool :=
  if negb (nonempty hook) then false
  else if negb (all_chars is_hook_char hook && (1 <=? String.length hook)
                && (String.length hook <=? 40)) then false
  else if Nat.eqb (length HOOK_ALLOWLIST) 0 then true
  else existsb (String.eqb hook) HOOK_ALLOWLIST.

(** The [try { JSON.parse(l) } catch { null }] of [loadHook]. *)
Definition parse_or_null (l : string) : json :=
  match JSON_parse l with
  | Some v => v
  | None => JNull
  end.

(** [loadHook(hook)] *)
Definition loadHook (hook : string) (st : state) : list json :=
  match files st !! hook with
  | None => []
  | Some content =>
      let raw := trim content in
      if negb (nonempty raw) then []
      else
        let lines := List.filter nonempty (split newline raw) in
        let tail := slice_last MAX_RECENT_PER_HOOK lines in
        List.filter Json.truthy (map parse_or_null tail)
  end.

(** [ensureHookLoaded(hook)]: the returned array is the one held by the
    cache. *)
Definition ensureHookLoaded (hook : string) (st : state) : list json * state :=
  match recentByHook st !! hook with
  | Some arr => (arr, st)
  | None =>
      let arr := loadHook hook st in
      (arr, {| files := files st; recentByHook := <[hook := arr]> (recentByHook st) |})
  end.

(** The event record built by [storeEvent]. *)
Definition mkEvent (id hook receivedAt : string) (meta payload : json) : json :=
  JObj [("id", JStr id); ("hook", JStr hook); ("receivedAt", JStr receivedAt);
        ("meta", meta); ("payload", payload)].

(** [fs.appendFileSync(file, data)] *)
Definition appendFile (hook data : string) (fs : gmap string string) : gmap string string :=
  <[hook := match fs !! hook with Some old => old +:+ data | None => data end]> fs.

(** [storeEvent(hook, payload, meta)]; [id] and [now] are the results of
    [crypto.randomUUID()] and [new Date().toISOString()]. *)
Definition storeEvent (hook : string) (payload meta : json) (id now : string)
    (st : state) : json * state :=
  let evt := mkEvent id hook now meta payload in
  let '(arr, st1) := ensureHookLoaded hook st in
  let arr1 := unshift evt arr in
  let arr2 := if MAX_RECENT_PER_HOOK <? length arr1 then pop arr1 else arr1 in
  (evt, {| files := appendFile hook (Json.stringify evt +:+ String newline EmptyString) (files st1);
           recentByHook := <[hook := arr2]> (recentByHook st1) |}).

(** [listHooksOnDisk()]; reading the directory does not fail in the
    model. *)
Definition listHooksOnDisk (st : state) : list string :=
  sort localeCompare
    (List.filter isHookAllowed (map fst (map_to_list (files st)))).

End Store.

(** ** Ordering by [receivedAt] *)

(** [ToNumber] on the values that convert without parsing: [undefined] is
    [NaN] ([None]). *)
Definition to_number (x : option json) : option Z :=
  match x with
  | Some JNull => Some 0%Z
  | Some (JBool b) => Some (if b then 1%Z else 0%Z)
  | Some (JNum z) => Some z
  | _ => None
  end.

(** [x < y]: two strings compare by code units; otherwise both sides are
    converted to numbers and a [NaN] makes the comparison false.  A
    comparison that would have to convert a string, an array or an object
    to a number is outside the model and rendered as a [NaN] one. *)
Definition js_lt (x y : option json) : bool :=
  match x, y with
  | Some (JStr a), Some (JStr b) => String.ltb a b
  | _, _ =>
      match to_number x, to_number y with
      | Some a, Some b => (a <? b)%Z
      | _, _ => false
      end
  end.

(** [a.receivedAt] for a cached entry (cached entries are truthy, so the
    property access does not throw). *)
Definition receivedAt (a : json) : option json := Json.get a "receivedAt".

(** The comparator of the three [sort] calls:
    [a.receivedAt < b.receivedAt ? 1 : a.receivedAt > b.receivedAt ? -1 : 0]. *)
Definition byReceivedAtDesc (a b : json) : Z :=
  if js_lt (receivedAt a) (receivedAt b) then 1%Z
  else if js_lt (receivedAt b) (receivedAt a) then (-1)%Z
  else 0%Z.

(** ** Summary of an event *)

(** [x || ""] *)
Definition or_empty (x : option json) : option json :=
  match x with
  | Some v => if Json.truthy v then Some v else Some (JStr EmptyString)
  | None => Some (JStr EmptyString)
  end.

(** [e.meta?.name] *)
Definition meta_field (e : json) (name : string) : option json :=
  match Json.get e "meta" with
  | None | Some JNull => None
  | Some m => Json.get m name
  end.

(** [e.payload ?? {}] *)
Definition payload_or_empty (e : json) : json :=
  match Json.get e "payload" with
  | None | Some JNull => JObj []
  | Some p => p
  end.

(** [x ?? y] *)
Definition coalesce (x y : option json) : option json :=
  match x with
  | None | Some JNull => y
  | Some _ => x
  end.

(** [x ?? ""] *)
Definition or_blank (x : option json) : json :=
  match x with
  | None | Some JNull => JStr EmptyString
  | Some v => v
  end.

(** [x?.name] *)
Definition opt_get (x : option json) (name : string) : option json :=
  match x with
  | None | Some JNull => None
  | Some v => Json.get v name
  end.

(** [x !== ""] *)
Definition is_not_blank (x : json) : bool :=
  match x with
  | JStr EmptyString => false
  | _ => true
  end.

(** U+2192 and U+2026 as their UTF-8 bytes, U+00B7 as the code unit it
    is. *)
Definition arrow : string := String "226" (String "134" (String "146" EmptyString)).
Definition ellipsis : string := String "226" (String "128" (String "166" EmptyString)).
Definition middle_dot : string := String "183" EmptyString.

(** [short(s, n)] *)
Definition short (s : option json) (n : nat) : result string :=
  let* t := to_String (or_blank s) in
  Ok (if n <? String.length t then substring 0 n t +:+ ellipsis else t).

(** A template literal with one substitution: [`${before}${x}${after}`]. *)
Definition template (before : string) (x : json) (after : string) : result json :=
  let* t := to_String x in Ok (JStr (before +:+ t +:+ after)).

(** [if (c) arr.push(x)]: what the statement adds to the array. *)
Definition push_if (c : bool) (x : result json) : result (list json) :=
  if c then let* v := x in Ok [v] else Ok [].

(** The array a sequence of such statements builds. *)
Definition pushes (l : list (result (list json))) : result (list json) :=
  let* added := all_ok l in Ok (concat added).

(** [zone ? zone + ": " : ""] *)
Definition zone_prefix (zone : json) : result string :=
  if Json.truthy zone then let* t := to_String zone in Ok (t +:+ ": ") else Ok EmptyString.

(** The name of the array index [i]. *)
Definition index_name (i : nat) : string := NilZero.string_of_uint (Nat.to_uint i).

(** [Object.keys(p)] for an object or an array. *)
Definition keys (p : json) : list string :=
  match p with
  | JObj props => map fst props
  | JArr items => map index_name (seq 0 (length items))
  | _ => []
  end.

(** [typeof p === "object"] for a value that is not [null]. *)
Definition is_object (p : json) : bool :=
  match p with
  | JObj _ | JArr _ => true
  | _ => false
  end.

(** [buildSummary(evt).summary] *)
Definition buildSummary (evt : json) : result string :=
  let p := payload_or_empty evt in
  let at1 a := Json.get p a in
  let at2 a b := opt_get (Json.get p a) b in
  let at3 a b c := opt_get (opt_get (Json.get p a) b) c in
  let id := or_blank (coalesce (at1 "Id") (at1 "OriginalBookingId")) in
  let eventType := or_blank (at1 "EventType") in
  let bookingType := or_blank (at1 "BookingType") in
  let typeOfBooking := or_blank (at1 "TypeOfBooking") in
  let driverCs :=
    or_blank (coalesce (at2 "Driver" "Callsign") (at3 "DriverDetails" "Driver" "Callsign")) in
  let driverId :=
    or_blank (coalesce (at2 "Driver" "Id") (at3 "DriverDetails" "Driver" "Id")) in
  let vehCs :=
    or_blank (coalesce (at2 "Vehicle" "Callsign") (at3 "VehicleDetails" "Vehicle" "Callsign")) in
  let vehId :=
    or_blank (coalesce (at2 "Vehicle" "Id") (at3 "VehicleDetails" "Vehicle" "Id")) in
  let reg := or_blank (at2 "Vehicle" "Registration") in
  let plate := or_blank (at2 "Vehicle" "PlateNumber") in
  let pickupZone :=
    or_blank (coalesce (at3 "Pickup" "Zone" "Name") (at3 "Pickup" "Zone" "Descriptor")) in
  let pickupAddr := or_blank (at2 "Pickup" "Address") in
  let destZone :=
    or_blank (coalesce (at3 "Destination" "Zone" "Name")
                       (at3 "Destination" "Zone" "Descriptor")) in
  let destAddr := or_blank (at2 "Destination" "Address") in
  let pay := or_blank (at1 "PaymentType") in
  let cost := or_blank (at2 "Pricing" "Cost") in
  let price := or_blank (at2 "Pricing" "Price") in
  let dist := or_blank (coalesce (at1 "Distance") (at1 "SystemDistance")) in
  let eta := or_blank (at1 "EstimatedPickupTime") in
  let arrived := or_blank (at1 "VehicleArrivedAtTime") in
  let dispatched := or_blank (at1 "DispatchedAtTime") in
  let* head := pushes
    [push_if (Json.truthy id) (template "Booking " id EmptyString);
     push_if (Json.truthy eventType) (Ok eventType);
     push_if (Json.truthy bookingType) (Ok bookingType);
     push_if (Json.truthy typeOfBooking) (Ok typeOfBooking)] in
  let* dv := pushes
    [push_if (Json.truthy driverCs) (template "D CS " driverCs EmptyString);
     push_if (is_not_blank driverId) (template "D#" driverId EmptyString);
     push_if (Json.truthy vehCs) (template "V CS " vehCs EmptyString);
     push_if (is_not_blank vehId) (template "V#" vehId EmptyString);
     push_if (Json.truthy reg) (Ok reg);
     push_if (Json.truthy plate) (template "Plate " plate EmptyString)] in
  let* driver := push_if (negb (Nat.eqb (length dv) 0))
              (let* t := array_join " " dv in Ok (JStr t)) in
  let* leg := push_if (Json.truthy pickupAddr || Json.truthy destAddr)
           (let* a := zone_prefix pickupZone in
            let* b := short (Some pickupAddr) 46 in
            let* c := zone_prefix destZone in
            let* d := short (Some destAddr) 46 in
            Ok (JStr (a +:+ b +:+ " " +:+ arrow +:+ " " +:+ c +:+ d))) in
  let* money := pushes
    [push_if (Json.truthy pay) (Ok pay);
     push_if (is_not_blank cost) (template "Cost " cost EmptyString);
     push_if (is_not_blank price) (template "Price " price EmptyString);
     push_if (is_not_blank dist) (template EmptyString dist "mi")] in
  let* paid := push_if (negb (Nat.eqb (length money) 0))
            (let* t := array_join (" " +:+ middle_dot +:+ " ") money in Ok (JStr t)) in
  let* times := pushes
    [push_if (Json.truthy dispatched) (template "Disp " dispatched EmptyString);
     push_if (Json.truthy arrived) (template "Arr " arrived EmptyString);
     push_if (Json.truthy eta) (template "ETA " eta EmptyString)] in
  let* timed := push_if (negb (Nat.eqb (length times) 0))
             (let* t := array_join (" " +:+ middle_dot +:+ " ") times in Ok (JStr t)) in
  let parts := head ++ driver ++ leg ++ paid ++ timed in
  let parts :=
    if Nat.eqb (length parts) 0 && Json.truthy p && is_object p
    then [JStr ("Keys: " +:+ join ", " (slice_first 8 (keys p)))]
    else parts in
  array_join " | " parts.

(** ** Limits *)

Section Handlers.
Context `{env : Env}.

(** [parseLimit(v)] for an absent or string-valued parameter. *)
Definition parseLimit (v : option string) : nat :=
  match v with
  | None => 0
  | Some s =>
      if negb (nonempty s) then 0
      else match Number s with
           | None => 50
           | Some n => if negb (Qle_bool 0 n) then 50 else Z.to_nat (Qfloor n)
           end
  end.

(** ** Request handlers *)

(** What a handler sends: a 404, the answer of the error middleware to an
    exception that escaped the handler, the [count] and [items] of a JSON
    listing, or a download body. *)
Inductive response : Type :=
| NotFound
| ServerError
| Listing (count : nat) (items : list json)
| Download (body : string).

(** [arr.filter(fn)] where [fn] may throw. *)
Fixpoint filter_events (fn : json -> result bool) (arr : list json) : result (list json) :=
  match arr with
  | [] => Ok []
  | evt :: arr' =>
      match fn evt with
      | Throw => Throw
      | Ok keep =>
          match filter_events fn arr' with
          | Throw => Throw
          | Ok r => Ok (if keep then evt :: r else r)
          end
      end
  end.

(** The guard [q || (value && value.trim())] that decides whether a
    handler filters at all. *)
Definition has_filter (q value : string) : bool :=
  nonempty q || (nonempty value && nonempty (trim value)).

(** [(req.query.x || "").toString()] *)
Definition param (x : option string) : string :=
  match x with Some s => s | None => EmptyString end.

Fixpoint set_prop (k : string) (v : json) (props : list (string * json)) :
    list (string * json) :=
  match props with
  | [] => [(k, v)]
  | (k', v') :: rest =>
      if String.eqb k' k then (k', v) :: rest else (k', v') :: set_prop k v rest
  end.

Fixpoint indexed {A} (f : A -> json) (i : nat) (l : list A) : list (string * json) :=
  match l with
  | [] => []
  | x :: l' => (index_name i, f x) :: indexed f (S i) l'
  end.

(** The own enumerable properties copied by [{ ...evt }]. *)
Definition spread (evt : json) : list (string * json) :=
  match evt with
  | JObj props => props
  | JArr items => indexed (fun x => x) 0 items
  | JStr s => indexed (fun c => JStr (String c EmptyString)) 0 (list_ascii_of_string s)
  | _ => []
  end.

(** The callback of the two [map] calls:
    [const { summary } = buildSummary(evt); return { ...evt, _summary: summary }]. *)
Definition with_summary (evt : json) : result json :=
  let* summary := buildSummary evt in
  Ok (JObj (set_prop "_summary" (JStr summary) (spread evt))).

(** [limit === 0 ? filtered : filtered.slice(0, Math.min(5000, limit))] *)
Definition page (limit : nat) (filtered : list json) : list json :=
  if Nat.eqb limit 0 then filtered else slice_first (Nat.min 5000 limit) filtered.

(** [GET /api/hooks/:hook] *)
Definition api_hook (hookParam : string) (q field value limit : option string)
    (st : state) : response * state :=
  let hook := trim hookParam in
  if negb (isHookAllowed hook) then (NotFound, st)
  else
    let q := normalizeQ q in
    let field := param field in
    let value := param value in
    let limit := parseLimit limit in
    let '(arr, st1) := ensureHookLoaded hook st in
    match (if has_filter q value
           then filter_events (fun evt => eventMatches evt q field value) arr
           else Ok arr) with
    | Throw => (ServerError, st1)
    | Ok filtered =>
        match all_ok (map with_summary (page limit filtered)) with
        | Throw => (ServerError, st1)
        | Ok items => (Listing (length filtered) items, st1)
        end
    end.

(** The loop [for (const h of hooks) ... ensureHookLoaded(h)] that gathers
    the events of every hook into a new array. *)
Fixpoint gather (hooks : list string) (acc : list json) (st : state) : list json * state :=
  match hooks with
  | [] => (acc, st)
  | h :: hooks' =>
      let '(arr, st1) := ensureHookLoaded h st in
      gather hooks' (acc ++ arr) st1
  end.

(** [GET /api/events] *)
Definition api_events (q field value limit : option string) (st : state) :
    response * state :=
  let q := normalizeQ q in
  let field := param field in
  let value := param value in
  let limit := parseLimit limit in
  let hooks := listHooksOnDisk st in
  let '(combined, st1) := gather hooks [] st in
  match (if has_filter q value
         then filter_events (fun evt => eventMatches evt q field value) combined
         else Ok combined) with
  | Throw => (ServerError, st1)
  | Ok filtered =>
      let filtered := sort byReceivedAtDesc filtered in
      match all_ok (map with_summary (page limit filtered)) with
      | Throw => (ServerError, st1)
      | Ok items => (Listing (length filtered) items, st1)
      end
  end.

End Handlers.

(** ** Exports *)

(** The array a local variable of a handler refers to: the array held by
    the cache for a hook (the very object, so that a mutation through the
    variable is a mutation of the cache), or an array created by the
    handler itself. *)
Inductive arr_ref : Type :=
| Cached (hook : string)
| Fresh (arr : list json).

(** The contents of the array behind a reference. *)
Definition deref (r : arr_ref) (st : state) : list json :=
  match r with
  | Cached hook => default [] (recentByHook st !! hook)
  | Fresh arr => arr
  end.

(** [value == null ? "" : String(value)] followed by [csvEscape]'s own
    work, for a field read from an event. *)
Definition csvEscape_field (x : option json) : result string :=
  match x with
  | None | Some JNull => Ok (csvEscape None)
  | Some v => let* s := to_String v in Ok (csvEscape (Some s))
  end.

Section Exports.
Context `{env : Env}.

(** [events.sort(compareFn)]: sorts the referenced array in place. *)
Definition sort_in_place (compareFn : json -> json -> Z) (r : arr_ref) (st : state) :
    arr_ref * state :=
  match r with
  | Cached hook =>
      (r, {| files := files st;
             recentByHook := <[hook := sort compareFn (deref r st)]> (recentByHook st) |})
  | Fresh arr => (Fresh (sort compareFn arr), st)
  end.

(** The scope resolution shared by the two exports:
    [(req.query.hook || "*").trim()]. *)
Definition export_scope (hookParam : option string) : string :=
  match hookParam with
  | Some s => if nonempty s then trim s else "*"
  | None => "*"
  end.

(** The common part of the two export handlers up to the truncation:
    the exported events, or the response that ends the request early. *)
Definition export_events (hookParam q field value : option string) (st : state) :
    (response + list json) * state :=
  let scope := export_scope hookParam in
  let q := normalizeQ q in
  let field := param field in
  let value := param value in
  let resolved : option arr_ref * state :=
    if String.eqb scope "*" then
      let '(events, st1) := gather (listHooksOnDisk st) [] st in
      (Some (Fresh events), st1)
    else if negb (isHookAllowed scope) then (None, st)
    else let '(_, st1) := ensureHookLoaded scope st in (Some (Cached scope), st1) in
  match resolved with
  | (None, st1) => (inl NotFound, st1)
  | (Some events, st1) =>
      match (if has_filter q value
             then match filter_events (fun evt => eventMatches evt q field value)
                          (deref events st1) with
                  | Ok arr => Ok (Fresh arr)
                  | Throw => Throw
                  end
             else Ok events) with
      | Throw => (inl ServerError, st1)
      | Ok events =>
          let '(events, st2) := sort_in_place byReceivedAtDesc events st1 in
          let arr := deref events st2 in
          (inr (if MAX_EXPORT <? length arr then slice_first MAX_EXPORT arr else arr), st2)
      end
  end.

(** [events.map((e) => JSON.stringify(e)).join("\n") + (events.length ? "\n" : "")] *)
Definition ndjson_body (events : list json) : string :=
  join (String newline EmptyString) (map Json.stringify events)
  +:+ (if Nat.eqb (length events) 0 then EmptyString else String newline EmptyString).

(** [GET /api/export.ndjson] *)
Definition export_ndjson (hookParam q field value : option string) (st : state) :
    response * state :=
  match export_events hookParam q field value st with
  | (inl r, st1) => (r, st1)
  | (inr events, st1) => (Download (ndjson_body events), st1)
  end.

Definition csv_header : list string :=
  ["receivedAt"; "id"; "hook"; "ip"; "contentType"; "userAgent"; "payloadJson"].

(** One row of the CSV export. *)
Definition csv_row (e : json) : result string :=
  let* fields := all_ok
    [csvEscape_field (Json.get e "receivedAt");
     csvEscape_field (Json.get e "id");
     csvEscape_field (Json.get e "hook");
     csvEscape_field (or_empty (meta_field e "ip"));
     csvEscape_field (or_empty (meta_field e "contentType"));
     csvEscape_field (or_empty (meta_field e "userAgent"));
     Ok (csvEscape (Some (stringifySafe_val (payload_or_empty e))))] in
  Ok (join "," fields).

(** [GET /api/export.csv] *)
Definition export_csv (hookParam q field value : option string) (st : state) :
    response * state :=
  match export_events hookParam q field value st with
  | (inl r, st1) => (r, st1)
  | (inr events, st1) =>
      match all_ok (map csv_row events) with
      | Throw => (ServerError, st1)
      | Ok lines =>
          let rows := join "," csv_header :: lines in
          (Download (join (String newline EmptyString) rows +:+ String newline EmptyString),
           st1)
      end
  end.

End Exports.

(** ** Webhook receiver *)

(** What the receiver reads from a request: the [:hook] route parameter,
    three headers, the address of the socket (a string, as it is while
    the socket is connected), and the body left by the body parsers
    ([None] for [undefined], a [JStr] for a text body). *)
Record webhook_request : Type := {
  wh_hook : string;
  wh_forwarded_for : option string;
  wh_user_agent : option string;
  wh_content_type : option string;
  wh_remote_address : string;
  wh_body : option json
}.

(** [h || null] for a header. *)
Definition header_or_null (h : option string) : json :=
  match h with
  | Some s => if nonempty s then JStr s else JNull
  | None => JNull
  end.

(** The [meta] object of the receiver. *)
Definition webhook_meta (r : webhook_request) : json :=
  JObj [("ip", JStr (match wh_forwarded_for r with
                     | Some s => if nonempty s then s else wh_remote_address r
                     | None => wh_remote_address r
                     end));
        ("userAgent", header_or_null (wh_user_agent r));
        ("contentType", header_or_null (wh_content_type r))].

(** The answer of the receiver: a 404, or the [id] and [hook] of the stored
    event. *)
Inductive webhook_response : Type :=
| UnknownWebhook
| Accepted (id hook : option json).

(** ** Lookup and clearing *)

(** The answer of the single-event lookup: a 404, the answer of the error
    middleware to an exception, or the item. *)
Inductive item_response : Type :=
| ItemNotFound
| ItemError
| Item (item : json).

(** The answer of the clear request: a 404, the answer of the error
    middleware to an exception, or what was cleared. *)
Inductive clear_response : Type :=
| ClearNotFound
| ClearError
| ClearedAll (hooksCleared : nat)
| ClearedHook (hook : string).

(** [x.id === id] for an element [x] of a cached array; reading a property
    of [null] throws. *)
Definition has_id (id : string) (x : json) : result bool :=
  match x with
  | JNull => Throw
  | _ => match Json.get x "id" with
         | Some (JStr s) => Ok (String.eqb s id)
         | _ => Ok false
         end
  end.

(** [arr.find((x) => x.id === id)] *)
Fixpoint find_by_id (id : string) (arr : list json) : result (option json) :=
  match arr with
  | [] => Ok None
  | x :: arr' =>
      match has_id id x with
      | Throw => Throw
      | Ok true => Ok (Some x)
      | Ok false => find_by_id id arr'
      end
  end.

Section MoreHandlers.
Context `{env : Env}.

(** The payload the receiver stores for a body. *)
Definition webhook_payload (body : option json) : json :=
  let payload :=
    match body with
    | Some (JStr s) =>
        let trimmed := trim s in
        if nonempty trimmed then
          match JSON_parse trimmed with
          | Some v => Some v
          | None => Some (JObj [("_raw", JStr s)])
          end
        else Some (JObj [("_empty", JBool true)])
    | other => other
    end in
  match payload with
  | None | Some JNull => JObj [("_empty", JBool true)]
  | Some v => v
  end.

(** [POST /:hook]; [id] and [now] are what [storeEvent] draws from
    [crypto.randomUUID()] and the clock. *)
Definition post_hook (r : webhook_request) (id now : string) (st : state) :
    webhook_response * state :=
  let hook := trim (wh_hook r) in
  if String.eqb hook "api" || String.eqb hook "dashboard" then (UnknownWebhook, st)
  else if negb (isHookAllowed hook) then (UnknownWebhook, st)
  else
    let meta := webhook_meta r in
    let payload := webhook_payload (wh_body r) in
    let '(evt, st1) := storeEvent hook payload meta id now st in
    (Accepted (Json.get evt "id") (Json.get evt "hook"), st1).

(** [GET /api/hooks]: the [hooks] of the answer. *)
Definition api_hooks (st : state) : list string :=
  "*" :: listHooksOnDisk st.

(** [GET /api/hooks/:hook/:id] *)
Definition api_hook_item (hookParam id : string) (st : state) : item_response * state :=
  let hook := trim hookParam in
  if negb (isHookAllowed hook) then (ItemNotFound, st)
  else
    let '(arr, st1) := ensureHookLoaded hook st in
    match find_by_id id arr with
    | Throw => (ItemError, st1)
    | Ok (Some item) => if Json.truthy item then (Item item, st1) else (ItemNotFound, st1)
    | Ok None => (ItemNotFound, st1)
    end.

(** The hook a clear request names: [(body?.hook || "*").toString().trim()],
    a text body being parsed first and replaced by [{}] when it does not
    parse.  The call of [toString] throws on an object that has a
    property of that name. *)
Definition clear_target (body : option json) : result string :=
  let body :=
    match body with
    | Some (JStr s) =>
        Some (match JSON_parse s with Some v => v | None => JObj [] end)
    | other => other
    end in
  let hook :=
    match body with
    | None | Some JNull => None
    | Some b => Json.get b "hook"
    end in
  let* named :=
    match hook with
    | Some v => if Json.truthy v then to_String v else Ok "*"
    | None => Ok "*"
    end in
  Ok (trim named).

(** [fs.existsSync(file) && fs.unlinkSync(file)] for the log of a hook. *)
Definition unlink (hook : string) (fs : gmap string string) : gmap string string :=
  delete hook fs.

(** [POST /api/clear] *)
Definition api_clear (body : option json) (st : state) : clear_response * state :=
  match clear_target body with
  | Throw => (ClearError, st)
  | Ok hook =>
      if String.eqb hook "*" then
        let st1 := {| files := files st; recentByHook := ∅ |} in
        let hooks := listHooksOnDisk st1 in
        (ClearedAll (length hooks),
         {| files := fold_left (fun fs h => unlink h fs) hooks (files st1);
            recentByHook := recentByHook st1 |})
      else if negb (isHookAllowed hook) then (ClearNotFound, st)
      else
        (ClearedHook hook,
         {| files := unlink hook (files st);
            recentByHook := delete hook (recentByHook st) |})
  end.

End MoreHandlers.

(** ** The name of an export *)

(** What the two export handlers put in [Content-Disposition] as the file
    name; [q] is the normalised query and [value] the raw parameter. *)
Definition export_filename (scope q value ext : string) : string :=
  (if String.eqb scope "*" then "all-hooks" else scope)
  +:+ (if nonempty q || nonempty value then "-filtered" else EmptyString)
  +:+ ext.

(** ** An instance of the environment

    A JSON reader for the integer fragment of JSON, a code-unit
    [localeCompare], a decimal [Number], the stable sort and a part of the
    prototype chain, with the default limits of the configuration.  The general results below hold for every environment;
    this one runs the examples. *)

Module Builtins.

Definition is_json_ws (c : ascii) : bool :=
  let n := code c in (n =? 32) || (n =? 9) || (n =? 10) || (n =? 13).

Fixpoint skip_ws (s : string) : string :=
  match s with
  | String c s' => if is_json_ws c then skip_ws s' else s
  | EmptyString => s
  end.

Definition is_digit (c : ascii) : bool :=
  let n := code c in (48 <=? n) && (n <=? 57).

Fixpoint read_digits (s : string) : string * string :=
  match s with
  | String c s' =>
      if is_digit c then let '(d, r) := read_digits s' in (String c d, r)
      else (EmptyString, s)
  | EmptyString => (EmptyString, EmptyString)
  end.

Definition starts_fraction (s : string) : bool :=
  match s with
  | String c _ => Ascii.eqb c "."%char || Ascii.eqb c "e"%char || Ascii.eqb c "E"%char
  | EmptyString => false
  end.

(** An integer literal; a literal with a fraction or an exponent is not
    represented and is refused. *)
Definition parse_number (s : string) : option (json * string) :=
  let '(neg, s1) :=
    match s with
    | String c s' => if Ascii.eqb c "-"%char then (true, s') else (false, s)
    | EmptyString => (false, s)
    end in
  let '(ds, rest) := read_digits s1 in
  let leading_zero :=
    match ds with
    | String c (String _ _) => Ascii.eqb c "0"%char
    | _ => false
    end in
  if leading_zero || starts_fraction rest then None
  else match NilZero.uint_of_string ds with
       | Some u =>
           if nonempty ds
           then Some (JNum (if neg then (- Z.of_uint u)%Z else Z.of_uint u), rest)
           else None
       | None => None
       end.

Definition hex_val (c : ascii) : option nat :=
  let n := code c in
  if (48 <=? n) && (n <=? 57) then Some (n - 48)
  else if (97 <=? n) && (n <=? 102) then Some (n - 87)
  else if (65 <=? n) && (n <=? 70) then Some (n - 55)
  else None.

(** [\uXXXX] for a code unit below U+0100. *)
Definition unicode_escape (a b c d : ascii) : option ascii :=
  match hex_val a, hex_val b, hex_val c, hex_val d with
  | Some 0, Some 0, Some x, Some y => Some (ascii_of_nat (16 * x + y))
  | _, _, _, _ => None
  end.

Definition simple_escape (e : ascii) : option ascii :=
  let n := code e in
  if n =? 34 then Some Json.dquote
  else if n =? 92 then Some Json.backslash
  else if n =? 47 then Some "/"%char
  else if n =? 98 then Some "008"%char
  else if n =? 102 then Some "012"%char
  else if n =? 110 then Some "010"%char
  else if n =? 114 then Some "013"%char
  else if n =? 116 then Some "009"%char
  else None.

(** The characters of a string literal after its opening quote, and the
    input after its closing quote. *)
Fixpoint parse_string_body (s : string) : option (string * string) :=
  match s with
  | EmptyString => None
  | String c s' =>
      if Ascii.eqb c Json.dquote then Some (EmptyString, s')
      else if Ascii.eqb c Json.backslash then
        match s' with
        | String e s'' =>
            if Ascii.eqb e "u"%char then
              match s'' with
              | String h1 (String h2 (String h3 (String h4 s5))) =>
                  match unicode_escape h1 h2 h3 h4, parse_string_body s5 with
                  | Some ch, Some (t, r) => Some (String ch t, r)
                  | _, _ => None
                  end
              | _ => None
              end
            else
              match simple_escape e, parse_string_body s'' with
              | Some ch, Some (t, r) => Some (String ch t, r)
              | _, _ => None
              end
        | EmptyString => None
        end
      else if code c <? 32 then None
      else match parse_string_body s' with
           | Some (t, r) => Some (String c t, r)
           | None => None
           end
  end.

Fixpoint strip_prefix (p s : string) : option string :=
  match p, s with
  | EmptyString, _ => Some s
  | String a p', String b s' => if Ascii.eqb a b then strip_prefix p' s' else None
  | String _ _, EmptyString => None
  end.

Definition literal (word : string) (v : json) (s : string) : option (json * string) :=
  match strip_prefix word s with
  | Some r => Some (v, r)
  | None => None
  end.

Fixpoint parse_value (fuel : nat) (s : string) {struct fuel} : option (json * string) :=
  match fuel with
  | O => None
  | S fuel' =>
      match skip_ws s with
      | EmptyString => None
      | String c rest =>
          if Ascii.eqb c "n"%char then literal "null" JNull (String c rest)
          else if Ascii.eqb c "t"%char then literal "true" (JBool true) (String c rest)
          else if Ascii.eqb c "f"%char then literal "false" (JBool false) (String c rest)
          else if Ascii.eqb c Json.dquote then
            match parse_string_body rest with
            | Some (str, r) => Some (JStr str, r)
            | None => None
            end
          else if Ascii.eqb c "["%char then
            match skip_ws rest with
            | String c' r =>
                if Ascii.eqb c' "]"%char then Some (JArr [], r)
                else match parse_items fuel' rest [] with
                     | Some (items, r') => Some (JArr items, r')
                     | None => None
                     end
            | EmptyString => None
            end
          else if Ascii.eqb c "{"%char then
            match skip_ws rest with
            | String c' r =>
                if Ascii.eqb c' "}"%char then Some (JObj [], r)
                else match parse_members fuel' rest [] with
                     | Some (props, r') => Some (JObj props, r')
                     | None => None
                     end
            | EmptyString => None
            end
          else parse_number (String c rest)
      end
  end
with parse_items (fuel : nat) (s : string) (acc : list json) {struct fuel} :
    option (list json * string) :=
  match fuel with
  | O => None
  | S fuel' =>
      match parse_value fuel' s with
      | Some (v, r) =>
          match skip_ws r with
          | String c r' =>
              if Ascii.eqb c ","%char then parse_items fuel' r' (acc ++ [v])
              else if Ascii.eqb c "]"%char then Some (acc ++ [v], r')
              else None
          | EmptyString => None
          end
      | None => None
      end
  end
with parse_members (fuel : nat) (s : string) (acc : list (string * json)) {struct fuel} :
    option (list (string * json) * string) :=
  match fuel with
  | O => None
  | S fuel' =>
      match skip_ws s with
      | String q r =>
          if Ascii.eqb q Json.dquote then
            match parse_string_body r with
            | Some (k, r1) =>
                match skip_ws r1 with
                | String colon r2 =>
                    if Ascii.eqb colon ":"%char then
                      match parse_value fuel' r2 with
                      | Some (v, r3) =>
                          match skip_ws r3 with
                          | String c r4 =>
                              if Ascii.eqb c ","%char
                              then parse_members fuel' r4 (set_prop k v acc)
                              else if Ascii.eqb c "}"%char
                              then Some (set_prop k v acc, r4)
                              else None
                          | EmptyString => None
                          end
                      | None => None
                      end
                    else None
                | EmptyString => None
                end
            | None => None
            end
          else None
      | EmptyString => None
      end
  end.

(** [JSON.parse(text)]: [None] for a [SyntaxError]. *)
Definition parse (text : string) : option json :=
  match parse_value (2 * String.length text + 2) text with
  | Some (v, r) => if nonempty (skip_ws r) then None else Some v
  | None => None
  end.

(** A [localeCompare] that orders by code units. *)
Definition compare_code_units (a b : string) : Z :=
  match String.compare a b with
  | Lt => (-1)%Z
  | Eq => 0%Z
  | Gt => 1%Z
  end.

(** [Number(s)] on decimal digit strings; anything else is [NaN]. *)
Definition decimal (s : string) : option Q :=
  let t := trim s in
  if all_chars is_digit t then
    match NilZero.uint_of_string t with
    | Some u => Some (inject_Z (Z.of_uint u))
    | None => None
    end
  else None.

(** The part of the prototype chain that every engine shares: the
    constructor of a value, the members of [Object.prototype], and the
    prototype itself, which [__proto__] names.  A function has a [name]
    and a [length]; [JSON.stringify] gives [undefined] for it.  The
    methods that only arrays, strings, numbers or booleans have are not
    in this instance. *)
Inductive builtin_value : Type :=
| BuiltinFunction (name : string) (arity : Z)
| BuiltinPrototype (kind : string).

Definition constructor_name (v : json) : string :=
  match v with
  | JObj _ => "Object"
  | JArr _ => "Array"
  | JStr _ => "String"
  | JNum _ => "Number"
  | JBool _ => "Boolean"
  | JNull => EmptyString
  end.

(** The methods of [Object.prototype] with their [length]. *)
Definition object_methods : list (string * Z) :=
  [("hasOwnProperty", 1%Z); ("isPrototypeOf", 1%Z); ("propertyIsEnumerable", 1%Z);
   ("toLocaleString", 0%Z); ("toString", 0%Z); ("valueOf", 0%Z);
   ("__defineGetter__", 2%Z); ("__defineSetter__", 2%Z);
   ("__lookupGetter__", 1%Z); ("__lookupSetter__", 1%Z)].

Fixpoint method_arity (p : string) (l : list (string * Z)) : option Z :=
  match l with
  | [] => None
  | (name, n) :: l' => if String.eqb name p then Some n else method_arity p l'
  end.

(** A member of the prototype of the values that [kind] constructs. *)
Definition member (kind p : string) : option (reached builtin_value) :=
  if String.eqb p "constructor" then Some (Foreign (BuiltinFunction kind 1%Z))
  else if String.eqb p "__proto__" then Some (Foreign (BuiltinPrototype kind))
  else match method_arity p object_methods with
       | Some n =>
           Some (Foreign (BuiltinFunction p (if String.eqb kind "Number" && String.eqb p "toString"
                                      then 1%Z else n)))
       | None => None
       end.

Definition inherited (v : json) (p : string) : option (reached builtin_value) :=
  member (constructor_name v) p.

Definition builtin_get (b : builtin_value) (p : string) : option (reached builtin_value) :=
  match b with
  | BuiltinFunction name arity =>
      if String.eqb p "name" then Some (Plain (JStr name))
      else if String.eqb p "length" then Some (Plain (JNum arity))
      else member "Function" p
  | BuiltinPrototype kind =>
      if String.eqb p "__proto__" then
        if String.eqb kind "Object" then Some (Plain JNull)
        else Some (Foreign (BuiltinPrototype "Object"))
      else member kind p
  end.

(** [JSON.stringify] of a prototype object: [{}] for [Object.prototype],
    and the text of the empty array, string, number and boolean the other
    prototypes are; [Function.prototype] is a function. *)
Definition builtin_text (b : builtin_value) : option string :=
  match b with
  | BuiltinFunction _ _ => None
  | BuiltinPrototype kind =>
      if String.eqb kind "Object" then Some "{}"
      else if String.eqb kind "Array" then Some "[]"
      else if String.eqb kind "String" then Some (Json.quote EmptyString)
      else if String.eqb kind "Number" then Some "0"
      else if String.eqb kind "Boolean" then Some "false"
      else None
  end.

End Builtins.

(** The default configuration: [MAX_RECENT_PER_HOOK = 500],
    [MAX_EXPORT = 20000], no allowlist. *)
Definition default_env : Env := {|
  MAX_RECENT_PER_HOOK := 500;
  MAX_EXPORT := 20000;
  HOOK_ALLOWLIST := [];
  JSON_parse := Builtins.parse;
  localeCompare := Builtins.compare_code_units;
  Number := Builtins.decimal;
  sort := @stable_sort;
  sort_rearranges := @stable_sort_perm;
  sort_of_consistent := fun A compareFn arr _ => eq_refl;
  builtin := Builtins.builtin_value;
  inherited := Builtins.inherited;
  builtin_get := Builtins.builtin_get;
  builtin_text := Builtins.builtin_text
|}.

(** A configuration with small limits, convenient for examples. *)
Definition small_env (max_recent max_export : nat) : Env := {|
  MAX_RECENT_PER_HOOK := max_recent;
  MAX_EXPORT := max_export;
  HOOK_ALLOWLIST := [];
  JSON_parse := Builtins.parse;
  localeCompare := Builtins.compare_code_units;
  Number := Builtins.decimal;
  sort := @stable_sort;
  sort_rearranges := @stable_sort_perm;
  sort_of_consistent := fun A compareFn arr _ => eq_refl;
  builtin := Builtins.builtin_value;
  inherited := Builtins.inherited;
  builtin_get := Builtins.builtin_get;
  builtin_text := Builtins.builtin_text
|}.

Definition empty_state : state := {| files := ∅; recentByHook := ∅ |}.

(** The state of a process that starts on the data directory left by
    [st]: same files, empty cache. *)
Definition restart (st : state) : state := {| files := files st; recentByHook := ∅ |}.

(** * Vocabulary of the properties

    Definitions the statements below are written with; none of them is
    part of the server. *)

(** ** Tabular escaping *)

(** Standard CSV unescaping of one field (RFC 4180): a field that opens
    with a double quote is read up to its closing quote, a doubled quote
    standing for one quote; any other field is taken as it is.  This
    reader is not part of the server; it is the inverse the escaping law
    refers to. *)
Fixpoint csv_unquote (s : string) : string :=
  match s with
  | EmptyString => EmptyString
  | String c s' =>
      if Ascii.eqb c Json.dquote then
        match s' with
        | String c' s'' =>
            if Ascii.eqb c' Json.dquote then String Json.dquote (csv_unquote s'')
            else EmptyString
        | EmptyString => EmptyString
        end
      else String c (csv_unquote s')
  end.

Definition csvUnescape (field : string) : string :=
  match field with
  | String c s' => if Ascii.eqb c Json.dquote then csv_unquote s' else field
  | EmptyString => EmptyString
  end.

(** A character that forces quoting: comma, double quote, or a line break
    (line feed or carriage return). *)
Definition csv_special (c : ascii) : Prop :=
  c = ","%char \/ c = Json.dquote \/ c = "010"%char \/ c = "013"%char.

(** [s] contains the character [c]. *)
Fixpoint occurs (c : ascii) (s : string) : Prop :=
  match s with
  | EmptyString => False
  | String a s' => a = c \/ occurs c s'
  end.

(** ** Matching *)

(** The selected-field filter is present: [value && value.trim()]. *)
Definition selected_present (value : string) : bool :=
  nonempty value && nonempty (trim value).

(** The advanced query [q] accepts [evt]: every field token and every text
    token of the normalised query matches. *)
Definition advanced_accepts (evt : json) (q : string) : Prop :=
  let ts := parseTokens (normalizeQ (Some q)) in
  Forall (fun ft => eventMatchesFieldToken evt (fst ft) (snd ft) = true) (fieldTokens ts) /\
  Forall (fun txt => eventMatchesTextToken evt txt = true) (textTokens ts).

(** The field path names the field (it is none of the full-text
    selectors). *)
Definition names_field (fieldPath : string) : bool :=
  let f := trim fieldPath in
  nonempty f && negb (String.eqb f "any") && negb (String.eqb f "fulltext").

(** The matcher accepts the event: it returns [true]. *)
Definition accepts (fn : json -> result bool) (evt : json) : bool :=
  match fn evt with
  | Ok true => true
  | _ => false
  end.

(** The matcher throws on the event. *)
Definition throws (fn : json -> result bool) (evt : json) : bool :=
  match fn evt with
  | Throw => true
  | Ok _ => false
  end.

(** The entries [deepAny] visits from an entry [{ value, key }]: the entry
    itself, then the entries of the elements of an array (under the key of
    the array) and of the properties of an object (under their own
    keys). *)
Fixpoint nodes (key : option string) (value : json) : list (option string * json) :=
  (key, value) ::
  match value with
  | JArr items => flat_map (nodes key) items
  | JObj props => flat_map (fun kv => nodes (Some (fst kv)) (snd kv)) props
  | _ => []
  end.

Definition frame_nodes (f : frame) : list (option string * json) := nodes (snd f) (fst f).

(** Every object property of a value, at any depth, as a key/value pair. *)
Fixpoint properties (v : json) : list (string * json) :=
  match v with
  | JObj props => flat_map (fun kv => (fst kv, snd kv) :: properties (snd kv)) props
  | JArr items => flat_map properties items
  | _ => []
  end.

(** A value together with what is reached from it by descending through
    arrays only: the elements of an array, the elements of its array
    elements, and so on. *)
Fixpoint array_elements (v : json) : list json :=
  v :: match v with
       | JArr items => flat_map array_elements items
       | _ => []
       end.

(** The deep key match as the specification words it: some object
    property, at any depth, has the token's key (ignoring case) and a
    stringified value that contains the token's value (ignoring case). *)
Definition property_match (evt : json) (key value : string) : Prop :=
  exists k pv,
    In (k, pv) (properties evt) /\
    toLowerCase k = toLowerCase key /\
    includes (toLowerCase (stringifySafe_val pv)) (toLowerCase value) = true.

(** The deep key match of the code: the stringified text that is searched
    is that of the property's value or of an element reached from the
    value through arrays only. *)
Definition property_or_element_match (evt : json) (key value : string) : Prop :=
  exists k pv v,
    In (k, pv) (properties evt) /\ In v (array_elements pv) /\
    toLowerCase k = toLowerCase key /\
    includes (toLowerCase (stringifySafe_val v)) (toLowerCase value) = true.

(** ** Ordering *)

(** [b] may stand after [a]: the comparator does not ask for [a] to come
    after [b]. *)
Definition in_order {A} (compareFn : A -> A -> Z) (a b : A) : Prop :=
  (0 <? compareFn a b)%Z = false.

(** [a] is at least as recent as [b]: [a.receivedAt < b.receivedAt] is
    false. *)
Definition not_older (a b : json) : Prop := js_lt (receivedAt a) (receivedAt b) = false.

(** The event carries a string time stamp, as every event built by
    [storeEvent] does. *)
Definition timestamped (e : json) : Prop := exists t, receivedAt e = Some (JStr t).

(** The events received at the instant [t]. *)
Definition received_at (t : string) (e : json) : bool :=
  match receivedAt e with
  | Some (JStr t') => String.eqb t' t
  | _ => false
  end.

(** A comparator with an explicit tie-break: it never reports two
    different events as equal, so the order of the result does not rest on
    the stability of the sort. *)
Definition has_explicit_tie_break (compareFn : json -> json -> Z) : Prop :=
  forall a b, a <> b -> compareFn a b <> 0%Z.

(** The listed item of an event whose summary is [summary]. *)
Definition summarised (evt : json) (summary : string) : json :=
  JObj (set_prop "_summary" (JStr summary) (spread evt)).

(** ** Lines of text *)

Definition is_newline (c : ascii) : bool := Ascii.eqb c newline.

(** The string holds no line feed. *)
Definition one_line (s : string) : Prop := has_char is_newline s = false.

(** ** States and requests *)

Section Vocabulary.
Context `{env : Env}.

(** The array [ensureHookLoaded] hands out for a hook: the cached one, or
    what a first access loads from the log. *)
Definition cache_view (st : state) (hook : string) : list json :=
  match recentByHook st !! hook with
  | Some arr => arr
  | None => loadHook hook st
  end.

(** Two states with the same files in which every hook has the same
    events, loaded or not. *)
Definition same_view (st st' : state) : Prop :=
  files st' = files st /\ forall h, cache_view st' h = cache_view st h.

(** The lines of a log file: the non-empty pieces of its trimmed contents
    between line feeds. *)
Definition file_lines (content : string) : list string :=
  List.filter nonempty (split newline (trim content)).

(** The last [n] elements of a list. *)
Definition last_n {A} (n : nat) (l : list A) : list A := skipn (length l - n) l.

(** The load operation as the specification words it: nothing for a
    missing file, otherwise the last [MAX_RECENT_PER_HOOK] lines, each
    parsed, the lines that do not parse left out, in file order. *)
Definition load_as_specified (hook : string) (st : state) : list json :=
  match files st !! hook with
  | None => []
  | Some content => omap JSON_parse (last_n MAX_RECENT_PER_HOOK (file_lines content))
  end.

(** The matcher a request applies to every event. *)
Definition request_matcher (q field value : option string) (evt : json) : result bool :=
  eventMatches evt (normalizeQ q) (param field) (param value).

(** What a listing request sends for the events its filter keeps, in the
    order of the answer: the [count], and the first events with their
    summaries; the answer of the error middleware when a summary throws. *)
Definition listing (limit : option string) (filtered : list json) : response :=
  match all_ok (map with_summary (page (parseLimit limit) filtered)) with
  | Ok items => Listing (length filtered) items
  | Throw => ServerError
  end.

(** The events of every enumerated hook, in enumeration order. *)
Definition all_events (st : state) : list json :=
  concat (map (cache_view st) (listHooksOnDisk st)).

(** The state after [n] further aggregation requests. *)
Definition after_aggregations (q field value limit : option string) (n : nat)
    (st : state) : state :=
  Nat.iter n (fun s => snd (api_events q field value limit s)) st.

(** The events an export reads for its scope: those of every enumerated
    hook for the wildcard, the cache of the hook otherwise. *)
Definition scope_events (scope : string) (st : state) : list json :=
  if String.eqb scope "*" then all_events st else cache_view st scope.

(** The state left by an export of one hook without filter: the cached
    array of the hook is sorted. *)
Definition cache_sorted (scope : string) (st : state) : state :=
  let st1 := snd (ensureHookLoaded scope st) in
  {| files := files st1;
     recentByHook := <[scope := sort byReceivedAtDesc (cache_view st scope)]> (recentByHook st1) |}.

(** What an export sends for a list of events of its scope. *)
Definition exported (q field value : option string) (events : list json) :
    response + list json :=
  if existsb (throws (request_matcher q field value)) events then inl ServerError
  else inr (firstn MAX_EXPORT
              (sort byReceivedAtDesc
                 (List.filter (accepts (request_matcher q field value)) events))).

(** Every loaded cache holds at most [MAX_RECENT_PER_HOOK] events. *)
Definition bounded (st : state) : Prop :=
  forall h arr, recentByHook st !! h = Some arr -> length arr <= MAX_RECENT_PER_HOOK.

(** An ingest request: payload, metadata, the generated id and the time of
    receipt. *)
Record ingest_request : Type := {
  req_payload : json;
  req_meta : json;
  req_id : string;
  req_now : string
}.

Definition event_of (hook : string) (r : ingest_request) : json :=
  mkEvent (req_id r) hook (req_now r) (req_meta r) (req_payload r).

(** A sequence of ingests into one hook, first request first. *)
Definition ingest_all (hook : string) (reqs : list ingest_request) (st : state) : state :=
  fold_left
    (fun s r => snd (storeEvent hook (req_payload r) (req_meta r) (req_id r) (req_now r) s))
    reqs st.
End Vocabulary.

(** ** Reading CSV *)

(** A reader of comma-separated text in the manner of RFC 4180, with the
    line feed as the record separator: a field that opens with a double
    quote runs to its closing quote, a doubled quote standing for one
    quote, and may hold commas and line breaks.  The reader is not part of
    the server; it is what the CSV export is read back with. *)
Inductive csv_mode : Type :=
| AtStart
| InPlain
| InQuoted.

(** The records that follow, with [c] put in front of the first field. *)
Definition cons_char (c : ascii) (rows : list (list string)) : list (list string) :=
  match rows with
  | (f :: fs) :: rs => (String c f :: fs) :: rs
  | [] :: rs => [String c EmptyString] :: rs
  | [] => [[String c EmptyString]]
  end.

(** The records that follow, with the field [f] put in front of the first
    record. *)
Definition add_field (f : string) (rows : list (list string)) : list (list string) :=
  match rows with
  | r :: rs => (f :: r) :: rs
  | [] => [[f]]
  end.

Fixpoint csv_read (mode : csv_mode) (s : string) : list (list string) :=
  match s with
  | EmptyString => [[EmptyString]]
  | String c s' =>
      match mode with
      | InQuoted =>
          if Ascii.eqb c Json.dquote then
            match s' with
            | String c' s'' =>
                if Ascii.eqb c' Json.dquote
                then cons_char Json.dquote (csv_read InQuoted s'')
                else csv_read InPlain s'
            | EmptyString => [[EmptyString]]
            end
          else cons_char c (csv_read InQuoted s')
      | _ =>
          if Ascii.eqb c ","%char then add_field EmptyString (csv_read AtStart s')
          else if Ascii.eqb c newline then [EmptyString] :: csv_read AtStart s'
          else if match mode with AtStart => Ascii.eqb c Json.dquote | _ => false end
          then csv_read InQuoted s'
          else cons_char c (csv_read InPlain s')
      end
  end.

(** The text of a column of the CSV export before escaping:
    [value == null ? "" : String(value)]. *)
Definition csv_text (x : option json) : result string :=
  match x with
  | None | Some JNull => Ok EmptyString
  | Some v => to_String v
  end.

(** The seven column values of the CSV export for an event. *)
Definition csv_values (e : json) : result (list string) :=
  all_ok
    [csv_text (Json.get e "receivedAt");
     csv_text (Json.get e "id");
     csv_text (Json.get e "hook");
     csv_text (or_empty (meta_field e "ip"));
     csv_text (or_empty (meta_field e "contentType"));
     csv_text (or_empty (meta_field e "userAgent"));
     Ok (stringifySafe_val (payload_or_empty e))].

(** ** Queries *)

(** The pieces of a string between its white-space characters. *)
Fixpoint pieces (s : string) : list string :=
  match s with
  | EmptyString => [EmptyString]
  | String c s' =>
      if is_space c then EmptyString :: pieces s'
      else match pieces s' with
           | [] => [String c EmptyString]
           | w :: ws => String c w :: ws
           end
  end.

(** The blank-separated words of a string. *)
Definition blank_separated (s : string) : list string :=
  List.filter nonempty (pieces s).

(** ** Logs *)

(** The text of a log that holds the given lines, each ended by a line
    feed. *)
Fixpoint log_text (lines : list string) : string :=
  match lines with
  | [] => EmptyString
  | l :: ls => l +:+ String newline (log_text ls)
  end.

(** A line as [storeEvent] writes them: not empty, without a line feed,
    and without white space at either end. *)
Definition record_line (l : string) : Prop :=
  one_line l /\ l <> EmptyString /\ trim l = l.

(** ** Requests *)

(** The requests that read or change the store. *)
Inductive request : Type :=
| PostHook (r : webhook_request) (id now : string)
| GetHooks
| GetHook (hook : string) (q field value limit : option string)
| GetHookItem (hook id : string)
| GetEvents (q field value limit : option string)
| GetExportNdjson (hook q field value : option string)
| GetExportCsv (hook q field value : option string)
| PostClear (body : option json).

(** The [count] of a listing; 0 for any other answer. *)
Definition listing_count (r : response) : nat :=
  match r with
  | Listing count _ => count
  | _ => 0
  end.

Section MoreVocabulary.
Context `{env : Env}.

(** The state a request leaves. *)
Definition handle (r : request) (st : state) : state :=
  match r with
  | PostHook r id now => snd (post_hook r id now st)
  | GetHooks => st
  | GetHook hook q field value limit => snd (api_hook hook q field value limit st)
  | GetHookItem hook id => snd (api_hook_item hook id st)
  | GetEvents q field value limit => snd (api_events q field value limit st)
  | GetExportNdjson hook q field value => snd (export_ndjson hook q field value st)
  | GetExportCsv hook q field value => snd (export_csv hook q field value st)
  | PostClear body => snd (api_clear body st)
  end.

(** The state after a sequence of requests, first request first. *)
Definition run (rs : list request) (st : state) : state :=
  fold_left (fun s r => handle r s) rs st.

(** Every entry of every loaded cache is truthy. *)
Definition loaded_truthy (st : state) : Prop :=
  forall h arr, recentByHook st !! h = Some arr -> Forall (fun e => Json.truthy e = true) arr.

(** The two invariants of the caches. *)
Definition well_formed (st : state) : Prop := bounded st /\ loaded_truthy st.

End MoreVocabulary.

(** ** Sample data *)

(** The event of the specification's examples: a [tracks] event whose
    payload is an object with [EventType] and a nested [Driver.Callsign]. *)
Definition booking_payload (callsign : string) : json :=
  JObj [("EventType", JStr "BookingCreated");
        ("Driver", JObj [("Callsign", JStr callsign)])].

Definition sample_meta : json :=
  JObj [("ip", JStr "203.0.113.7"); ("userAgent", JNull);
        ("contentType", JStr "application/json")].

Definition booking_event : json :=
  JObj [("id", JStr "evt-1"); ("hook", JStr "tracks");
        ("receivedAt", JStr "2024-05-01T10:00:00.000Z");
        ("meta", sample_meta); ("payload", booking_payload "51")].

(** An event whose payload holds the array [tags] with one string element,
    the three characters a, double quote, b. *)
Definition quoted_tag : string := String "a" (String Json.dquote "b").

Definition tagged_event : json :=
  JObj [("id", JStr "evt-2"); ("hook", JStr "tracks");
        ("receivedAt", JStr "2024-05-01T10:00:01.000Z");
        ("meta", sample_meta);
        ("payload", JObj [("tags", JArr [JStr quoted_tag])])].

(** A payload whose booking id is an object with a property [toString],
    as the receiver stores it for the body [{"Id":{"toString":1}}]. *)
Definition unprintable_payload : json :=
  JObj [("Id", JObj [("toString", JNum 1)])].

(** A data directory whose [tracks] log holds the sample event followed by
    the line [null]. *)
Definition log_with_null_line : state :=
  {| files :=
       {[ "tracks" := Json.stringify booking_event +:+ String newline
                        ("null" +:+ String newline EmptyString) ]};
     recentByHook := ∅ |}.

(** A webhook request on the [tracks] hook whose body arrives as text. *)
Definition sample_request : webhook_request :=
  {| wh_hook := "tracks";
     wh_forwarded_for := None;
     wh_user_agent := Some "autocab";
     wh_content_type := Some "text/plain";
     wh_remote_address := "203.0.113.7";
     wh_body := Some (JStr (Json.stringify (booking_payload "54"))) |}.

(** A request on the reserved name [api]. *)
Definition reserved_request : webhook_request :=
  {| wh_hook := "api";
     wh_forwarded_for := None;
     wh_user_agent := None;
     wh_content_type := None;
     wh_remote_address := "203.0.113.7";
     wh_body := None |}.

(** Two ingests into one hook, the earlier one first. *)
Definition sample_ingests : list ingest_request :=
  [ {| req_payload := booking_payload "51"; req_meta := sample_meta;
       req_id := "evt-1"; req_now := "2024-05-01T10:00:00.000Z" |};
    {| req_payload := booking_payload "52"; req_meta := sample_meta;
       req_id := "evt-2"; req_now := "2024-05-01T10:00:01.000Z" |} ].

(** ** Scenarios *)

Module Scenario.

(** One ingest under the default configuration; the new state. *)
Definition ingest (hook : string) (payload : json) (id now : string) (st : state) : state :=
  snd (storeEvent (env := default_env) hook payload sample_meta id now st).

Definition one_booking : state :=
  ingest "tracks" (booking_payload "51") "evt-1" "2024-05-01T10:00:00.000Z" empty_state.

Definition two_bookings : state :=
  ingest "tracks" (booking_payload "52") "evt-2" "2024-05-01T10:00:01.000Z" one_booking.

(** A third booking arrives after the process was restarted on the log of
    the first two. *)
Definition third_after_restart : state :=
  ingest "tracks" (booking_payload "53") "evt-3" "2024-05-01T10:00:02.000Z"
    (restart two_bookings).

(** Two hooks that each received one event at the same instant. *)
Definition tie_a : json :=
  mkEvent "evt-a" "alpha" "2024-05-01T10:00:00.000Z" sample_meta (booking_payload "51").

Definition tie_b : json :=
  mkEvent "evt-b" "beta" "2024-05-01T10:00:00.000Z" sample_meta (booking_payload "52").

Definition two_hooks_tied : state :=
  ingest "beta" (booking_payload "52") "evt-b" "2024-05-01T10:00:00.000Z"
    (ingest "alpha" (booking_payload "51") "evt-a" "2024-05-01T10:00:00.000Z" empty_state).

(** A hook that received one booking, and then the payload whose id does
    not convert to a string. *)
Definition unprintable_booking : state :=
  ingest "tracks" unprintable_payload "evt-2" "2024-05-01T10:00:01.000Z" one_booking.

(** The [id] of each event of a list. *)
Definition ids (events : list json) : list (option json) :=
  map (fun e => Json.get e "id") events.

(** The cache of a hook, if loaded. *)
Definition cached (st : state) (hook : string) : option (list json) :=
  recentByHook st !! hook.

End Scenario.

Module SmallCache.

(** The same bookings under a configuration that keeps two events per
    hook. *)
Definition ingest (hook : string) (payload : json) (id now : string) (st : state) : state :=
  snd (storeEvent (env := small_env 2 2) hook payload sample_meta id now st).

Definition two_bookings : state :=
  ingest "tracks" (booking_payload "52") "evt-2" "2024-05-01T10:00:01.000Z"
    (ingest "tracks" (booking_payload "51") "evt-1" "2024-05-01T10:00:00.000Z" empty_state).

Definition third_after_restart : state :=
  ingest "tracks" (booking_payload "53") "evt-3" "2024-05-01T10:00:02.000Z"
    (restart two_bookings).

Definition third_without_restart : state :=
  ingest "tracks" (booking_payload "53") "evt-3" "2024-05-01T10:00:02.000Z" two_bookings.

End SmallCache.

(** * Properties *)

(** ** Running the model *)

Example trim_ex : trim "  a b
 " = "a b".
Proof. reflexivity. Qed.

Example split_ex :
  split "." "payload..Driver." = ["payload"; EmptyString; "Driver"; EmptyString].
Proof. reflexivity. Qed.

Example includes_ex : includes "abcde" "cd" = true /\ includes "abcde" "ce" = false.
Proof. split; reflexivity. Qed.

Example stringify_ex :
  Json.stringify (JObj [("a", JArr [JNum 1; JNull; JBool true]); ("b", JStr "x")])
  = "{" +:+ Json.quote "a" +:+ ":[1,null,true]," +:+ Json.quote "b" +:+ ":"
    +:+ Json.quote "x" +:+ "}".
Proof. reflexivity. Qed.

Example escape_ex :
  Json.escape (String "010" (String Json.dquote (String "001" "z")))
  = String Json.backslash "n" +:+ String Json.backslash (String Json.dquote EmptyString)
    +:+ String Json.backslash "u0001z".
Proof. reflexivity. Qed.

Example tokenize_demo :
  tokenizeQuery "  callsign:51   'two words'  x" = ["callsign:51"; "'two words'"; "x"].
Proof. reflexivity. Qed.

Example parseTokens_demo :
  parseTokens "Callsign:51 'Booking Created' x:" =
  {| fieldTokens := [("callsign", "51")]; textTokens := ["booking created"; "x:"] |}.
Proof. reflexivity. Qed.

Example one_booking_cached :
  Scenario.cached Scenario.one_booking "tracks" = Some [booking_event].
Proof. vm_compute. reflexivity. Qed.

Example two_hooks_tied_cached :
  Scenario.cached Scenario.two_hooks_tied "alpha" = Some [Scenario.tie_a] /\
  Scenario.cached Scenario.two_hooks_tied "beta" = Some [Scenario.tie_b].
Proof. split; vm_compute; reflexivity. Qed.

(** ** Tabular escaping *)

Lemma is_csv_special_spec c : is_csv_special c = true <-> csv_special c.
Proof.
  unfold is_csv_special, csv_special, code.
  rewrite !orb_true_iff, !Nat.eqb_eq.
  assert (Hinj : forall n, n < 256 -> nat_of_ascii c = n <-> c = ascii_of_nat n).
  { intros n Hn. split.
    - intros <-. symmetry. apply ascii_nat_embedding.
    - intros ->. apply nat_ascii_embedding. exact Hn. }
  rewrite (Hinj 34), (Hinj 44), (Hinj 10), (Hinj 13) by lia.
  change (ascii_of_nat 34) with Json.dquote.
  change (ascii_of_nat 44) with ","%char.
  change (ascii_of_nat 10) with "010"%char.
  change (ascii_of_nat 13) with "013"%char.
  tauto.
Qed.

Lemma has_char_spec p s :
  has_char p s = true <-> exists c, occurs c s /\ p c = true.
Proof.
  induction s as [|a s IH]; simpl.
  - split; [discriminate | intros (c & [] & _)].
  - rewrite orb_true_iff, IH. split.
    + intros [Ha | (c & Hc & Hp)]; [exists a | exists c]; auto.
    + intros (c & [-> | Hc] & Hp); [left | right; exists c]; auto.
Qed.

Lemma csv_unquote_double_quotes s :
  csv_unquote (double_quotes s +:+ String Json.dquote EmptyString) = s.
Proof.
  induction s as [|c s IH]; [reflexivity|].
  simpl double_quotes. destruct (Ascii.eqb c Json.dquote) eqn:E.
  - apply Ascii.eqb_eq in E. subst c. simpl. rewrite IH. reflexivity.
  - simpl. rewrite E, IH. reflexivity.
Qed.

Lemma has_char_false_head p c s : has_char p (String c s) = false -> p c = false.
Proof. simpl. intros Hf. apply orb_false_iff in Hf. tauto. Qed.

(** C8. [csvEscape] wraps a string value in double quotes, doubling each
    embedded double quote, exactly when the value contains a comma, a
    double quote or a line break, and returns it unchanged otherwise;
    standard CSV unescaping of the result gives the value back, whatever
    the value contains. *)
Theorem csvEscape_quote_doubling_law (s : string) :
  ((exists c, occurs c s /\ csv_special c) ->
   csvEscape (Some s)
   = String Json.dquote (double_quotes s +:+ String Json.dquote EmptyString)) /\
  ((forall c, occurs c s -> ~ csv_special c) -> csvEscape (Some s) = s) /\
  csvUnescape (csvEscape (Some s)) = s.
Proof.
  unfold csvEscape.
  destruct (has_char is_csv_special s) eqn:Hs.
  - split; [reflexivity | split].
    + intros Hnone. apply has_char_spec in Hs as (c & Hc & Hp).
      apply is_csv_special_spec in Hp. destruct (Hnone c Hc Hp).
    + simpl. apply csv_unquote_double_quotes.
  - split; [| split; [reflexivity |]].
    + intros (c & Hc & Hp). apply is_csv_special_spec in Hp.
      assert (has_char is_csv_special s = true) as Ht
        by (apply has_char_spec; exists c; auto).
      congruence.
    + destruct s as [|c s]; [reflexivity|]. simpl.
      apply has_char_false_head in Hs.
      destruct (Ascii.eqb c Json.dquote) eqn:E; [| reflexivity].
      apply Ascii.eqb_eq in E. subst c. discriminate.
Qed.

(** The value of the escaping-law test of the specification: a comma, a
    double quote and a line feed in one field. *)
Example csvEscape_roundtrip_example :
  let v := "a,b" +:+ String Json.dquote ("c" +:+ String "010"%char "d") in
  csvEscape (Some v)
  = String Json.dquote ("a,b" +:+ String Json.dquote (String Json.dquote
      ("c" +:+ String "010"%char ("d" +:+ String Json.dquote EmptyString))))
  /\ csvUnescape (csvEscape (Some v)) = v.
Proof. split; reflexivity. Qed.

(** ** The combined matcher *)

Lemma forallb_true_Forall {A} (f : A -> bool) (l : list A) :
  forallb f l = true <-> Forall (fun x => f x = true) l.
Proof.
  induction l as [|x l IH]; simpl.
  - split; [constructor | reflexivity].
  - rewrite andb_true_iff, IH. split.
    + intros [Hx Hl]. constructor; assumption.
    + intros Hall. inversion Hall; subst. split; assumption.
Qed.

Lemma nonempty_false s : nonempty s = false -> s = EmptyString.
Proof. destruct s; [reflexivity | discriminate]. Qed.

Lemma tokenizeQuery_empty : tokenizeQuery EmptyString = [].
Proof. reflexivity. Qed.

Lemma parseTokens_empty :
  parseTokens EmptyString = {| fieldTokens := []; textTokens := [] |}.
Proof. reflexivity. Qed.

Lemma advanced_rest_spec evt q :
  (let qq := normalizeQ (Some q) in
   if negb (nonempty qq) then true
   else
     let ts := parseTokens qq in
     forallb (fun ft => eventMatchesFieldToken evt (fst ft) (snd ft)) (fieldTokens ts)
     && forallb (fun txt => eventMatchesTextToken evt txt) (textTokens ts)) = true
  <-> advanced_accepts evt q.
Proof.
  unfold advanced_accepts. cbv zeta.
  destruct (nonempty (normalizeQ (Some q))) eqn:Hq; simpl negb; cbv iota.
  - rewrite andb_true_iff, !forallb_true_Forall. reflexivity.
  - apply nonempty_false in Hq. rewrite Hq, parseTokens_empty. simpl.
    split; [intros _; split; constructor | reflexivity].
Qed.

(** An absent or blank advanced query accepts every event. *)
Lemma advanced_accepts_blank evt q :
  normalizeQ (Some q) = EmptyString -> advanced_accepts evt q.
Proof.
  intros Hq. unfold advanced_accepts. rewrite Hq, parseTokens_empty. simpl.
  split; constructor.
Qed.

Lemma eventMatches_accepts_iff `{env : Env} (evt : json) (q field value : string) :
  eventMatches evt q field value = Ok true <->
  (selected_present value = true ->
   eventMatchesSelectedField evt field value = Ok true) /\
  advanced_accepts evt q.
Proof.
  pose proof (advanced_rest_spec evt q) as Hrest.
  unfold eventMatches, selected_present in *. cbv zeta in *.
  set (rest := if negb (nonempty (normalizeQ (Some q))) then true else _) in *.
  destruct (nonempty value && nonempty (trim value)).
  - destruct (eventMatchesSelectedField evt field value) as [[|]|].
    + split.
      * intros [= Hr]. split; [reflexivity | apply Hrest; exact Hr].
      * intros [_ Hadv]. f_equal. apply Hrest. exact Hadv.
    + split; [discriminate | intros [Hsel _]; specialize (Hsel eq_refl); discriminate].
    + split; [discriminate | intros [Hsel _]; specialize (Hsel eq_refl); discriminate].
  - split.
    + intros [= Hr]. split; [discriminate | apply Hrest; exact Hr].
    + intros [_ Hadv]. f_equal. apply Hrest. exact Hadv.
Qed.

Lemma eventMatches_absent_filters `{env : Env} (evt : json) (q field value : string) :
  selected_present value = false -> normalizeQ (Some q) = EmptyString ->
  eventMatches evt q field value = Ok true.
Proof.
  intros Hsel Hq. apply eventMatches_accepts_iff. split.
  - rewrite Hsel. discriminate.
  - apply advanced_accepts_blank. exact Hq.
Qed.

(** C6. The combined matcher accepts an event exactly when the event
    passes the selected-field filter, if one is present, and every field
    token and every text token of the advanced query matches; a filter
    that is absent imposes nothing, and neither does an absent or blank
    query. *)
Theorem eventMatches_conjunctive `{env : Env} (evt : json) (q field value : string) :
  (eventMatches evt q field value = Ok true <->
     (selected_present value = true ->
      eventMatchesSelectedField evt field value = Ok true) /\
     advanced_accepts evt q) /\
  (selected_present value = false -> normalizeQ (Some q) = EmptyString ->
   eventMatches evt q field value = Ok true).
Proof.
  split.
  - apply eventMatches_accepts_iff.
  - apply eventMatches_absent_filters.
Qed.

(** ** Deep key search *)

Lemma nodes_pushed key value :
  nodes key value = (key, value) :: flat_map frame_nodes (pushed value key).
Proof.
  destruct value; try reflexivity; simpl; f_equal.
  - induction items as [|x items IH]; [reflexivity|]. simpl. rewrite IH. reflexivity.
  - induction props as [|kv props IH]; [reflexivity|]. simpl. rewrite IH. reflexivity.
Qed.

Lemma existsb_flat_map_rev {A B} (p : B -> bool) (g : A -> list B) (l : list A) :
  existsb p (flat_map g (rev l)) = existsb p (flat_map g l).
Proof.
  induction l as [|x l IH]; [reflexivity|].
  simpl. rewrite flat_map_app, !existsb_app, IH. simpl.
  rewrite app_nil_r. apply orb_comm.
Qed.

(** The loop answers whether some visited entry satisfies the predicate;
    in particular it returns for every stack. *)
Lemma deepAny_loop_spec (predicate' : option string -> json -> bool) (stack : list frame) :
  deepAny_loop predicate' stack
  = existsb (fun e => predicate' (fst e) (snd e)) (flat_map frame_nodes stack).
Proof.
  funelim (deepAny_loop predicate' stack).
  - reflexivity.
  - simpl flat_map. unfold frame_nodes at 1. simpl fst; simpl snd.
    rewrite nodes_pushed. simpl existsb.
    destruct (predicate' key value) eqn:Hp; [reflexivity|].
    simpl.
    match goal with IH : deepAny_loop _ _ = existsb _ _ |- _ => rewrite IH end.
    rewrite flat_map_app, !existsb_app, existsb_flat_map_rev. reflexivity.
Qed.

Lemma deepAny_spec obj predicate' :
  deepAny obj predicate'
  = existsb (fun e => predicate' (fst e) (snd e)) (nodes None obj).
Proof.
  unfold deepAny. rewrite deepAny_loop_spec. simpl. rewrite app_nil_r. reflexivity.
Qed.

Lemma In_nodes (k : string) (v x : json) : forall key0,
  In (Some k, v) (nodes key0 x) <->
  (key0 = Some k /\ In v (array_elements x)) \/
  (exists pv, In (k, pv) (properties x) /\ In v (array_elements pv)).
Proof.
  induction x as [| b | z | s | items IH | props IH] using Json.json_ind';
    intros key0.
  1-4: simpl; split;
    [ intros [[= -> ->] | []]; left; split; [reflexivity | left; reflexivity]
    | intros [[-> [<- | []]] | (pv & [] & _)]; left; reflexivity ].
  - cbn [nodes array_elements properties In].
    split.
    + intros [[= -> ->] | Hin].
      * left. split; [reflexivity | left; reflexivity].
      * apply in_flat_map in Hin as (i & Hi & Hin).
        rewrite List.Forall_forall in IH. apply (IH i Hi) in Hin.
        destruct Hin as [[-> Hv] | (pv & Hp & Hv)].
        -- left. split; [reflexivity|]. right. apply in_flat_map.
           exists i. split; assumption.
        -- right. exists pv. split; [| exact Hv]. apply in_flat_map.
           exists i. split; assumption.
    + rewrite List.Forall_forall in IH.
      intros [[-> [<- | Hv]] | (pv & Hp & Hv)].
      * left. reflexivity.
      * apply in_flat_map in Hv as (i & Hi & Hv).
        right. apply in_flat_map. exists i. split; [exact Hi|].
        apply (IH i Hi). left. split; [reflexivity | exact Hv].
      * apply in_flat_map in Hp as (i & Hi & Hp).
        right. apply in_flat_map. exists i. split; [exact Hi|].
        apply (IH i Hi). right. exists pv. split; assumption.
  - cbn [nodes array_elements properties In].
    rewrite List.Forall_forall in IH. split.
    + intros [[= -> ->] | Hin].
      * left. split; [reflexivity | left; reflexivity].
      * apply in_flat_map in Hin as (kv & Hkv & Hin).
        apply (IH kv Hkv) in Hin. right.
        destruct Hin as [[[= <-] Hv] | (pv & Hp & Hv)].
        -- exists (snd kv). split; [| exact Hv].
           apply in_flat_map. exists kv. split; [exact Hkv | left; reflexivity].
        -- exists pv. split; [| exact Hv].
           apply in_flat_map. exists kv. split; [exact Hkv | right; exact Hp].
    + intros [[-> [<- | []]] | (pv & Hp & Hv)]; [left; reflexivity|].
      apply in_flat_map in Hp as (kv & Hkv & [[= <- <-] | Hp]).
      * right. apply in_flat_map. exists kv. split; [exact Hkv|].
        apply (IH kv Hkv). left. split; [reflexivity | exact Hv].
      * right. apply in_flat_map. exists kv. split; [exact Hkv|].
        apply (IH kv Hkv). right. exists pv. split; assumption.
Qed.

Lemma property_match_weaker evt key value :
  property_match evt key value -> property_or_element_match evt key value.
Proof.
  intros (k & pv & Hin & Hk & Hv). exists k, pv, pv.
  repeat split; try assumption. destruct pv; left; reflexivity.
Qed.

Lemma toLowerCase_nonempty s : nonempty (toLowerCase s) = nonempty s.
Proof. destruct s; reflexivity. Qed.

Lemma eventMatchesFieldToken_spec evt key value :
  key <> EmptyString -> toLowerCase key = key -> toLowerCase value = value ->
  eventMatchesFieldToken evt key value = true <-> property_or_element_match evt key value.
Proof.
  intros Hne Hkey Hvalue.
  unfold eventMatchesFieldToken, property_or_element_match.
  rewrite deepAny_spec, existsb_exists, Hkey, Hvalue. split.
  - intros ([[f|] v] & Hin & Hp); simpl in Hp; [| discriminate].
    destruct (nonempty f) eqn:Hf; simpl in Hp; [| discriminate].
    destruct (String.eqb (toLowerCase f) key) eqn:Hk; simpl in Hp; [| discriminate].
    apply String.eqb_eq in Hk.
    apply In_nodes in Hin as [[[=] _] | (pv & Hprop & Hv)].
    exists f, pv, v. repeat split; assumption.
  - intros (k & pv & v & Hprop & Hv & Hk & Hinc).
    exists (Some k, v). split.
    + apply In_nodes. right. exists pv. split; assumption.
    + simpl. assert (nonempty k = true) as ->.
      { rewrite <- toLowerCase_nonempty, Hk. destruct key; [congruence | reflexivity]. }
      simpl. rewrite Hk, String.eqb_refl. simpl. exact Hinc.
Qed.

(** C5 (as amended). A field token with a non-empty lower-cased key and a
    lower-cased value matches an event exactly when some object property of
    the event, at any depth, has that key ignoring case and the token's
    value occurs, ignoring case, in the stringified form of the property's
    value or of an element reached from that value through arrays; a
    property whose own stringified value contains the token's value is
    therefore always found, and the nested [Driver.Callsign] of the sample
    event matches the token [callsign:51]. *)
Theorem eventMatchesFieldToken_deep_key_search (evt : json) (key value : string) :
  key <> EmptyString -> toLowerCase key = key -> toLowerCase value = value ->
  (eventMatchesFieldToken evt key value = true <-> property_or_element_match evt key value) /\
  (property_match evt key value -> eventMatchesFieldToken evt key value = true) /\
  eventMatchesFieldToken booking_event "callsign" "51" = true.
Proof.
  intros Hne Hkey Hvalue.
  pose proof (eventMatchesFieldToken_spec evt key value Hne Hkey Hvalue) as Hspec.
  split; [exact Hspec | split; [| reflexivity]].
  intros Hm. apply Hspec. apply property_match_weaker. exact Hm.
Qed.

Lemma eventMatchesFieldToken_deep_key_search_witness :
  "callsign" <> EmptyString /\
  toLowerCase "callsign" = "callsign" /\ toLowerCase "51" = "51" /\
  (eventMatchesFieldToken booking_event "callsign" "51" = true <->
   property_or_element_match booking_event "callsign" "51").
Proof.
  split; [discriminate | split; [reflexivity | split; [reflexivity |]]].
  apply (eventMatchesFieldToken_deep_key_search booking_event "callsign" "51");
    [discriminate | reflexivity | reflexivity].
Defined.

(** C5 (as stated) fails: the token [tags:] followed by a, double quote, b
    matches [tagged_event], through the array element that is visited under
    the key of its array, although no object property with that key has a
    stringified value containing the token's value (the array is rendered
    with the quote escaped). *)
Lemma field_token_array_element_counterexample :
  fieldTokens (parseTokens ("tags:" +:+ quoted_tag)) = [("tags", quoted_tag)] /\
  eventMatchesFieldToken tagged_event "tags" quoted_tag = true /\
  ~ property_match tagged_event "tags" quoted_tag.
Proof.
  split; [reflexivity | split; [reflexivity|]].
  intros (k & pv & Hin & Hk & Hinc).
  simpl in Hin.
  repeat (destruct Hin as [Hin | Hin];
          [ injection Hin as <- <-; vm_compute in Hk; vm_compute in Hinc;
            first [discriminate Hk | discriminate Hinc] | ]).
  destruct Hin.
Qed.

(** ** Sorting *)

Lemma ascii_compare_cases x y :
  (Ascii.compare x y = Eq /\ x = y) \/
  (Ascii.compare x y = Lt /\ (N_of_ascii x < N_of_ascii y)%N) \/
  (Ascii.compare x y = Gt /\ (N_of_ascii y < N_of_ascii x)%N).
Proof.
  unfold Ascii.compare.
  destruct (N.compare_spec (N_of_ascii x) (N_of_ascii y)) as [He | Hl | Hg].
  - left. split; [reflexivity|].
    rewrite <- (ascii_N_embedding x), <- (ascii_N_embedding y), He. reflexivity.
  - right; left. split; [reflexivity | exact Hl].
  - right; right. split; [reflexivity | exact Hg].
Qed.

Lemma string_compare_refl a : String.compare a a = Eq.
Proof.
  induction a as [|x a IH]; [reflexivity|]. simpl.
  destruct (ascii_compare_cases x x) as [[-> _] | [[_ Hlt] | [_ Hlt]]];
    [exact IH | lia | lia].
Qed.

Lemma string_compare_ge_trans a : forall b c,
  String.compare a b <> Lt -> String.compare b c <> Lt -> String.compare a c <> Lt.
Proof.
  induction a as [|x a IH]; intros [|y b] [|z c]; simpl; try congruence.
  destruct (ascii_compare_cases x y) as [[Exy Hxy] | [[Exy Hxy] | [Exy Hxy]]];
    destruct (ascii_compare_cases y z) as [[Eyz Hyz] | [[Eyz Hyz] | [Eyz Hyz]]];
    destruct (ascii_compare_cases x z) as [[Exz Hxz] | [[Exz Hxz] | [Exz Hxz]]];
    rewrite Exy, Eyz, Exz; try congruence; subst; try lia; try apply IH.
Qed.

Lemma string_ltb_irrefl a : String.ltb a a = false.
Proof. unfold String.ltb. rewrite string_compare_refl. reflexivity. Qed.

Lemma string_ltb_false_iff a b : String.ltb a b = false <-> String.compare a b <> Lt.
Proof. unfold String.ltb. destruct (String.compare a b); split; congruence. Qed.

Lemma string_ltb_asym a b : String.ltb a b = true -> String.ltb b a = false.
Proof.
  unfold String.ltb. rewrite (String.compare_antisym b a).
  destruct (String.compare a b); simpl; congruence.
Qed.

Section SortFacts.
Context {A : Type} (compareFn : A -> A -> Z).

Local Abbreviation ord := (in_order compareFn).

Lemma stable_sort_length arr : length (stable_sort compareFn arr) = length arr.
Proof. apply Permutation_length, stable_sort_perm. Qed.

(** Stability: the elements of a class that the comparator never asks to
    reorder keep their relative order. *)
Lemma insert_sorted_filter (P : A -> bool) x arr :
  (forall y, In y arr -> P x = true -> P y = true -> ord x y) ->
  List.filter P (insert_sorted compareFn x arr) = List.filter P (x :: arr).
Proof.
  intros Hclass. induction arr as [|y arr IH]; [reflexivity|].
  simpl insert_sorted. destruct (0 <? compareFn x y)%Z eqn:Hcmp; [| reflexivity].
  cbn [List.filter] in *. rewrite IH by (intros z Hz; apply Hclass; right; exact Hz).
  destruct (P x) eqn:Hx, (P y) eqn:Hy; try reflexivity.
  specialize (Hclass y (or_introl eq_refl) eq_refl Hy). unfold in_order in Hclass. congruence.
Qed.

Lemma stable_sort_stable (P : A -> bool) arr :
  (forall x y, In x arr -> In y arr -> P x = true -> P y = true -> ord x y) ->
  List.filter P (stable_sort compareFn arr) = List.filter P arr.
Proof.
  intros Hclass. induction arr as [|x arr IH]; [reflexivity|].
  simpl stable_sort. rewrite insert_sorted_filter.
  - simpl. rewrite IH; [reflexivity|].
    intros a b Ha Hb. apply Hclass; right; assumption.
  - intros y Hy. apply Hclass; [left; reflexivity|].
    right. eapply Permutation_in; [apply stable_sort_perm | exact Hy].
Qed.

(** Sortedness, for elements on which the comparator is a total
    preorder. *)
Variable D : A -> Prop.
Hypothesis Htrans : forall a b c, D a -> D b -> D c ->
  ord a b -> ord b c -> ord a c.
Hypothesis Htotal : forall a b, D a -> D b -> ~ ord a b -> ord b a.

Lemma insert_sorted_sorted x arr :
  D x -> Forall D arr -> StronglySorted ord arr ->
  StronglySorted ord (insert_sorted compareFn x arr).
Proof.
  intros Hx HD Hs. induction Hs as [|y arr Hs IH Hy]; simpl.
  - constructor; constructor.
  - inversion HD as [|? ? Dy Darr]; subst.
    destruct (0 <? compareFn x y)%Z eqn:Hcmp.
    + constructor; [apply IH; exact Darr|].
      eapply Permutation_Forall.
      * symmetry. apply insert_sorted_perm.
      * constructor; [| exact Hy].
        apply Htotal; [exact Hx | exact Dy |]. unfold in_order. congruence.
    + constructor; [constructor; assumption|].
      constructor; [exact Hcmp|].
      rewrite List.Forall_forall in *. intros z Hz.
      apply (Htrans x y z); [exact Hx | exact Dy | apply Darr; exact Hz
                            | exact Hcmp | apply Hy; exact Hz].
Qed.

Lemma stable_sort_sorted arr :
  Forall D arr -> StronglySorted ord (stable_sort compareFn arr).
Proof.
  induction 1 as [|x arr Hx HD IH]; simpl; [constructor|].
  apply insert_sorted_sorted; [exact Hx | | exact IH].
  eapply Permutation_Forall; [symmetry; apply stable_sort_perm | exact HD].
Qed.

End SortFacts.

(** *** Consistent comparators *)

Section ConsistentFacts.
Context {A : Type} (compareFn : A -> A -> Z) (arr : list A).
Hypothesis Hc : consistent compareFn arr.

Lemma consistent_before_after a b :
  In a arr -> In b arr -> (compareFn a b < 0)%Z -> (0 < compareFn b a)%Z.
Proof.
  destruct Hc as (Hrefl & Hsym & _ & Hlt & _). intros Ha Hb Hab.
  destruct (Z.lt_trichotomy (compareFn b a) 0) as [Hba | [Hba | Hba]]; [| | exact Hba].
  - pose proof (Hlt a b a Ha Hb Ha Hab Hba) as Haa. rewrite (Hrefl a Ha) in Haa. lia.
  - pose proof (Hsym b a Hb Ha Hba). lia.
Qed.

Lemma consistent_after_before a b :
  In a arr -> In b arr -> (0 < compareFn a b)%Z -> (compareFn b a < 0)%Z.
Proof.
  destruct Hc as (Hrefl & Hsym & _ & _ & Hgt). intros Ha Hb Hab.
  destruct (Z.lt_trichotomy (compareFn b a) 0) as [Hba | [Hba | Hba]]; [exact Hba | |].
  - pose proof (Hsym b a Hb Ha Hba). lia.
  - pose proof (Hgt a b a Ha Hb Ha Hab Hba) as Haa. rewrite (Hrefl a Ha) in Haa. lia.
Qed.

Lemma consistent_trans a b c :
  In a arr -> In b arr -> In c arr ->
  in_order compareFn a b -> in_order compareFn b c -> in_order compareFn a c.
Proof.
  unfold in_order. rewrite !Z.ltb_ge. intros Ha Hb Hc' Hab Hbc.
  destruct (Z.lt_trichotomy (compareFn a c) 0) as [Hac | [Hac | Hac]]; [lia | lia |].
  exfalso.
  pose proof (consistent_after_before a c Ha Hc' Hac) as Hca.
  destruct Hc as (Hrefl & Hsym & Heq & Hlt & Hgt).
  assert (Hab' : (compareFn a b < 0)%Z \/ compareFn a b = 0%Z) by lia.
  assert (Hbc' : (compareFn b c < 0)%Z \/ compareFn b c = 0%Z) by lia.
  destruct Hab' as [Hab' | Hab'], Hbc' as [Hbc' | Hbc'].
  - pose proof (Hlt a b c Ha Hb Hc' Hab' Hbc'). lia.
  - pose proof (Hlt c a b Hc' Ha Hb Hca Hab') as Hcb.
    pose proof (Hsym b c Hb Hc' Hbc'). lia.
  - pose proof (Hlt b c a Hb Hc' Ha Hbc' Hca) as Hba.
    pose proof (Hsym a b Ha Hb Hab'). lia.
  - pose proof (Heq a b c Ha Hb Hc' Hab' Hbc'). lia.
Qed.

Lemma consistent_total a b :
  In a arr -> In b arr -> ~ in_order compareFn a b -> in_order compareFn b a.
Proof.
  unfold in_order. rewrite !Z.ltb_ge. intros Ha Hb Hab.
  pose proof (consistent_after_before a b Ha Hb). lia.
Qed.

(** The stable arrangement by a consistent comparator is sorted. *)
Lemma stable_sort_consistent_sorted :
  StronglySorted (in_order compareFn) (stable_sort compareFn arr).
Proof.
  apply (stable_sort_sorted compareFn (fun a => In a arr)).
  - apply consistent_trans.
  - apply consistent_total.
  - apply List.Forall_forall. trivial.
Qed.

End ConsistentFacts.

Lemma consistent_sublist {A} (compareFn : A -> A -> Z) (arr arr' : list A) :
  (forall a, In a arr' -> In a arr) -> consistent compareFn arr -> consistent compareFn arr'.
Proof.
  intros Hsub (Hrefl & Hsym & Heq & Hlt & Hgt). unfold consistent.
  repeat (match goal with |- _ /\ _ => split end).
  - intros a Ha. apply Hrefl, Hsub, Ha.
  - intros a b Ha Hb. apply Hsym; apply Hsub; assumption.
  - intros a b c Ha Hb Hc. apply Heq; apply Hsub; assumption.
  - intros a b c Ha Hb Hc. apply Hlt; apply Hsub; assumption.
  - intros a b c Ha Hb Hc. apply Hgt; apply Hsub; assumption.
Qed.

(** *** The sort of the engine *)

Section EngineSort.
Context `{env : Env} {A : Type} (compareFn : A -> A -> Z).

Lemma sort_perm arr : Permutation (sort compareFn arr) arr.
Proof. apply sort_rearranges. Qed.

Lemma sort_length arr : length (sort compareFn arr) = length arr.
Proof. apply Permutation_length, sort_perm. Qed.

Lemma sort_nil : sort compareFn [] = [].
Proof. apply Permutation_nil. symmetry. apply sort_perm. Qed.

Lemma sort_sorted arr :
  consistent compareFn arr -> StronglySorted (in_order compareFn) (sort compareFn arr).
Proof.
  intros Hc. rewrite (sort_of_consistent A compareFn arr Hc).
  apply stable_sort_consistent_sorted. exact Hc.
Qed.

Lemma sort_stable (P : A -> bool) arr :
  consistent compareFn arr ->
  (forall x y, In x arr -> In y arr -> P x = true -> P y = true ->
     in_order compareFn x y) ->
  List.filter P (sort compareFn arr) = List.filter P arr.
Proof.
  intros Hc Hclass. rewrite (sort_of_consistent A compareFn arr Hc).
  apply stable_sort_stable. exact Hclass.
Qed.

End EngineSort.

(** ** Ordering of events *)

Lemma in_order_not_older a b : in_order byReceivedAtDesc a b <-> not_older a b.
Proof.
  unfold in_order, not_older, byReceivedAtDesc.
  destruct (js_lt (receivedAt a) (receivedAt b)); [split; discriminate|].
  destruct (js_lt (receivedAt b) (receivedAt a)); split; reflexivity.
Qed.

Lemma not_older_trans a b c :
  timestamped a -> timestamped b -> timestamped c ->
  not_older a b -> not_older b c -> not_older a c.
Proof.
  intros (ta & Ha) (tb & Hb) (tc & Hc). unfold not_older.
  rewrite Ha, Hb, Hc. simpl. rewrite !string_ltb_false_iff.
  apply string_compare_ge_trans.
Qed.

Lemma not_older_total a b :
  timestamped a -> timestamped b -> ~ not_older a b -> not_older b a.
Proof.
  intros (ta & Ha) (tb & Hb). unfold not_older. rewrite Ha, Hb. simpl.
  intros Hn. apply string_ltb_asym. destruct (String.ltb ta tb); congruence.
Qed.

(** On events with string time stamps the comparator is the order of the
    stamps, reversed. *)
Lemma byReceivedAtDesc_stamps a b ta tb :
  receivedAt a = Some (JStr ta) -> receivedAt b = Some (JStr tb) ->
  byReceivedAtDesc a b
  = match String.compare ta tb with
    | Lt => 1%Z
    | Eq => 0%Z
    | Gt => (-1)%Z
    end.
Proof.
  intros Ha Hb. unfold byReceivedAtDesc. rewrite Ha, Hb. simpl. unfold String.ltb.
  rewrite (String.compare_antisym ta tb).
  destruct (String.compare tb ta); reflexivity.
Qed.

Lemma string_compare_lt_trans a b c :
  String.compare a b = Lt -> String.compare b c = Lt -> String.compare a c = Lt.
Proof.
  intros Hab Hbc. destruct (String.compare a c) eqn:Hac; [| reflexivity |].
  - apply String.compare_eq_iff in Hac. subst c.
    rewrite (String.compare_antisym b a), Hab in Hbc. discriminate.
  - exfalso. apply (string_compare_ge_trans a c b); [congruence | | exact Hab].
    rewrite (String.compare_antisym c b), Hbc. discriminate.
Qed.

Lemma string_compare_gt_trans a b c :
  String.compare a b = Gt -> String.compare b c = Gt -> String.compare a c = Gt.
Proof.
  intros Hab Hbc.
  assert (Hba : String.compare b a = Lt)
    by (rewrite (String.compare_antisym b a), Hab; reflexivity).
  assert (Hcb : String.compare c b = Lt)
    by (rewrite (String.compare_antisym c b), Hbc; reflexivity).
  rewrite (String.compare_antisym a c), (string_compare_lt_trans c b a Hcb Hba).
  reflexivity.
Qed.

(** The comparator of the handlers is consistent on events that carry
    string time stamps. *)
Lemma byReceivedAtDesc_consistent arr :
  Forall timestamped arr -> consistent byReceivedAtDesc arr.
Proof.
  intros Hts. rewrite List.Forall_forall in Hts. unfold consistent.
  repeat (match goal with |- _ /\ _ => split end).
  - intros a Ha. destruct (Hts a Ha) as (ta & Hta).
    rewrite (byReceivedAtDesc_stamps a a ta ta Hta Hta), string_compare_refl. reflexivity.
  - intros a b Ha Hb. destruct (Hts a Ha) as (ta & Hta), (Hts b Hb) as (tb & Htb).
    rewrite (byReceivedAtDesc_stamps a b ta tb Hta Htb),
            (byReceivedAtDesc_stamps b a tb ta Htb Hta), (String.compare_antisym tb ta).
    destruct (String.compare ta tb); simpl; congruence.
  - intros a b c Ha Hb Hc.
    destruct (Hts a Ha) as (ta & Hta), (Hts b Hb) as (tb & Htb), (Hts c Hc) as (tc & Htc).
    rewrite (byReceivedAtDesc_stamps a b ta tb Hta Htb),
            (byReceivedAtDesc_stamps b c tb tc Htb Htc),
            (byReceivedAtDesc_stamps a c ta tc Hta Htc).
    destruct (String.compare ta tb) eqn:Hab; try discriminate.
    destruct (String.compare tb tc) eqn:Hbc; try discriminate.
    apply String.compare_eq_iff in Hab, Hbc. subst. rewrite string_compare_refl. reflexivity.
  - intros a b c Ha Hb Hc.
    destruct (Hts a Ha) as (ta & Hta), (Hts b Hb) as (tb & Htb), (Hts c Hc) as (tc & Htc).
    rewrite (byReceivedAtDesc_stamps a b ta tb Hta Htb),
            (byReceivedAtDesc_stamps b c tb tc Htb Htc),
            (byReceivedAtDesc_stamps a c ta tc Hta Htc).
    destruct (String.compare ta tb) eqn:Hab; try lia.
    destruct (String.compare tb tc) eqn:Hbc; try lia.
    rewrite (string_compare_gt_trans ta tb tc Hab Hbc). lia.
  - intros a b c Ha Hb Hc.
    destruct (Hts a Ha) as (ta & Hta), (Hts b Hb) as (tb & Htb), (Hts c Hc) as (tc & Htc).
    rewrite (byReceivedAtDesc_stamps a b ta tb Hta Htb),
            (byReceivedAtDesc_stamps b c tb tc Htb Htc),
            (byReceivedAtDesc_stamps a c ta tc Hta Htc).
    destruct (String.compare ta tb) eqn:Hab; try lia.
    destruct (String.compare tb tc) eqn:Hbc; try lia.
    rewrite (string_compare_lt_trans ta tb tc Hab Hbc). lia.
Qed.

(** Sorting by [byReceivedAtDesc] puts time-stamped events most recent
    first. *)
Lemma sort_byReceivedAtDesc_sorted `{env : Env} arr :
  Forall timestamped arr -> StronglySorted not_older (sort byReceivedAtDesc arr).
Proof.
  intros HD.
  pose proof (sort_sorted byReceivedAtDesc arr (byReceivedAtDesc_consistent arr HD)) as Hs.
  induction Hs as [|x l Hs IH Hx]; constructor; [exact IH|].
  eapply List.Forall_impl; [| exact Hx]. intros y. apply in_order_not_older.
Qed.

(** Time-stamped events with equal time stamps keep the order they had
    before the sort. *)
Lemma sort_byReceivedAtDesc_stable `{env : Env} t arr :
  Forall timestamped arr ->
  List.filter (received_at t) (sort byReceivedAtDesc arr) = List.filter (received_at t) arr.
Proof.
  intros HD. apply sort_stable; [apply byReceivedAtDesc_consistent; exact HD|].
  intros x y _ _ Hx Hy. apply in_order_not_older.
  unfold received_at, not_older in *.
  destruct (receivedAt x) as [[| | | tx | |]|]; try discriminate.
  destruct (receivedAt y) as [[| | | ty | |]|]; try discriminate.
  apply String.eqb_eq in Hx, Hy. subst. simpl. apply string_ltb_irrefl.
Qed.

(** ** The store *)

Section StoreFacts.
Context `{env : Env}.

Lemma same_view_refl st : same_view st st.
Proof. split; reflexivity. Qed.

Lemma same_view_trans st1 st2 st3 :
  same_view st1 st2 -> same_view st2 st3 -> same_view st1 st3.
Proof.
  intros [Hf1 Hv1] [Hf2 Hv2]. split; [congruence|].
  intros h. rewrite Hv2. apply Hv1.
Qed.

Lemma loadHook_files hook st st' : files st' = files st -> loadHook hook st' = loadHook hook st.
Proof. intros Hf. unfold loadHook. rewrite Hf. reflexivity. Qed.

Lemma ensureHookLoaded_fst hook st : fst (ensureHookLoaded hook st) = cache_view st hook.
Proof. unfold ensureHookLoaded, cache_view. destruct (recentByHook st !! hook); reflexivity. Qed.

Lemma ensureHookLoaded_cached hook st :
  recentByHook (snd (ensureHookLoaded hook st)) !! hook = Some (cache_view st hook).
Proof.
  unfold ensureHookLoaded, cache_view.
  destruct (recentByHook st !! hook) eqn:E; simpl; [exact E|].
  apply lookup_insert_eq.
Qed.

Lemma ensureHookLoaded_same_view hook st : same_view st (snd (ensureHookLoaded hook st)).
Proof.
  unfold ensureHookLoaded.
  destruct (recentByHook st !! hook) eqn:E; simpl; [apply same_view_refl|].
  split; [reflexivity|]. intros h. unfold cache_view. simpl.
  destruct (decide (hook = h)) as [<- | Hne].
  - rewrite lookup_insert_eq, E. reflexivity.
  - rewrite lookup_insert_ne by exact Hne. reflexivity.
Qed.

Lemma listHooksOnDisk_same_files st st' :
  files st' = files st -> listHooksOnDisk st' = listHooksOnDisk st.
Proof. intros Hf. unfold listHooksOnDisk. rewrite Hf. reflexivity. Qed.

Lemma gather_spec hooks : forall acc st,
  fst (gather hooks acc st) = acc ++ concat (map (cache_view st) hooks) /\
  same_view st (snd (gather hooks acc st)).
Proof.
  induction hooks as [|h hooks IH]; intros acc st; simpl.
  - rewrite app_nil_r. split; [reflexivity | apply same_view_refl].
  - pose proof (ensureHookLoaded_fst h st) as Hfst.
    pose proof (ensureHookLoaded_same_view h st) as Hsame.
    destruct (ensureHookLoaded h st) as [arr st1]. simpl in Hfst, Hsame. subst arr.
    destruct (IH (acc ++ cache_view st h) st1) as [Hacc Hview]. split.
    + rewrite Hacc, <- app_assoc. do 3 f_equal.
      apply List.map_ext. intros h'. apply Hsame.
    + eapply same_view_trans; eassumption.
Qed.

(** *** Hydration from the log *)

Lemma filter_truthy_parse_or_null lines :
  List.filter Json.truthy (map parse_or_null lines)
  = List.filter Json.truthy (omap JSON_parse lines).
Proof.
  induction lines as [|l lines IH]; [reflexivity|].
  cbn [map omap list_omap]. unfold parse_or_null at 1.
  destruct (JSON_parse l) as [v|]; cbn [List.filter]; rewrite IH; reflexivity.
Qed.

Lemma slice_last_last_n {A} n (l : list A) : 0 < n -> slice_last n l = last_n n l.
Proof. destruct n; [lia | reflexivity]. Qed.

Lemma last_n_length {A} n (l : list A) : length (last_n n l) <= n.
Proof. unfold last_n. rewrite List.length_skipn. lia. Qed.

Lemma filter_length_le {A} (p : A -> bool) (l : list A) :
  length (List.filter p l) <= length l.
Proof. induction l as [|x l IH]; simpl; [lia|]. destruct (p x); simpl; lia. Qed.

Lemma omap_length_le {A B} (f : A -> option B) (l : list A) :
  length (omap f l) <= length l.
Proof.
  induction l as [|x l IH]; [simpl; lia|].
  cbn [omap list_omap]. destruct (f x); cbn [length]; fold (omap f l); lia.
Qed.

Lemma filter_all_true {A} (p : A -> bool) (l : list A) :
  (forall x, In x l -> p x = true) -> List.filter p l = l.
Proof.
  induction l as [|x l IH]; intros Hall; [reflexivity|]. simpl.
  rewrite (Hall x) by (left; reflexivity). f_equal. apply IH.
  intros y Hy. apply Hall. right. exact Hy.
Qed.

Lemma In_omap {A B} (f : A -> option B) (l : list A) (y : B) :
  In y (omap f l) -> exists x, In x l /\ f x = Some y.
Proof.
  induction l as [|x l IH]; [intros []|].
  cbn [omap list_omap]. fold (omap f l).
  destruct (f x) as [b|] eqn:E; cbn [In].
  - intros [<- | Hy]; [exists x; auto|].
    destruct (IH Hy) as (x' & Hx' & Hf). exists x'. auto.
  - intros Hy. destruct (IH Hy) as (x' & Hx' & Hf). exists x'. auto.
Qed.

Lemma In_skipn {A} n (l : list A) x : In x (skipn n l) -> In x l.
Proof.
  revert l. induction n as [|n IH]; intros l; [trivial|].
  destruct l as [|y l]; simpl; [trivial|]. intros Hx. right. apply IH. exact Hx.
Qed.

Lemma loadHook_eq hook st content :
  0 < MAX_RECENT_PER_HOOK -> files st !! hook = Some content ->
  loadHook hook st
  = List.filter Json.truthy
      (omap JSON_parse (last_n MAX_RECENT_PER_HOOK (file_lines content))).
Proof.
  intros Hmax Hfile. unfold loadHook. rewrite Hfile.
  destruct (nonempty (trim content)) eqn:Hraw; simpl negb; cbv iota.
  - rewrite slice_last_last_n by exact Hmax.
    apply filter_truthy_parse_or_null.
  - apply nonempty_false in Hraw. unfold file_lines. rewrite Hraw. reflexivity.
Qed.

End StoreFacts.

(** C4 (as amended). For a positive [MAX_RECENT_PER_HOOK], [loadHook]
    returns the empty sequence when the hook has no log file; otherwise it
    takes the non-empty lines of the trimmed file, keeps the last
    [MAX_RECENT_PER_HOOK] of them, parses each, and returns in file order
    those that parse to a truthy value: a line that does not parse is left
    out, and so is a line that parses to [null], [false], [0] or the empty
    string.  It returns for every file (no exception), with at most
    [MAX_RECENT_PER_HOOK] records, and agrees with the load operation of
    the specification on every file none of whose lines parses to a falsy
    value. *)
Theorem loadHook_tail_of_log `{env : Env} (hook : string) (st : state) :
  0 < MAX_RECENT_PER_HOOK ->
  (files st !! hook = None -> loadHook hook st = []) /\
  (forall content, files st !! hook = Some content ->
     loadHook hook st
     = List.filter Json.truthy
         (omap JSON_parse (last_n MAX_RECENT_PER_HOOK (file_lines content)))) /\
  ((forall content l v, files st !! hook = Some content ->
      In l (file_lines content) -> JSON_parse l = Some v -> Json.truthy v = true) ->
   loadHook hook st = load_as_specified hook st) /\
  length (loadHook hook st) <= MAX_RECENT_PER_HOOK.
Proof.
  intros Hmax.
  assert (Hnone : files st !! hook = None -> loadHook hook st = []).
  { intros Hfile. unfold loadHook. rewrite Hfile. reflexivity. }
  split; [exact Hnone | split; [intros content; apply loadHook_eq; exact Hmax | split]].
  - intros Hrecords. unfold load_as_specified.
    destruct (files st !! hook) as [content|] eqn:Hfile; [| apply Hnone; reflexivity].
    rewrite (loadHook_eq hook st content Hmax Hfile).
    apply filter_all_true. intros v Hv.
    apply In_omap in Hv as (l & Hl & Hparse).
    apply (Hrecords content l v eq_refl); [| exact Hparse].
    unfold last_n in Hl. apply In_skipn in Hl. exact Hl.
  - destruct (files st !! hook) as [content|] eqn:Hfile.
    + rewrite (loadHook_eq hook st content Hmax Hfile).
      etransitivity; [apply filter_length_le|].
      etransitivity; [apply omap_length_le | apply last_n_length].
    + rewrite (Hnone eq_refl). simpl. lia.
Qed.

Lemma loadHook_tail_of_log_witness :
  0 < MAX_RECENT_PER_HOOK (Env := default_env) /\
  loadHook (env := default_env) "tracks" log_with_null_line = [booking_event] /\
  length (loadHook (env := default_env) "tracks" log_with_null_line) <= 500.
Proof.
  split; [simpl; lia|].
  destruct (loadHook_tail_of_log (env := default_env) "tracks" log_with_null_line)
    as (_ & Heq & _ & Hlen); [simpl; lia|].
  split; [| exact Hlen].
  rewrite (Heq _ eq_refl). vm_compute. reflexivity.
Defined.

(** C4 (as stated) fails: the line [null] parses, so the load operation of
    the specification returns it as a record, while [loadHook] drops it. *)
Lemma loadHook_drops_falsy_line_counterexample :
  JSON_parse (Env := default_env) "null" = Some JNull /\
  load_as_specified (env := default_env) "tracks" log_with_null_line
  = [booking_event; JNull] /\
  loadHook (env := default_env) "tracks" log_with_null_line = [booking_event] /\
  loadHook (env := default_env) "tracks" log_with_null_line
  <> load_as_specified (env := default_env) "tracks" log_with_null_line.
Proof.
  assert (load_as_specified (env := default_env) "tracks" log_with_null_line
          = [booking_event; JNull]) as Hspec by (vm_compute; reflexivity).
  assert (loadHook (env := default_env) "tracks" log_with_null_line = [booking_event])
    as Hcode by (vm_compute; reflexivity).
  split; [vm_compute; reflexivity | split; [exact Hspec | split; [exact Hcode |]]].
  rewrite Hspec, Hcode. discriminate.
Qed.

(** ** Filtering *)

Lemma filter_events_spec fn arr :
  filter_events fn arr
  = if existsb (throws fn) arr then Throw else Ok (List.filter (accepts fn) arr).
Proof.
  induction arr as [|evt arr IH]; [reflexivity|].
  simpl. unfold throws at 1, accepts at 1.
  destruct (fn evt) as [keep|]; [| reflexivity].
  rewrite IH. simpl. destruct (existsb (throws fn) arr); [reflexivity|].
  destruct keep; reflexivity.
Qed.

Section FilterFacts.
Context `{env : Env}.

(** Without a selected value and without a query the matcher accepts every
    event, so leaving the filter out changes nothing. *)
Lemma eventMatches_no_filter evt q field value :
  has_filter q value = false -> eventMatches evt q field value = Ok true.
Proof.
  unfold has_filter. intros Hf. apply orb_false_iff in Hf as [Hq Hv].
  apply nonempty_false in Hq. subst q.
  apply eventMatches_absent_filters; [exact Hv | reflexivity].
Qed.

Lemma no_filter_keeps_all q field value arr :
  has_filter q value = false ->
  existsb (throws (fun evt => eventMatches evt q field value)) arr = false /\
  List.filter (accepts (fun evt => eventMatches evt q field value)) arr = arr.
Proof.
  intros Hf. induction arr as [|evt arr [IH1 IH2]]; [split; reflexivity|].
  simpl. unfold throws at 1, accepts at 1.
  rewrite (eventMatches_no_filter evt q field value Hf). simpl.
  split; [exact IH1 | f_equal; exact IH2].
Qed.

(** The filtering step of the handlers, with or without its guard. *)
Lemma guarded_filter q field value arr :
  (if has_filter q value
   then filter_events (fun evt => eventMatches evt q field value) arr
   else Ok arr)
  = if existsb (throws (fun evt => eventMatches evt q field value)) arr then Throw
    else Ok (List.filter (accepts (fun evt => eventMatches evt q field value)) arr).
Proof.
  destruct (has_filter q value) eqn:Hf; [apply filter_events_spec|].
  destruct (no_filter_keeps_all q field value arr Hf) as [-> ->]. reflexivity.
Qed.

End FilterFacts.

(** ** Sequences of outcomes *)

Lemma all_ok_map_Ok {A B} (f : A -> result B) (l : list A) (ys : list B) :
  all_ok (map f l) = Ok ys <-> Forall2 (fun x y => f x = Ok y) l ys.
Proof.
  revert ys. induction l as [|x l IH]; intros ys; simpl.
  - split; [intros [= <-]; constructor | intros H; inversion H; reflexivity].
  - destruct (f x) as [y|] eqn:Hx; simpl.
    + destruct (all_ok (map f l)) as [zs|] eqn:Hl; simpl.
      * split.
        -- intros [= <-]. constructor; [exact Hx | apply IH; reflexivity].
        -- intros H. inversion H as [|? y' ? zs' Hy Hzs]; subst.
           apply IH in Hzs. congruence.
      * split; [discriminate|].
        intros H. inversion H as [|? y' ? zs' Hy Hzs]; subst.
        apply IH in Hzs. discriminate.
    + split; [discriminate|].
      intros H. inversion H; subst. congruence.
Qed.

Lemma all_ok_map_Throw {A B} (f : A -> result B) (l : list A) :
  all_ok (map f l) = Throw <-> Exists (fun x => f x = Throw) l.
Proof.
  induction l as [|x l IH]; simpl.
  - split; [discriminate | intros H; inversion H].
  - destruct (f x) as [y|] eqn:Hx; simpl.
    + destruct (all_ok (map f l)) as [zs|]; simpl.
      * split; [discriminate|].
        intros H. inversion H as [? ? Hthrow | ? ? Hrest]; subst; [congruence|].
        apply IH in Hrest. discriminate.
      * split; [intros _; right; apply IH; reflexivity | reflexivity].
    + split; [intros _; left; exact Hx | reflexivity].
Qed.

Lemma all_ok_map_length {A B} (f : A -> result B) (l : list A) (ys : list B) :
  all_ok (map f l) = Ok ys -> length ys = length l.
Proof.
  intros H. apply all_ok_map_Ok in H. symmetry. eapply Forall2_length. exact H.
Qed.

(** ** Listings *)

Section HandlerFacts.
Context `{env : Env}.

Lemma api_hook_spec hookParam q field value limit st :
  api_hook hookParam q field value limit st
  = let hook := trim hookParam in
    if negb (isHookAllowed hook) then (NotFound, st)
    else
      let events := cache_view st hook in
      let st1 := snd (ensureHookLoaded hook st) in
      if existsb (throws (request_matcher q field value)) events then (ServerError, st1)
      else (listing limit (List.filter (accepts (request_matcher q field value)) events), st1).
Proof.
  unfold api_hook, listing. cbv zeta.
  destruct (isHookAllowed (trim hookParam)); simpl negb; cbv iota; [| reflexivity].
  pose proof (ensureHookLoaded_fst (trim hookParam) st) as Hfst.
  destruct (ensureHookLoaded (trim hookParam) st) as [arr st1]. simpl in Hfst. subst arr.
  rewrite guarded_filter. unfold request_matcher. simpl snd.
  destruct (existsb _ (cache_view st (trim hookParam))); [reflexivity|].
  destruct (all_ok _); reflexivity.
Qed.

Lemma api_events_spec q field value limit st :
  api_events q field value limit st
  = let events := all_events st in
    let st1 := snd (gather (listHooksOnDisk st) [] st) in
    if existsb (throws (request_matcher q field value)) events then (ServerError, st1)
    else
      (listing limit
         (sort byReceivedAtDesc (List.filter (accepts (request_matcher q field value)) events)),
       st1).
Proof.
  unfold api_events, all_events, listing. cbv zeta.
  destruct (gather_spec (listHooksOnDisk st) [] st) as [Hfst _].
  destruct (gather (listHooksOnDisk st) [] st) as [combined st1].
  simpl in Hfst. subst combined.
  rewrite guarded_filter. unfold request_matcher. simpl snd.
  destruct (existsb _ (concat _)); [reflexivity|].
  destruct (all_ok _); reflexivity.
Qed.

Lemma all_events_same_view st st' : same_view st st' -> all_events st' = all_events st.
Proof.
  intros [Hf Hv]. unfold all_events.
  rewrite (listHooksOnDisk_same_files st st' Hf). f_equal.
  apply List.map_ext. exact Hv.
Qed.

Lemma api_events_same_view q field value limit st :
  same_view st (snd (api_events q field value limit st)).
Proof.
  rewrite api_events_spec. cbv zeta.
  destruct (gather_spec (listHooksOnDisk st) [] st) as [_ Hsame].
  destruct (existsb _ (all_events st)); exact Hsame.
Qed.

Lemma api_events_response_same_view q field value limit st st' :
  same_view st st' ->
  fst (api_events q field value limit st') = fst (api_events q field value limit st).
Proof.
  intros Hsame. rewrite !api_events_spec. cbv zeta.
  rewrite (all_events_same_view st st' Hsame).
  destruct (existsb _ (all_events st)); reflexivity.
Qed.

Lemma after_aggregations_same_view q field value limit n st :
  same_view st (after_aggregations q field value limit n st).
Proof.
  induction n as [|n IH]; simpl; [apply same_view_refl|].
  eapply same_view_trans; [exact IH | apply api_events_same_view].
Qed.

(** The answer of a listing request on an allowed hook. *)
Lemma api_hook_listing hookParam q field value limit st :
  isHookAllowed (trim hookParam) = true ->
  fst (api_hook hookParam q field value limit st)
  = if existsb (throws (request_matcher q field value)) (cache_view st (trim hookParam))
    then ServerError
    else listing limit
           (List.filter (accepts (request_matcher q field value))
              (cache_view st (trim hookParam))).
Proof.
  intros Hallowed. rewrite api_hook_spec. cbv zeta. rewrite Hallowed. simpl negb. cbv iota.
  destruct (existsb _ _); reflexivity.
Qed.

Lemma with_summary_throws evt : with_summary evt = Throw <-> buildSummary evt = Throw.
Proof.
  unfold with_summary. destruct (buildSummary evt); simpl; split; congruence.
Qed.

(** When neither the matcher nor a summary throws, the listing holds the
    number of accepted events, whatever the limit, and the summarised
    events of the page. *)
Lemma listing_items limit filtered items :
  all_ok (map with_summary (page (parseLimit limit) filtered)) = Ok items ->
  listing limit filtered = Listing (length filtered) items.
Proof. intros H. unfold listing. rewrite H. reflexivity. Qed.

End HandlerFacts.

(** ** Per-hook listing *)

(** C9, at the failing inputs.  The [tracks] hook holds one booking.  A
    filter on a path that resolves is answered as claimed: value 52 on
    [payload.Driver.Callsign] matches nothing, and the answer is the count
    0 with no item.  The filter on [payload.Vehicle.Callsign], which does
    not resolve in the booking, matches nothing either, but the request
    ends in the answer of the error middleware: the matcher throws.  With
    two bookings and no filter the count is 2 whatever the limit, the
    items are both bookings, latest first, without a limit or with limit
    0 and the first of them with limit 1; a limit of 6000 is read as 6000
    and a page of at most 5000 events is cut with it.  After a payload
    whose booking id is an object with a property [toString] the summary
    throws, and the unfiltered listing of the hook fails as well. *)
Theorem api_hook_listing_fails_on_exception :
  let evt1 := mkEvent "evt-1" "tracks" "2024-05-01T10:00:00.000Z" sample_meta
                (booking_payload "51") in
  let evt2 := mkEvent "evt-2" "tracks" "2024-05-01T10:00:01.000Z" sample_meta
                (booking_payload "52") in
  let unprintable := mkEvent "evt-2" "tracks" "2024-05-01T10:00:01.000Z" sample_meta
                       unprintable_payload in
  cache_view (env := default_env) Scenario.one_booking "tracks" = [evt1] /\
  fst (api_hook (env := default_env) "tracks" None (Some "payload.Driver.Callsign")
         (Some "52") None Scenario.one_booking) = Listing 0 [] /\
  accepts (request_matcher (env := default_env) None (Some "payload.Vehicle.Callsign")
             (Some "51")) evt1 = false /\
  fst (api_hook (env := default_env) "tracks" None (Some "payload.Vehicle.Callsign")
         (Some "51") None Scenario.one_booking) = ServerError /\
  fst (api_hook (env := default_env) "tracks" None None None None Scenario.two_bookings)
  = Listing 2 [summarised evt2 "BookingCreated | D CS 52";
               summarised evt1 "BookingCreated | D CS 51"] /\
  fst (api_hook (env := default_env) "tracks" None None None (Some "0") Scenario.two_bookings)
  = Listing 2 [summarised evt2 "BookingCreated | D CS 52";
               summarised evt1 "BookingCreated | D CS 51"] /\
  fst (api_hook (env := default_env) "tracks" None None None (Some "1") Scenario.two_bookings)
  = Listing 2 [summarised evt2 "BookingCreated | D CS 52"] /\
  parseLimit (env := default_env) (Some "6000") = 6000 /\
  length (page 6000 (repeat evt1 5001)) = 5000 /\
  cache_view (env := default_env) Scenario.unprintable_booking "tracks" = [unprintable; evt1] /\
  buildSummary unprintable = Throw /\
  fst (api_hook (env := default_env) "tracks" None None None None
         Scenario.unprintable_booking) = ServerError.
Proof.
  cbv zeta. repeat (match goal with |- _ /\ _ => split end); vm_compute; reflexivity.
Qed.

(** ** Cross-hook aggregation *)

Lemma Forall_filter_keep {A} (P : A -> Prop) (p : A -> bool) (l : list A) :
  Forall P l -> Forall P (List.filter p l).
Proof.
  induction 1 as [|x l Hx Hl IH]; simpl; [constructor|].
  destruct (p x); [constructor; assumption | exact IH].
Qed.

(** C3 (as amended).  When the cached events carry string time stamps and
    the request raises no exception (the matcher throws on no event, the
    summary on no listed event), the wildcard aggregation answers with the
    events the filter accepts among the caches of the enumerated hooks,
    concatenated in enumeration order and sorted by [receivedAt] with a
    comparator that reads nothing else: the sorted events are a
    permutation of the accepted ones, most recent first, and events with
    equal time stamps stay in concatenation order, by the stability of the
    sort only.  For a fixed state of the files and caches every repeated
    aggregation returns the same response. *)
Theorem api_events_stable_aggregation `{env : Env}
    (q field value limit : option string) (st : state) (items : list json) :
  let events := all_events st in
  let matcher := request_matcher q field value in
  let accepted := List.filter (accepts matcher) events in
  let sorted := sort byReceivedAtDesc accepted in
  Forall timestamped events ->
  existsb (throws matcher) events = false ->
  all_ok (map with_summary (page (parseLimit limit) sorted)) = Ok items ->
  fst (api_events q field value limit st) = Listing (length accepted) items /\
  Permutation sorted accepted /\
  StronglySorted not_older sorted /\
  (forall t, List.filter (received_at t) sorted = List.filter (received_at t) accepted) /\
  (forall n,
     fst (api_events q field value limit (after_aggregations q field value limit n st))
     = fst (api_events q field value limit st)).
Proof.
  intros events matcher accepted sorted Hts Hno Hitems.
  assert (Hacc : Forall timestamped accepted) by (apply Forall_filter_keep; exact Hts).
  split; [| split; [| split; [| split]]].
  - rewrite api_events_spec. cbv zeta. fold events matcher. rewrite Hno.
    fold accepted sorted. simpl fst. rewrite (listing_items limit sorted items Hitems).
    unfold sorted. rewrite sort_length. reflexivity.
  - apply sort_perm.
  - apply sort_byReceivedAtDesc_sorted. exact Hacc.
  - intros t. apply sort_byReceivedAtDesc_stable. exact Hacc.
  - intros n. apply api_events_response_same_view.
    apply after_aggregations_same_view.
Qed.

(** C3 (as stated) fails: the comparator has no secondary key.  Two hooks
    hold one event each, received at the same instant; the comparator
    reports the two events as equal in both directions, and the
    aggregation lists them in enumeration order of their hooks. *)
Lemma aggregation_tie_break_counterexample :
  Scenario.tie_a <> Scenario.tie_b /\
  byReceivedAtDesc Scenario.tie_a Scenario.tie_b = 0%Z /\
  byReceivedAtDesc Scenario.tie_b Scenario.tie_a = 0%Z /\
  fst (api_events (env := default_env) None None None None Scenario.two_hooks_tied)
  = Listing 2 [summarised Scenario.tie_a "BookingCreated | D CS 51";
               summarised Scenario.tie_b "BookingCreated | D CS 52"] /\
  ~ has_explicit_tie_break byReceivedAtDesc.
Proof.
  assert (Hne : Scenario.tie_a <> Scenario.tie_b) by discriminate.
  assert (Hab : byReceivedAtDesc Scenario.tie_a Scenario.tie_b = 0%Z) by reflexivity.
  split; [exact Hne | split; [exact Hab | split; [reflexivity | split]]].
  - vm_compute. reflexivity.
  - intros Htie. exact (Htie _ _ Hne Hab).
Qed.

(** ** Exports *)

Section ExportFacts.
Context `{env : Env}.

Lemma truncate_firstn {A} n (arr : list A) :
  (if n <? length arr then slice_first n arr else arr) = firstn n arr.
Proof.
  unfold slice_first. destruct (n <? length arr) eqn:Hlen; [reflexivity|].
  apply Nat.ltb_ge in Hlen. symmetry. apply firstn_all2. exact Hlen.
Qed.

Lemma export_events_spec hookParam q field value st :
  export_events hookParam q field value st
  = let scope := export_scope hookParam in
    if String.eqb scope "*" then
      (exported q field value (all_events st), snd (gather (listHooksOnDisk st) [] st))
    else if negb (isHookAllowed scope) then (inl NotFound, st)
    else
      (exported q field value (cache_view st scope),
       if has_filter (normalizeQ q) (param value)
          || existsb (throws (request_matcher q field value)) (cache_view st scope)
       then snd (ensureHookLoaded scope st)
       else cache_sorted scope st).
Proof.
  unfold export_events, exported, request_matcher. cbv zeta.
  set (scope := export_scope hookParam).
  set (fn := fun evt => eventMatches evt (normalizeQ q) (param field) (param value)).
  destruct (String.eqb scope "*").
  - destruct (gather_spec (listHooksOnDisk st) [] st) as [Hfst _].
    destruct (gather (listHooksOnDisk st) [] st) as [events st1].
    simpl in Hfst. fold (all_events st) in Hfst. subst events. simpl snd.
    destruct (has_filter (normalizeQ q) (param value)) eqn:Hf.
    + simpl deref. rewrite filter_events_spec.
      destruct (existsb (throws fn) (all_events st)); [reflexivity|].
      simpl. rewrite truncate_firstn. reflexivity.
    + destruct (no_filter_keeps_all (normalizeQ q) (param field) (param value)
                  (all_events st) Hf) as [Hno Hall].
      fold fn in Hno, Hall. rewrite Hno, Hall.
      simpl. rewrite truncate_firstn. reflexivity.
  - destruct (isHookAllowed scope); simpl negb; cbv iota; [| reflexivity].
    pose proof (ensureHookLoaded_cached scope st) as Hcached.
    unfold cache_sorted.
    destruct (ensureHookLoaded scope st) as [arr st1]. simpl in Hcached. simpl snd.
    destruct (has_filter (normalizeQ q) (param value)) eqn:Hf.
    + simpl deref. rewrite Hcached. simpl default. rewrite filter_events_spec.
      simpl orb.
      destruct (existsb (throws fn) (cache_view st scope)); [reflexivity|].
      simpl. rewrite truncate_firstn. reflexivity.
    + destruct (no_filter_keeps_all (normalizeQ q) (param field) (param value)
                  (cache_view st scope) Hf) as [Hno Hall].
      fold fn in Hno, Hall. rewrite Hno, Hall. simpl orb.
      simpl. rewrite Hcached. simpl. rewrite lookup_insert_eq. simpl.
      rewrite truncate_firstn. reflexivity.
Qed.

End ExportFacts.

(** *** The line-delimited body *)

Lemma has_char_app p a b : has_char p (a +:+ b) = has_char p a || has_char p b.
Proof.
  induction a as [|c a IH]; [reflexivity|]. simpl. rewrite IH. apply orb_assoc.
Qed.

Lemma one_line_app a b : one_line a -> one_line b -> one_line (a +:+ b).
Proof. unfold one_line. intros Ha Hb. rewrite has_char_app, Ha, Hb. reflexivity. Qed.

Lemma one_line_join sep parts :
  one_line sep -> Forall one_line parts -> one_line (join sep parts).
Proof.
  intros Hsep Hparts. induction Hparts as [|p parts Hp Hps IH]; [reflexivity|].
  simpl. destruct parts as [|p' parts']; [exact Hp|].
  apply one_line_app; [exact Hp | apply one_line_app; [exact Hsep | exact IH]].
Qed.

Lemma escape_char_one_line c : one_line (Json.escape_char c).
Proof. destruct c as [[] [] [] [] [] [] [] []]; reflexivity. Qed.

Lemma escape_one_line s : one_line (Json.escape s).
Proof.
  induction s as [|c s IH]; [reflexivity|]. simpl.
  apply one_line_app; [apply escape_char_one_line | exact IH].
Qed.

Lemma quote_one_line s : one_line (Json.quote s).
Proof.
  unfold Json.quote. change (String Json.dquote ?x) with (String Json.dquote EmptyString +:+ x).
  apply one_line_app; [reflexivity|].
  apply one_line_app; [apply escape_one_line | reflexivity].
Qed.

Lemma digits_one_line d : one_line (NilEmpty.string_of_uint d).
Proof. induction d; [reflexivity | exact IHd ..]. Qed.

Lemma string_of_uint_one_line d : one_line (NilZero.string_of_uint d).
Proof.
  unfold NilZero.string_of_uint.
  destruct d; [reflexivity | apply digits_one_line ..].
Qed.

Lemma render_int_one_line z : one_line (Json.render_int z).
Proof.
  unfold Json.render_int, NilZero.string_of_int.
  destruct (Z.to_int z) as [d|d]; [apply string_of_uint_one_line|].
  unfold one_line. simpl. apply string_of_uint_one_line.
Qed.

(** [JSON.stringify] never emits a line feed: line feeds inside strings
    are escaped. *)
Lemma stringify_one_line v : one_line (Json.stringify v).
Proof.
  induction v as [| [|] | z | s | items IH | props IH] using Json.json_ind';
    try reflexivity.
  - apply render_int_one_line.
  - apply quote_one_line.
  - cbn [Json.stringify].
    apply (one_line_app "["); [reflexivity|].
    apply one_line_app; [| reflexivity].
    apply one_line_join; [reflexivity|].
    induction IH as [|x items Hx Hitems IHitems]; constructor; assumption.
  - cbn [Json.stringify].
    apply (one_line_app "{"); [reflexivity|].
    apply one_line_app; [| reflexivity].
    apply one_line_join; [reflexivity|].
    induction IH as [|kv props Hkv Hprops IHprops]; constructor; [| assumption].
    apply one_line_app; [apply quote_one_line|].
    apply (one_line_app ":"); [reflexivity | exact Hkv].
Qed.

Lemma split_one_line s : one_line s -> split newline s = [s].
Proof.
  unfold one_line. induction s as [|c s IH]; [reflexivity|].
  simpl. intros Hs. apply orb_false_iff in Hs as [Hc Hs].
  unfold is_newline in Hc. rewrite Hc, (IH Hs). reflexivity.
Qed.

Lemma split_line_then s rest :
  one_line s -> split newline (s +:+ String newline rest) = s :: split newline rest.
Proof.
  unfold one_line. induction s as [|c s IH]; simpl.
  - intros _. reflexivity.
  - intros Hs. apply orb_false_iff in Hs as [Hc Hs].
    unfold is_newline in Hc. rewrite Hc, (IH Hs). reflexivity.
Qed.

Lemma string_app_assoc (a b c : string) : (a +:+ b) +:+ c = a +:+ (b +:+ c).
Proof.
  induction a as [|x a IH]; [reflexivity|].
  change (String x ((a +:+ b) +:+ c) = String x (a +:+ (b +:+ c))).
  f_equal. exact IH.
Qed.

Lemma split_joined_lines ls :
  Forall one_line ls -> ls <> [] ->
  split newline (join (String newline EmptyString) ls +:+ String newline EmptyString)
  = ls ++ [EmptyString].
Proof.
  induction 1 as [|l ls Hl Hls IH]; [congruence|]. intros _.
  destruct ls as [|l' ls'].
  - simpl join. rewrite split_line_then by exact Hl. reflexivity.
  - change (join (String newline EmptyString) (l :: l' :: ls'))
      with (l +:+ String newline EmptyString +:+ join (String newline EmptyString) (l' :: ls')).
    rewrite string_app_assoc.
    change ((String newline EmptyString +:+ join (String newline EmptyString) (l' :: ls'))
            +:+ String newline EmptyString)
      with (String newline
              (join (String newline EmptyString) (l' :: ls') +:+ String newline EmptyString)).
    rewrite split_line_then by exact Hl.
    rewrite IH by discriminate. reflexivity.
Qed.

(** The body holds exactly the serialised events, one per line, each line
    ended by a line feed. *)
Lemma ndjson_body_lines events :
  split newline (ndjson_body events) = map Json.stringify events ++ [EmptyString].
Proof.
  unfold ndjson_body. destruct events as [|e events]; [reflexivity|].
  simpl Nat.eqb. cbv iota. apply split_joined_lines; [| discriminate].
  apply List.Forall_forall. intros l Hl. apply in_map_iff in Hl as (x & <- & _).
  apply stringify_one_line.
Qed.

Lemma last_char_app_char s c : last_char (s +:+ String c EmptyString) = Some c.
Proof.
  induction s as [|a s IH]; [reflexivity|].
  simpl. destruct (s +:+ String c EmptyString) eqn:E; [| exact IH].
  destruct s; discriminate.
Qed.

Lemma ndjson_body_trailing_newline events :
  events <> [] -> last_char (ndjson_body events) = Some newline.
Proof.
  intros Hne. unfold ndjson_body. destruct events as [|e events]; [congruence|].
  simpl Nat.eqb. cbv iota. apply last_char_app_char.
Qed.

(** The answer of the line-delimited export when the events of the scope
    carry string time stamps: 404 for a scope that is neither the wildcard
    nor an allowed hook, the answer of the error middleware when the
    matcher throws, and otherwise the first [MAX_EXPORT] of the accepted
    events, most recent first, one serialised event per line, every line
    ended by a line feed. *)
Lemma export_ndjson_selected `{env : Env}
    (hookParam q field value : option string) (st : state) :
  let scope := export_scope hookParam in
  let events := scope_events scope st in
  let matcher := request_matcher q field value in
  let accepted := List.filter (accepts matcher) events in
  let selected := firstn MAX_EXPORT (sort byReceivedAtDesc accepted) in
  Forall timestamped events ->
  fst (export_ndjson hookParam q field value st)
  = (if negb (String.eqb scope "*") && negb (isHookAllowed scope) then NotFound
     else if existsb (throws matcher) events then ServerError
     else Download (ndjson_body selected)) /\
  Permutation (sort byReceivedAtDesc accepted) accepted /\
  StronglySorted not_older (sort byReceivedAtDesc accepted) /\
  length selected <= MAX_EXPORT /\
  split newline (ndjson_body selected) = map Json.stringify selected ++ [EmptyString] /\
  ndjson_body [] = EmptyString /\
  (selected <> [] -> last_char (ndjson_body selected) = Some newline).
Proof.
  intros scope events matcher accepted selected Hts.
  split; [| split; [| split; [| split; [| split; [| split]]]]].
  - clear Hts. subst selected accepted events.
    unfold export_ndjson. rewrite export_events_spec. cbv zeta.
    fold scope. unfold scope_events, exported.
    destruct (String.eqb scope "*"); simpl negb; simpl andb.
    + fold matcher. destruct (existsb (throws matcher) (all_events st)); reflexivity.
    + destruct (isHookAllowed scope); simpl negb; cbv iota; [| reflexivity].
      fold matcher. destruct (existsb (throws matcher) (cache_view st scope)); reflexivity.
  - apply sort_perm.
  - apply sort_byReceivedAtDesc_sorted, Forall_filter_keep. exact Hts.
  - unfold selected. rewrite length_firstn. lia.
  - apply ndjson_body_lines.
  - reflexivity.
  - apply ndjson_body_trailing_newline.
Qed.

(** C7, at the failing input.  Where the matcher returns, the export is
    as claimed: the three bookings of the [tracks] hook, cached in the
    order 3, 1, 2, leave as the lines 3, 2, 1; with an export cap of two
    events the two most recent are kept; a filter that nothing matches
    (value 52 on [payload.Driver.Callsign], which resolves) gives the
    empty body.  The filter on [payload.Vehicle.Callsign] matches nothing
    either, but there the export of the hook, and that of the wildcard
    scope, end in the answer of the error middleware instead of the empty
    body: the matcher throws on the booking. *)
Theorem export_ndjson_fails_on_unresolved_path :
  let evt1 := mkEvent "evt-1" "tracks" "2024-05-01T10:00:00.000Z" sample_meta
                (booking_payload "51") in
  let evt2 := mkEvent "evt-2" "tracks" "2024-05-01T10:00:01.000Z" sample_meta
                (booking_payload "52") in
  let evt3 := mkEvent "evt-3" "tracks" "2024-05-01T10:00:02.000Z" sample_meta
                (booking_payload "53") in
  cache_view (env := default_env) Scenario.third_after_restart "tracks" = [evt3; evt1; evt2] /\
  fst (export_ndjson (env := default_env) (Some "tracks") None None None
         Scenario.third_after_restart)
  = Download (Json.stringify evt3 +:+ String newline
                (Json.stringify evt2 +:+ String newline
                   (Json.stringify evt1 +:+ String newline EmptyString))) /\
  fst (export_ndjson (env := small_env 3 2) (Some "tracks") None None None
         Scenario.third_after_restart)
  = Download (Json.stringify evt3 +:+ String newline
                (Json.stringify evt2 +:+ String newline EmptyString)) /\
  fst (export_ndjson (env := default_env) (Some "tracks") None
         (Some "payload.Driver.Callsign") (Some "52") Scenario.one_booking)
  = Download EmptyString /\
  accepts (request_matcher (env := default_env) None (Some "payload.Vehicle.Callsign")
             (Some "51")) evt1 = false /\
  fst (export_ndjson (env := default_env) (Some "tracks") None
         (Some "payload.Vehicle.Callsign") (Some "51") Scenario.one_booking)
  = ServerError /\
  fst (export_ndjson (env := default_env) None None
         (Some "payload.Vehicle.Callsign") (Some "51") Scenario.one_booking)
  = ServerError.
Proof.
  cbv zeta. repeat (match goal with |- _ /\ _ => split end); vm_compute; reflexivity.
Qed.

(** *** The effect of an export on the cache *)

Section ExportEffect.
Context `{env : Env}.

Lemma export_ndjson_state hookParam q field value st :
  snd (export_ndjson hookParam q field value st)
  = snd (export_events hookParam q field value st).
Proof.
  unfold export_ndjson.
  destruct (export_events hookParam q field value st) as [[r | events] st1]; reflexivity.
Qed.

Lemma export_csv_state hookParam q field value st :
  snd (export_csv hookParam q field value st)
  = snd (export_events hookParam q field value st).
Proof.
  unfold export_csv.
  destruct (export_events hookParam q field value st) as [[r | events] st1];
    [reflexivity|].
  destruct (all_ok _); reflexivity.
Qed.



End ExportEffect.



(** ** The recency cache *)

Section CacheFacts.
Context `{env : Env}.

Lemma loadHook_length hook st :
  0 < MAX_RECENT_PER_HOOK -> length (loadHook hook st) <= MAX_RECENT_PER_HOOK.
Proof.
  intros Hmax. destruct (files st !! hook) as [content|] eqn:Hfile.
  - rewrite (loadHook_eq hook st content Hmax Hfile).
    etransitivity; [apply filter_length_le|].
    etransitivity; [apply omap_length_le | apply last_n_length].
  - unfold loadHook. rewrite Hfile. simpl. lia.
Qed.

Lemma bounded_cache_view st hook :
  0 < MAX_RECENT_PER_HOOK -> bounded st ->
  length (cache_view st hook) <= MAX_RECENT_PER_HOOK.
Proof.
  intros Hmax Hb. unfold cache_view.
  destruct (recentByHook st !! hook) as [arr|] eqn:E; [exact (Hb hook arr E)|].
  apply loadHook_length. exact Hmax.
Qed.

(** The cache of the hook after [storeEvent]: the new event in front of
    what the hook held, without the last element when that makes more than
    [MAX_RECENT_PER_HOOK]. *)
Lemma storeEvent_cache hook payload meta id now st :
  recentByHook (snd (storeEvent hook payload meta id now st)) !! hook
  = Some (let arr := mkEvent id hook now meta payload :: cache_view st hook in
          if MAX_RECENT_PER_HOOK <? length arr then pop arr else arr).
Proof.
  unfold storeEvent.
  pose proof (ensureHookLoaded_fst hook st) as Hfst.
  destruct (ensureHookLoaded hook st) as [arr st1]. simpl in Hfst. subst arr.
  simpl. apply lookup_insert_eq.
Qed.

Lemma storeEvent_other hook payload meta id now st h :
  h <> hook ->
  recentByHook (snd (storeEvent hook payload meta id now st)) !! h = recentByHook st !! h.
Proof.
  intros Hne. unfold storeEvent, ensureHookLoaded.
  destruct (recentByHook st !! hook) eqn:E; simpl.
  - rewrite lookup_insert_ne by congruence. reflexivity.
  - rewrite !lookup_insert_ne by congruence. reflexivity.
Qed.

Lemma pop_firstn {A} n (arr : list A) :
  length arr = S n -> pop arr = firstn n arr.
Proof.
  intros Hlen. unfold pop. rewrite removelast_firstn_len, Hlen. reflexivity.
Qed.

(** With a bounded cache, [storeEvent] keeps the first
    [MAX_RECENT_PER_HOOK] elements of the extended array: it drops the
    element at the end of the array, and only when the array was full. *)
Lemma storeEvent_cache_bounded hook payload meta id now st :
  0 < MAX_RECENT_PER_HOOK -> bounded st ->
  recentByHook (snd (storeEvent hook payload meta id now st)) !! hook
  = Some (firstn MAX_RECENT_PER_HOOK (mkEvent id hook now meta payload :: cache_view st hook)).
Proof.
  intros Hmax Hb. rewrite storeEvent_cache. cbv zeta. f_equal.
  pose proof (bounded_cache_view st hook Hmax Hb) as Hlen.
  destruct (MAX_RECENT_PER_HOOK <? _) eqn:Hfull.
  - apply Nat.ltb_lt in Hfull. apply pop_firstn. simpl in *. lia.
  - apply Nat.ltb_ge in Hfull. symmetry. apply firstn_all2. exact Hfull.
Qed.

(** The cache bound is an invariant of [storeEvent]. *)
Lemma storeEvent_bounded hook payload meta id now st :
  0 < MAX_RECENT_PER_HOOK -> bounded st ->
  bounded (snd (storeEvent hook payload meta id now st)).
Proof.
  intros Hmax Hb h arr Harr.
  destruct (decide (h = hook)) as [-> | Hne].
  - rewrite (storeEvent_cache_bounded hook payload meta id now st Hmax Hb) in Harr.
    injection Harr as <-. rewrite length_firstn. lia.
  - rewrite storeEvent_other in Harr by exact Hne. exact (Hb h arr Harr).
Qed.

Lemma restart_bounded st : bounded (restart st).
Proof. intros h arr Harr. simpl in Harr. rewrite lookup_empty in Harr. discriminate. Qed.

Lemma firstn_cons_firstn {A} n (x : A) (l : list A) :
  0 < n -> firstn n (x :: firstn n l) = firstn n (x :: l).
Proof.
  intros Hn. destruct n as [|n]; [lia|]. simpl. f_equal.
  revert l. induction n as [|n IH]; intros l; [reflexivity|].
  destruct l as [|y l]; [reflexivity|]. simpl. f_equal. apply IH. lia.
Qed.

(** After any sequence of ingests the cache of the hook holds the first
    [MAX_RECENT_PER_HOOK] elements of: the ingested events, latest first,
    followed by what the hook held before, in the order it had there (file
    order, when that was loaded from the log). *)
Lemma ingest_all_cache hook reqs : forall st,
  0 < MAX_RECENT_PER_HOOK -> bounded st ->
  cache_view (ingest_all hook reqs st) hook
  = firstn MAX_RECENT_PER_HOOK (rev (map (event_of hook) reqs) ++ cache_view st hook)
  /\ bounded (ingest_all hook reqs st).
Proof.
  induction reqs as [|r reqs IH]; intros st Hmax Hb.
  - simpl. split; [| exact Hb].
    symmetry. apply firstn_all2. apply bounded_cache_view; assumption.
  - simpl ingest_all. unfold ingest_all in IH.
    set (st1 := snd (storeEvent hook (req_payload r) (req_meta r) (req_id r) (req_now r) st)).
    assert (Hb1 : bounded st1) by (apply storeEvent_bounded; assumption).
    destruct (IH st1 Hmax Hb1) as [Hcache Hbounded]. split; [| exact Hbounded].
    unfold ingest_all. simpl fold_left. fold st1. rewrite Hcache.
    assert (Hview : cache_view st1 hook
                    = firstn MAX_RECENT_PER_HOOK (event_of hook r :: cache_view st hook)).
    { unfold cache_view at 1. unfold st1.
      rewrite (storeEvent_cache_bounded hook _ _ _ _ st Hmax Hb). reflexivity. }
    rewrite Hview. simpl map. simpl rev. rewrite <- app_assoc. simpl app.
    generalize (rev (map (event_of hook) reqs)) as newer.
    intros newer. induction newer as [|e newer IHn].
    + simpl app. rewrite firstn_firstn, Nat.min_id. reflexivity.
    + simpl app. rewrite <- (firstn_cons_firstn _ e (newer ++ firstn _ _)) by exact Hmax.
      rewrite IHn. apply firstn_cons_firstn. exact Hmax.
Qed.

End CacheFacts.

(** *** Hydrated caches are in file order *)

(** The first ingest after a restart, when the log tail fills the cache:
    the new event goes in front of the loaded records, which are in file
    order, and the record dropped at the end of the array is the last line
    of the log, the most recent one. *)
Lemma storeEvent_evicts_last_loaded `{env : Env} hook payload meta id now st older newest :
  recentByHook st !! hook = None ->
  loadHook hook st = older ++ [newest] ->
  length (older ++ [newest]) = MAX_RECENT_PER_HOOK ->
  recentByHook (snd (storeEvent hook payload meta id now st)) !! hook
  = Some (mkEvent id hook now meta payload :: older).
Proof.
  intros Hcold Hload Hfull. rewrite storeEvent_cache. cbv zeta. f_equal.
  unfold cache_view. rewrite Hcold, Hload.
  assert ((MAX_RECENT_PER_HOOK <? length (mkEvent id hook now meta payload :: older ++ [newest]))
          = true) as ->.
  { apply Nat.ltb_lt. simpl. rewrite Hfull. lia. }
  unfold pop. change (mkEvent id hook now meta payload :: older ++ [newest])
    with ((mkEvent id hook now meta payload :: older) ++ [newest]).
  apply removelast_last.
Qed.

(** C1, at the failing input.  Bookings 1 and 2 are ingested, the process
    restarts on their log, and booking 3 is ingested.  With the default
    limit the cache is 3, 1, 2, which is not most-recent-first.  With a
    limit of two events the cache that was hydrated as 1, 2 becomes 3, 1:
    the event evicted is booking 2, the most recent of the cached events,
    and the oldest one stays; without the restart the same ingests leave
    3, 2. *)
Theorem storeEvent_after_hydration_keeps_file_order :
  Scenario.ids (cache_view (env := default_env) Scenario.third_after_restart "tracks")
  = [Some (JStr "evt-3"); Some (JStr "evt-1"); Some (JStr "evt-2")] /\
  ~ StronglySorted not_older
      (cache_view (env := default_env) Scenario.third_after_restart "tracks") /\
  Scenario.ids (cache_view (env := small_env 2 2) (restart SmallCache.two_bookings) "tracks")
  = [Some (JStr "evt-1"); Some (JStr "evt-2")] /\
  Scenario.ids (cache_view (env := small_env 2 2) SmallCache.third_after_restart "tracks")
  = [Some (JStr "evt-3"); Some (JStr "evt-1")] /\
  Scenario.ids (cache_view (env := small_env 2 2) SmallCache.third_without_restart "tracks")
  = [Some (JStr "evt-3"); Some (JStr "evt-2")].
Proof.
  split; [vm_compute; reflexivity | split].
  - assert (cache_view (env := default_env) Scenario.third_after_restart "tracks"
            = [mkEvent "evt-3" "tracks" "2024-05-01T10:00:02.000Z" sample_meta
                 (booking_payload "53");
               mkEvent "evt-1" "tracks" "2024-05-01T10:00:00.000Z" sample_meta
                 (booking_payload "51");
               mkEvent "evt-2" "tracks" "2024-05-01T10:00:01.000Z" sample_meta
                 (booking_payload "52")]) as -> by (vm_compute; reflexivity).
    intros Hs. apply StronglySorted_inv in Hs as [Hs _].
    apply StronglySorted_inv in Hs as [_ Hf].
    inversion Hf as [|? ? Hbad _]; subst. vm_compute in Hbad. discriminate.
  - repeat (match goal with |- _ /\ _ => split end); vm_compute; reflexivity.
Qed.

(** ** The selected-field filter *)

Section SelectedFieldFacts.
Context `{env : Env}.

Lemma eventMatchesSelectedField_blank evt fieldPath value :
  trim value = EmptyString -> eventMatchesSelectedField evt fieldPath value = Ok true.
Proof. intros Hv. unfold eventMatchesSelectedField. rewrite Hv. reflexivity. Qed.

Lemma names_field_guard fieldPath :
  names_field fieldPath = true ->
  negb (nonempty (trim fieldPath)) || String.eqb (trim fieldPath) "any"
    || String.eqb (trim fieldPath) "fulltext" = false.
Proof.
  unfold names_field. intros Hf.
  apply andb_true_iff in Hf as [Hf Hfull]. apply andb_true_iff in Hf as [Hne Hany].
  rewrite Hne. apply negb_true_iff in Hany, Hfull. rewrite Hany, Hfull. reflexivity.
Qed.

(** The filter on a named field answers by the text [stringifySafe] gives
    for what the path resolves to, and throws when there is no text. *)
Lemma eventMatchesSelectedField_named evt fieldPath value :
  nonempty (trim value) = true -> names_field fieldPath = true ->
  eventMatchesSelectedField evt fieldPath value
  = match stringifySafe (getByPath evt (trim fieldPath)) with
    | Some text => Ok (includes (toLowerCase text) (toLowerCase (trim value)))
    | None => Throw
    end.
Proof.
  intros Hv Hf. unfold eventMatchesSelectedField. cbv zeta.
  rewrite toLowerCase_nonempty, Hv. simpl negb. cbv iota.
  rewrite (names_field_guard fieldPath Hf).
  destruct (stringifySafe _); reflexivity.
Qed.

(** A path that resolves to a JSON value: the filter answers by
    case-insensitive containment of the trimmed value in the stringified
    resolved value. *)
Lemma eventMatchesSelectedField_resolved evt fieldPath value got :
  nonempty (trim value) = true -> names_field fieldPath = true ->
  getByPath evt (trim fieldPath) = Some (Plain got) ->
  eventMatchesSelectedField evt fieldPath value
  = Ok (includes (toLowerCase (stringifySafe_val got)) (toLowerCase (trim value))).
Proof.
  intros Hv Hf Hgot. rewrite (eventMatchesSelectedField_named evt fieldPath value Hv Hf), Hgot.
  reflexivity.
Qed.

(** A path that does not resolve: [stringifySafe] returns [undefined] and
    the call of [toLowerCase] on it throws. *)
Lemma eventMatchesSelectedField_unresolved evt fieldPath value :
  nonempty (trim value) = true -> names_field fieldPath = true ->
  getByPath evt (trim fieldPath) = None ->
  eventMatchesSelectedField evt fieldPath value = Throw.
Proof.
  intros Hv Hf Hgot. rewrite (eventMatchesSelectedField_named evt fieldPath value Hv Hf), Hgot.
  reflexivity.
Qed.

End SelectedFieldFacts.

(** C2, at the failing input.  On the sample event the filter on
    [payload.Driver.Callsign] with value 51 matches, and with value 52 it
    does not; the path [payload.Vehicle.Callsign] does not resolve, and
    there the filter neither matches nor rejects: it throws, and the whole
    listing request of the hook ends in the answer of the error
    middleware. *)
Theorem selected_field_unresolved_path_throws :
  eventMatchesSelectedField (env := default_env) booking_event
    "payload.Driver.Callsign" "51" = Ok true /\
  eventMatchesSelectedField (env := default_env) booking_event
    "payload.Driver.Callsign" "52" = Ok false /\
  getByPath (env := default_env) booking_event "payload.Vehicle.Callsign" = None /\
  eventMatchesSelectedField (env := default_env) booking_event
    "payload.Vehicle.Callsign" "51" = Throw /\
  eventMatches (env := default_env) booking_event EmptyString
    "payload.Vehicle.Callsign" "51" = Throw /\
  fst (api_hook (env := default_env) "tracks" None (Some "payload.Vehicle.Callsign")
         (Some "51") None Scenario.one_booking) = ServerError.
Proof.
  repeat (match goal with |- _ /\ _ => split end); vm_compute; reflexivity.
Qed.

(** ** Instances of the general statements *)

Lemma csvEscape_quote_doubling_law_witness :
  let v := "a,b" +:+ String Json.dquote ("c" +:+ String "010"%char "d") in
  (exists c, occurs c v /\ csv_special c) /\
  csvEscape (Some v)
  = String Json.dquote (double_quotes v +:+ String Json.dquote EmptyString) /\
  csvUnescape (csvEscape (Some v)) = v.
Proof.
  cbv zeta.
  assert (Hsp : exists c,
            occurs c ("a,b" +:+ String Json.dquote ("c" +:+ String "010"%char "d"))
            /\ csv_special c).
  { exists ","%char. split; [simpl; auto | left; reflexivity]. }
  destruct (csvEscape_quote_doubling_law
              ("a,b" +:+ String Json.dquote ("c" +:+ String "010"%char "d")))
    as (Hwrap & _ & Hround).
  split; [exact Hsp | split; [exact (Hwrap Hsp) | exact Hround]].
Defined.

Lemma eventMatches_conjunctive_witness :
  selected_present "51" = true /\
  eventMatchesSelectedField (env := default_env) booking_event
    "payload.Driver.Callsign" "51" = Ok true /\
  advanced_accepts booking_event "callsign:51 tracks" /\
  eventMatches (env := default_env) booking_event "callsign:51 tracks"
    "payload.Driver.Callsign" "51" = Ok true /\
  eventMatches (env := default_env) booking_event "   "
    "payload.Driver.Callsign" EmptyString = Ok true.
Proof.
  destruct (eventMatches_conjunctive (env := default_env) booking_event "callsign:51 tracks"
              "payload.Driver.Callsign" "51") as [Hiff _].
  destruct (eventMatches_conjunctive (env := default_env) booking_event "   "
              "payload.Driver.Callsign" EmptyString) as [_ Habsent].
  assert (Htokens : parseTokens (normalizeQ (Some "callsign:51 tracks"))
                    = {| fieldTokens := [("callsign", "51")]; textTokens := ["tracks"] |})
    by (vm_compute; reflexivity).
  assert (Hadv : advanced_accepts booking_event "callsign:51 tracks").
  { unfold advanced_accepts. cbv zeta. rewrite Htokens. simpl fieldTokens. simpl textTokens.
    split; (constructor; [vm_compute; reflexivity | constructor]). }
  assert (Hsel : eventMatchesSelectedField (env := default_env) booking_event
                   "payload.Driver.Callsign" "51" = Ok true) by (vm_compute; reflexivity).
  split; [reflexivity | split; [exact Hsel | split; [exact Hadv | split]]].
  - apply Hiff. split; [intros _; exact Hsel | exact Hadv].
  - apply Habsent; reflexivity.
Defined.

Lemma api_events_stable_aggregation_witness :
  let accepted := [Scenario.tie_a; Scenario.tie_b] in
  let items := [summarised Scenario.tie_a "BookingCreated | D CS 51";
                summarised Scenario.tie_b "BookingCreated | D CS 52"] in
  Forall timestamped (all_events (env := default_env) Scenario.two_hooks_tied) /\
  List.filter (accepts (request_matcher (env := default_env) None None None))
    (all_events (env := default_env) Scenario.two_hooks_tied) = accepted /\
  fst (api_events (env := default_env) None None None None Scenario.two_hooks_tied)
  = Listing 2 items /\
  StronglySorted not_older (sort (Env := default_env) byReceivedAtDesc accepted) /\
  List.filter (received_at "2024-05-01T10:00:00.000Z")
    (sort (Env := default_env) byReceivedAtDesc accepted) = accepted /\
  fst (api_events (env := default_env) None None None None
         (after_aggregations (env := default_env) None None None None 3
            Scenario.two_hooks_tied))
  = fst (api_events (env := default_env) None None None None Scenario.two_hooks_tied).
Proof.
  cbv zeta.
  assert (Hts : Forall timestamped (all_events (env := default_env) Scenario.two_hooks_tied)).
  { vm_compute. repeat constructor; eexists; reflexivity. }
  assert (Hacc : List.filter (accepts (request_matcher (env := default_env) None None None))
                   (all_events (env := default_env) Scenario.two_hooks_tied)
                 = [Scenario.tie_a; Scenario.tie_b]) by (vm_compute; reflexivity).
  destruct (api_events_stable_aggregation (env := default_env) None None None None
              Scenario.two_hooks_tied
              [summarised Scenario.tie_a "BookingCreated | D CS 51";
               summarised Scenario.tie_b "BookingCreated | D CS 52"] Hts)
    as (Hanswer & _ & Hsorted & Hstable & Hrepeat);
    [vm_compute; reflexivity | vm_compute; reflexivity |].
  rewrite Hacc in Hanswer, Hsorted, Hstable.
  split; [exact Hts | split; [exact Hacc | split; [exact Hanswer | split; [exact Hsorted|]]]].
  split; [| exact (Hrepeat 3)].
  rewrite Hstable. vm_compute. reflexivity.
Defined.

(** ** Field tokens are normalised *)

Lemma lower_char_idempotent c : lower_char (lower_char c) = lower_char c.
Proof. destruct c as [[] [] [] [] [] [] [] []]; reflexivity. Qed.

Lemma toLowerCase_idempotent s : toLowerCase (toLowerCase s) = toLowerCase s.
Proof.
  induction s as [|c s IH]; [reflexivity|].
  simpl. rewrite lower_char_idempotent, IH. reflexivity.
Qed.

Lemma field_token_of_normal t k v :
  field_token_of t = Some (k, v) ->
  k <> EmptyString /\ v <> EmptyString /\ toLowerCase k = k /\ toLowerCase v = v.
Proof.
  unfold field_token_of.
  destruct (cut_at ":"%char t) as [[before rest]|]; [| discriminate].
  destruct (nonempty before); [| discriminate].
  destruct (nonempty (trim before)) eqn:Hk; [| discriminate].
  destruct (nonempty (strip_quotes (trim rest))) eqn:Hv; [| discriminate].
  simpl. intros [= <- <-].
  rewrite !toLowerCase_idempotent. repeat split.
  - intros He. rewrite <- toLowerCase_nonempty, He in Hk. discriminate.
  - intros He. rewrite <- toLowerCase_nonempty, He in Hv. discriminate.
Qed.

Lemma parseTokens_fieldTokens_fold tokens acc :
  fieldTokens
    (fold_left
       (fun acc t =>
          match field_token_of t with
          | Some ft => {| fieldTokens := fieldTokens acc ++ [ft]; textTokens := textTokens acc |}
          | None =>
              match text_token_of t with
              | Some txt =>
                  {| fieldTokens := fieldTokens acc; textTokens := textTokens acc ++ [txt] |}
              | None => acc
              end
          end) tokens acc)
  = fieldTokens acc ++ omap field_token_of tokens.
Proof.
  revert acc. induction tokens as [|t tokens IH]; intros acc.
  - simpl. rewrite app_nil_r. reflexivity.
  - simpl fold_left. rewrite IH. cbn [omap list_omap]. fold (omap field_token_of tokens).
    destruct (field_token_of t) as [ft|].
    + simpl. rewrite <- app_assoc. reflexivity.
    + destruct (text_token_of t); reflexivity.
Qed.

(** Every field token [parseTokens] produces has a non-empty lower-cased
    key and a non-empty lower-cased value. *)
Lemma parseTokens_field_tokens_normal q k v :
  In (k, v) (fieldTokens (parseTokens q)) ->
  k <> EmptyString /\ v <> EmptyString /\ toLowerCase k = k /\ toLowerCase v = v.
Proof.
  unfold parseTokens. rewrite parseTokens_fieldTokens_fold. simpl.
  induction (tokenizeQuery q) as [|t tokens IH]; [intros []|].
  cbn [omap list_omap]. fold (omap field_token_of tokens).
  destruct (field_token_of t) as [[k' v']|] eqn:Ht; [| exact IH].
  intros [[= -> ->] | Hin]; [exact (field_token_of_normal t k v Ht) | exact (IH Hin)].
Qed.

(** * Further properties of the code *)

(** ** Trimming *)

Lemma trimStart_fixed s :
  match s with String c _ => is_space c = false | EmptyString => True end ->
  trimStart s = s.
Proof. destruct s as [|c s]; [reflexivity|]. simpl. intros ->. reflexivity. Qed.

Lemma trimEnd_idempotent s : trimEnd (trimEnd s) = trimEnd s.
Proof.
  induction s as [|c s IH]; [reflexivity|].
  simpl. destruct (trimEnd s) as [|d r] eqn:E.
  - destruct (is_space c) eqn:Hc; [reflexivity|]. simpl. rewrite Hc. reflexivity.
  - cbn [trimEnd]. fold trimEnd. simpl in IH. rewrite IH. reflexivity.
Qed.

Lemma trimEnd_head c s :
  is_space c = false -> exists r, trimEnd (String c s) = String c r.
Proof.
  intros Hc. simpl. destruct (trimEnd s) as [|d r].
  - rewrite Hc. eexists. reflexivity.
  - eexists. reflexivity.
Qed.

Lemma trimStart_trimEnd_trimStart s : trimStart (trimEnd (trimStart s)) = trimEnd (trimStart s).
Proof.
  destruct (trimStart s) as [|c t] eqn:E; [reflexivity|].
  pose proof (trimStart_head c t s E) as Hc.
  destruct (trimEnd_head c t Hc) as (r & ->).
  simpl. rewrite Hc. reflexivity.
Qed.

Lemma trim_idempotent s : trim (trim s) = trim s.
Proof.
  unfold trim. rewrite trimStart_trimEnd_trimStart. apply trimEnd_idempotent.
Qed.

Lemma trimEnd_no_space s : has_char is_space s = false -> trimEnd s = s.
Proof.
  induction s as [|c s IH]; [reflexivity|].
  simpl. intros Hs. apply orb_false_iff in Hs as [Hc Hs].
  rewrite (IH Hs). destruct s; [rewrite Hc|]; reflexivity.
Qed.

Lemma trim_no_space s : has_char is_space s = false -> trim s = s.
Proof.
  intros Hs. unfold trim.
  assert (trimStart s = s) as ->.
  { destruct s as [|c s]; [reflexivity|]. simpl in *.
    apply orb_false_iff in Hs as [-> _]. reflexivity. }
  apply trimEnd_no_space. exact Hs.
Qed.

Lemma trim_nonempty_no_edge_space s :
  trim s = s -> s <> EmptyString ->
  exists c r, s = String c r /\ is_space c = false.
Proof.
  intros Ht Hne. destruct s as [|c r]; [congruence|]. exists c, r. split; [reflexivity|].
  unfold trim in Ht. simpl in Ht. destruct (is_space c) eqn:Hc; [| reflexivity].
  exfalso.
  assert (String.length (trimEnd (trimStart r)) <= String.length r) as Hlen.
  { pose proof (trimStart_length r).
    assert (forall t, String.length (trimEnd t) <= String.length t) as Hend.
    { induction t as [|a t IHt]; simpl; [lia|].
      destruct (trimEnd t); [destruct (is_space a)|]; simpl in *; lia. }
    specialize (Hend (trimStart r)). lia. }
  rewrite Ht in Hlen. simpl in Hlen. lia.
Qed.

(** ** Hook names *)

Lemma all_chars_spec p s : all_chars p s = true <-> forall c, occurs c s -> p c = true.
Proof.
  induction s as [|a s IH]; simpl.
  - split; [intros _ c [] | reflexivity].
  - rewrite andb_true_iff, IH. split.
    + intros [Ha Hs] c [<- | Hc]; auto.
    + intros H. split; [apply H; left; reflexivity | intros c Hc; apply H; right; exact Hc].
Qed.

Lemma is_hook_char_not_space c : is_hook_char c = true -> is_space c = false.
Proof. destruct c as [[] [] [] [] [] [] [] []]; vm_compute; congruence. Qed.

Lemma all_hook_chars_no_space s : all_chars is_hook_char s = true -> has_char is_space s = false.
Proof.
  induction s as [|c s IH]; [reflexivity|]. simpl.
  intros H. apply andb_true_iff in H as [Hc Hs].
  rewrite (is_hook_char_not_space c Hc), (IH Hs). reflexivity.
Qed.

Section HookNames.
Context `{env : Env}.

Lemma isHookAllowed_iff hook :
  isHookAllowed hook = true <->
  1 <= String.length hook <= 40 /\
  (forall c, occurs c hook -> is_hook_char c = true) /\
  (HOOK_ALLOWLIST = [] \/ In hook HOOK_ALLOWLIST).
Proof.
  unfold isHookAllowed. rewrite <- all_chars_spec.
  destruct (nonempty hook) eqn:Hne; cbn [negb]; cbv iota.
  2:{ apply nonempty_false in Hne. subst hook. simpl. split; [discriminate | lia]. }
  destruct (all_chars is_hook_char hook) eqn:Hchars; cbn [andb negb].
  2:{ split; [discriminate | intros (_ & H & _); discriminate]. }
  destruct (1 <=? String.length hook) eqn:H1; cbn [andb negb].
  2:{ apply Nat.leb_gt in H1. split; [discriminate | lia]. }
  destruct (String.length hook <=? 40) eqn:H40; cbn [andb negb].
  2:{ apply Nat.leb_gt in H40. split; [discriminate | lia]. }
  apply Nat.leb_le in H1, H40.
  destruct HOOK_ALLOWLIST as [|x l] eqn:Hl; cbn [length Nat.eqb].
  - split; [intros _ | reflexivity]. repeat split; auto.
  - rewrite existsb_exists. split.
    + intros (y & Hy & Heq). apply String.eqb_eq in Heq. subst y.
      repeat split; auto.
    + intros (_ & _ & [Hnil | Hin]); [discriminate|].
      exists hook. split; [exact Hin | apply String.eqb_refl].
Qed.

Lemma isHookAllowed_trim hook : isHookAllowed hook = true -> trim hook = hook.
Proof.
  intros H. apply isHookAllowed_iff in H as (_ & Hchars & _).
  apply trim_no_space, all_hook_chars_no_space, all_chars_spec. exact Hchars.
Qed.

End HookNames.

(** X1. A hook name is allowed exactly when it has 1 to 40 characters, all
    of them letters, digits, underscore or hyphen, and is on the allowlist
    when there is one.  An allowed name therefore holds no dot, slash,
    backslash or NUL: the log file of an allowed hook lies directly in the
    data directory. *)
Theorem isHookAllowed_names_stay_in_data_dir `{env : Env} (hook : string) :
  (isHookAllowed hook = true <->
   1 <= String.length hook <= 40 /\
   (forall c, occurs c hook -> is_hook_char c = true) /\
   (HOOK_ALLOWLIST = [] \/ In hook HOOK_ALLOWLIST)) /\
  (isHookAllowed hook = true ->
   ~ occurs "."%char hook /\ ~ occurs "/"%char hook /\
   ~ occurs Json.backslash hook /\ ~ occurs "000"%char hook /\
   hook <> "*" /\ trim hook = hook).
Proof.
  split; [apply isHookAllowed_iff|].
  intros Hallowed. pose proof (isHookAllowed_trim hook Hallowed) as Htrim.
  apply isHookAllowed_iff in Hallowed as (_ & Hchars & _).
  repeat (match goal with |- _ /\ _ => split end); try exact Htrim;
    try (intros Hc; apply Hchars in Hc; vm_compute in Hc; discriminate).
  intros ->. specialize (Hchars "*"%char (or_introl eq_refl)). vm_compute in Hchars. discriminate.
Qed.

(** ** The list of hooks *)

Section ListingFacts.
Context `{env : Env}.

Lemma In_listHooksOnDisk st h :
  In h (listHooksOnDisk st) <-> isHookAllowed h = true /\ is_Some (files st !! h).
Proof.
  unfold listHooksOnDisk.
  assert (Hperm := sort_perm localeCompare
                     (List.filter isHookAllowed (map fst (map_to_list (files st))))).
  split.
  - intros Hin. apply (Permutation_in _ Hperm) in Hin.
    apply filter_In in Hin as [Hin Hallowed]. split; [exact Hallowed|].
    apply in_map_iff in Hin as ([k v] & <- & Hkv).
    apply list_elem_of_In, elem_of_map_to_list in Hkv. simpl. eauto.
  - intros [Hallowed [v Hv]].
    apply (Permutation_in _ (Permutation_sym Hperm)).
    apply filter_In. split; [| exact Hallowed].
    apply in_map_iff. exists (h, v). split; [reflexivity|].
    apply list_elem_of_In, elem_of_map_to_list. exact Hv.
Qed.

Lemma NoDup_listHooksOnDisk st : List.NoDup (listHooksOnDisk st).
Proof.
  unfold listHooksOnDisk.
  eapply Permutation_NoDup; [symmetry; apply sort_perm|].
  apply List.NoDup_filter. apply NoDup_ListNoDup.
  exact (NoDup_fst_map_to_list (files st)).
Qed.

Lemma listHooksOnDisk_nil st :
  (forall h, isHookAllowed h = true -> files st !! h = None) -> listHooksOnDisk st = [].
Proof.
  intros Hnone. destruct (listHooksOnDisk st) as [|h l] eqn:E; [reflexivity|].
  assert (In h (listHooksOnDisk st)) as Hin by (rewrite E; left; reflexivity).
  apply In_listHooksOnDisk in Hin as [Hallowed [v Hv]].
  rewrite (Hnone h Hallowed) in Hv. discriminate.
Qed.

End ListingFacts.

(** X2. The hook list holds the wildcard followed by exactly the allowed
    hook names that have a log file, each once; the wildcard itself is
    never the name of a hook. *)
Theorem api_hooks_lists_allowed_logs_once `{env : Env} (st : state) :
  (forall h, In h (api_hooks st) <->
             h = "*" \/ (isHookAllowed h = true /\ is_Some (files st !! h))) /\
  List.NoDup (api_hooks st) /\
  isHookAllowed "*" = false.
Proof.
  assert (Hstar : isHookAllowed "*" = false) by reflexivity.
  unfold api_hooks. split; [| split; [| exact Hstar]].
  - intros h. simpl. rewrite In_listHooksOnDisk. split.
    + intros [<- | H]; [left; reflexivity | right; exact H].
    + intros [-> | H]; [left; reflexivity | right; exact H].
  - constructor; [| apply NoDup_listHooksOnDisk].
    intros Hin. apply In_listHooksOnDisk in Hin as [Hallowed _]. congruence.
Qed.

(** ** The webhook receiver *)

Section ReceiverFacts.
Context `{env : Env}.

Lemma ensureHookLoaded_files hook st : files (snd (ensureHookLoaded hook st)) = files st.
Proof. unfold ensureHookLoaded. destruct (recentByHook st !! hook); reflexivity. Qed.

Lemma storeEvent_files hook payload meta id now st :
  files (snd (storeEvent hook payload meta id now st))
  = appendFile hook
      (Json.stringify (mkEvent id hook now meta payload) +:+ String newline EmptyString)
      (files st).
Proof.
  unfold storeEvent. pose proof (ensureHookLoaded_files hook st) as Hf.
  destruct (ensureHookLoaded hook st) as [arr st1]. simpl in *. rewrite Hf. reflexivity.
Qed.

Lemma storeEvent_fst hook payload meta id now st :
  fst (storeEvent hook payload meta id now st) = mkEvent id hook now meta payload.
Proof. unfold storeEvent. destruct (ensureHookLoaded hook st). reflexivity. Qed.

(** The new event is the first element of the cache whenever the cache may
    hold an event at all. *)
Lemma storeEvent_head hook payload meta id now st :
  0 < MAX_RECENT_PER_HOOK ->
  exists rest,
    recentByHook (snd (storeEvent hook payload meta id now st)) !! hook
    = Some (mkEvent id hook now meta payload :: rest).
Proof.
  intros Hmax. rewrite storeEvent_cache. cbv zeta.
  destruct (MAX_RECENT_PER_HOOK <? _) eqn:Hfull; [| eexists; reflexivity].
  apply Nat.ltb_lt in Hfull. simpl in Hfull.
  destruct (cache_view st hook) as [|x arr]; [simpl in Hfull; lia|].
  eexists. unfold pop. simpl. reflexivity.
Qed.

Lemma post_hook_accepted r id now st :
  let hook := trim (wh_hook r) in
  String.eqb hook "api" = false -> String.eqb hook "dashboard" = false ->
  isHookAllowed hook = true ->
  post_hook r id now st
  = (Accepted (Some (JStr id)) (Some (JStr hook)),
     snd (storeEvent hook (webhook_payload (wh_body r)) (webhook_meta r) id now st)).
Proof.
  intros hook Hapi Hdash Hallowed. unfold post_hook. fold hook.
  rewrite Hapi, Hdash, Hallowed. simpl orb. simpl negb. cbv iota.
  pose proof (storeEvent_fst hook (webhook_payload (wh_body r)) (webhook_meta r) id now st)
    as Hevt.
  destruct (storeEvent hook _ _ id now st) as [evt st1]. simpl in Hevt. subst evt.
  reflexivity.
Qed.

End ReceiverFacts.

(** X3. The receiver answers 404 and changes neither the files nor the
    caches when the trimmed hook parameter is [api], [dashboard] or a name
    that is not allowed. *)
Theorem post_hook_rejection_changes_nothing `{env : Env}
    (r : webhook_request) (id now : string) (st : state) :
  trim (wh_hook r) = "api" \/ trim (wh_hook r) = "dashboard" \/
  isHookAllowed (trim (wh_hook r)) = false ->
  post_hook r id now st = (UnknownWebhook, st).
Proof.
  intros Hcase. unfold post_hook. cbv zeta.
  destruct (String.eqb (trim (wh_hook r)) "api") eqn:Hapi; [reflexivity|].
  destruct (String.eqb (trim (wh_hook r)) "dashboard") eqn:Hdash; [reflexivity|].
  simpl orb. cbv iota.
  destruct Hcase as [H | [H | H]].
  - rewrite H in Hapi. discriminate.
  - rewrite H in Hdash. discriminate.
  - rewrite H. reflexivity.
Qed.

(** X4. The payload the receiver stores is never [null]: a missing body, a
    [null] body, a blank text body and a text body that parses to [null]
    are all stored as the object with the single property [_empty: true];
    a text body that does not parse is stored untrimmed under [_raw]; a
    text body that parses to anything else is stored parsed, and any other
    body as it is. *)
Theorem webhook_payload_never_null `{env : Env} (body : option json) :
  webhook_payload body <> JNull /\
  (body = None \/ body = Some JNull -> webhook_payload body = JObj [("_empty", JBool true)]) /\
  (forall s, body = Some (JStr s) ->
     webhook_payload body
     = if negb (nonempty (trim s)) then JObj [("_empty", JBool true)]
       else match JSON_parse (trim s) with
            | None => JObj [("_raw", JStr s)]
            | Some JNull => JObj [("_empty", JBool true)]
            | Some v => v
            end) /\
  (forall v, body = Some v -> v <> JNull -> (forall s, v <> JStr s) ->
     webhook_payload body = v).
Proof.
  split; [| split; [| split]].
  - unfold webhook_payload.
    destruct body as [[| b | z | s | items | props]|]; try discriminate.
    destruct (nonempty (trim s)); [| discriminate].
    destruct (JSON_parse (trim s)) as [[]|]; discriminate.
  - intros [-> | ->]; reflexivity.
  - intros s ->. unfold webhook_payload.
    destruct (nonempty (trim s)); [| reflexivity].
    destruct (JSON_parse (trim s)) as [[]|]; reflexivity.
  - intros v -> Hnull Hstr. destruct v; try reflexivity; [congruence|].
    exfalso. eapply Hstr. reflexivity.
Qed.

(** ** Lookup of one event *)

Section ItemFacts.
Context `{env : Env}.

Lemma find_by_id_found id arr item :
  find_by_id id arr = Ok (Some item) ->
  In item arr /\ Json.get item "id" = Some (JStr id).
Proof.
  induction arr as [|x arr IH]; [discriminate|].
  simpl. destruct (has_id id x) as [[|]|] eqn:Hx; [| | discriminate].
  - intros [= <-]. split; [left; reflexivity|].
    unfold has_id in Hx. destruct x; try discriminate;
      (destruct (Json.get _ "id") as [[| | | sid | |]|]; try discriminate;
       injection Hx as Hx; apply String.eqb_eq in Hx; subst; reflexivity).
  - intros Hfind. destruct (IH Hfind) as [Hin Hid]. split; [right; exact Hin | exact Hid].
Qed.

Lemma find_by_id_none id arr :
  Forall (fun x => x <> JNull) arr ->
  (forall x, In x arr -> Json.get x "id" <> Some (JStr id)) ->
  find_by_id id arr = Ok None.
Proof.
  induction 1 as [|x arr Hx Harr IH]; intros Hno; [reflexivity|].
  simpl. assert (has_id id x = Ok false) as ->.
  { specialize (Hno x (or_introl eq_refl)). unfold has_id.
    destruct x; try congruence;
      (destruct (Json.get _ "id") as [[| | | sid | |]|]; try reflexivity;
       destruct (String.eqb sid id) eqn:E; [| reflexivity];
       apply String.eqb_eq in E; subst; congruence). }
  apply IH. intros y Hy. apply Hno. right. exact Hy.
Qed.

Lemma api_hook_item_spec hookParam id st :
  isHookAllowed (trim hookParam) = true ->
  api_hook_item hookParam id st
  = (match find_by_id id (cache_view st (trim hookParam)) with
     | Throw => ItemError
     | Ok (Some item) => if Json.truthy item then Item item else ItemNotFound
     | Ok None => ItemNotFound
     end, snd (ensureHookLoaded (trim hookParam) st)).
Proof.
  intros Hallowed. unfold api_hook_item. cbv zeta. rewrite Hallowed. simpl negb. cbv iota.
  pose proof (ensureHookLoaded_fst (trim hookParam) st) as Hfst.
  destruct (ensureHookLoaded (trim hookParam) st) as [arr st1]. simpl in Hfst. subst arr.
  simpl snd. destruct (find_by_id id _) as [[item|]|]; [| reflexivity | reflexivity].
  destruct (Json.truthy item); reflexivity.
Qed.

End ItemFacts.

(** X5. An event that was just stored is found under its id: when the
    cache may hold at least one event, a lookup of the id of an accepted
    webhook request, on its hook, answers with the stored event, whatever
    the cache held before. *)
Theorem api_hook_item_finds_stored_event `{env : Env}
    (r : webhook_request) (id now : string) (st : state) :
  0 < MAX_RECENT_PER_HOOK ->
  trim (wh_hook r) <> "api" -> trim (wh_hook r) <> "dashboard" ->
  isHookAllowed (trim (wh_hook r)) = true ->
  fst (post_hook r id now st) = Accepted (Some (JStr id)) (Some (JStr (trim (wh_hook r)))) /\
  fst (api_hook_item (wh_hook r) id (snd (post_hook r id now st)))
  = Item (mkEvent id (trim (wh_hook r)) now (webhook_meta r) (webhook_payload (wh_body r))).
Proof.
  intros Hmax Hapi Hdash Hallowed.
  apply String.eqb_neq in Hapi, Hdash.
  rewrite (post_hook_accepted r id now st Hapi Hdash Hallowed). simpl fst. simpl snd.
  split; [reflexivity|].
  rewrite api_hook_item_spec by exact Hallowed. simpl fst.
  destruct (storeEvent_head (trim (wh_hook r)) (webhook_payload (wh_body r))
              (webhook_meta r) id now st Hmax) as (rest & Hcache).
  unfold cache_view. rewrite Hcache.
  simpl. rewrite String.eqb_refl. reflexivity.
Qed.

(** X6. A lookup answers only with a cached event of the hook whose [id]
    is the requested one, and it answers 404 when the hook is not allowed
    or when no cached event of the hook has that id; it cannot fail on a
    cache without [null] entries. *)
Theorem api_hook_item_answers_by_id `{env : Env} (hookParam id : string) (st : state) :
  (isHookAllowed (trim hookParam) = false ->
   api_hook_item hookParam id st = (ItemNotFound, st)) /\
  (forall item, fst (api_hook_item hookParam id st) = Item item ->
     In item (cache_view st (trim hookParam)) /\ Json.get item "id" = Some (JStr id)) /\
  (Forall (fun x => x <> JNull) (cache_view st (trim hookParam)) ->
   (forall x, In x (cache_view st (trim hookParam)) -> Json.get x "id" <> Some (JStr id)) ->
   fst (api_hook_item hookParam id st) = ItemNotFound).
Proof.
  split; [| split].
  - intros Hno. unfold api_hook_item. cbv zeta. rewrite Hno. reflexivity.
  - intros item. destruct (isHookAllowed (trim hookParam)) eqn:Hallowed.
    + rewrite api_hook_item_spec by exact Hallowed. simpl fst.
      destruct (find_by_id id _) as [[found|]|] eqn:Hfind; try discriminate.
      destruct (Json.truthy found); [| discriminate].
      intros [= <-]. apply (find_by_id_found id _ _ Hfind).
    + unfold api_hook_item. cbv zeta. rewrite Hallowed. discriminate.
  - intros Hnn Hno. destruct (isHookAllowed (trim hookParam)) eqn:Hallowed.
    + rewrite api_hook_item_spec by exact Hallowed. simpl fst.
      rewrite (find_by_id_none id _ Hnn Hno). reflexivity.
    + unfold api_hook_item. cbv zeta. rewrite Hallowed. reflexivity.
Qed.

(** ** Clearing *)

Section ClearFacts.
Context `{env : Env}.

Lemma lookup_unlink_all hooks : forall fs h,
  fold_left (fun fs h => unlink h fs) hooks fs !! h
  = if existsb (String.eqb h) hooks then None else fs !! h.
Proof.
  induction hooks as [|x hooks IH]; intros fs h; [reflexivity|].
  simpl. rewrite IH. unfold unlink.
  destruct (existsb (String.eqb h) hooks); [rewrite orb_true_r; reflexivity|].
  rewrite orb_false_r. destruct (String.eqb h x) eqn:E.
  - apply String.eqb_eq in E. subst x. apply lookup_delete_eq.
  - apply String.eqb_neq in E. apply lookup_delete_ne. congruence.
Qed.

Lemma existsb_eqb_In h (l : list string) : existsb (String.eqb h) l = true <-> In h l.
Proof.
  rewrite existsb_exists. split.
  - intros (x & Hx & E). apply String.eqb_eq in E. subst. exact Hx.
  - intros Hin. exists h. split; [exact Hin | apply String.eqb_refl].
Qed.

Lemma api_clear_all body st :
  clear_target body = Ok "*" ->
  api_clear body st
  = (ClearedAll (length (listHooksOnDisk st)),
     {| files := fold_left (fun fs h => unlink h fs) (listHooksOnDisk st) (files st);
        recentByHook := ∅ |}).
Proof. intros Ht. unfold api_clear. rewrite Ht. reflexivity. Qed.

End ClearFacts.

(** X7. A clear request that names no hook clears everything that the
    server lists: this is the case for a missing body, a text body that
    does not parse, and a body without a truthy [hook].  The answer counts
    the listed hooks; afterwards no cache is loaded, no allowed hook has a
    log file, the hook list is empty and the aggregation is empty.  Files
    whose names are not allowed hook names are left as they were. *)
Theorem api_clear_wildcard_clears_listed_hooks `{env : Env} (body : option json) (st : state) :
  (clear_target None = Ok "*" /\
   (forall s, JSON_parse s = None -> clear_target (Some (JStr s)) = Ok "*") /\
   (forall props, Json.lookup_prop "hook" props = None ->
      clear_target (Some (JObj props)) = Ok "*")) /\
  (clear_target body = Ok "*" ->
   let st' := snd (api_clear body st) in
   fst (api_clear body st) = ClearedAll (length (listHooksOnDisk st)) /\
   recentByHook st' = ∅ /\
   (forall h, isHookAllowed h = true -> files st' !! h = None) /\
   (forall h, isHookAllowed h = false -> files st' !! h = files st !! h) /\
   listHooksOnDisk st' = [] /\
   all_events st' = [] /\
   (forall q field value limit, fst (api_events q field value limit st') = Listing 0 [])).
Proof.
  split.
  - split; [reflexivity | split].
    + intros s Hs. unfold clear_target. rewrite Hs. reflexivity.
    + intros props Hp. unfold clear_target. simpl. rewrite Hp. reflexivity.
  - intros Ht. rewrite (api_clear_all body st Ht). cbv zeta. simpl fst. simpl snd.
    set (st' := {| files := _; recentByHook := ∅ |}).
    assert (Hallowed : forall h, isHookAllowed h = true -> files st' !! h = None).
    { intros h Hh. simpl. rewrite lookup_unlink_all.
      destruct (existsb (String.eqb h) (listHooksOnDisk st)) eqn:E; [reflexivity|].
      destruct (files st !! h) as [v|] eqn:Hv; [| reflexivity].
      assert (In h (listHooksOnDisk st)) as Hin by (apply In_listHooksOnDisk; eauto).
      apply existsb_eqb_In in Hin. congruence. }
    assert (Hlist : listHooksOnDisk st' = []) by (apply listHooksOnDisk_nil; exact Hallowed).
    assert (Hall : all_events st' = []) by (unfold all_events; rewrite Hlist; reflexivity).
    repeat (match goal with |- _ /\ _ => split end);
      [reflexivity | reflexivity | exact Hallowed | | exact Hlist | exact Hall |].
    + intros h Hh. simpl. rewrite lookup_unlink_all.
      destruct (existsb (String.eqb h) (listHooksOnDisk st)) eqn:E; [| reflexivity].
      apply existsb_eqb_In, In_listHooksOnDisk in E as [E _]. congruence.
    + intros q field value limit. rewrite api_events_spec. cbv zeta.
      rewrite Hall. simpl. rewrite sort_nil. unfold listing, page, slice_first.
      destruct (Nat.eqb (parseLimit limit) 0); [reflexivity|].
      rewrite firstn_nil. reflexivity.
Qed.

(** X8. A clear request that names an allowed hook removes the log file
    and the cache entry of that hook, so that the hook has no events
    afterwards, and leaves every other hook with its file and its cached
    array; a name that is neither the wildcard nor allowed is answered 404
    and nothing changes.  When the conversion of the named value to a
    string throws, as it does for the body [{"hook":{"toString":1}}], the
    request ends in the answer of the error middleware and nothing
    changes either. *)
Theorem api_clear_hook_clears_only_that_hook `{env : Env} (body : option json) (st : state) :
  (clear_target body = Throw -> api_clear body st = (ClearError, st)) /\
  clear_target (Some (JObj [("hook", JObj [("toString", JNum 1)])])) = Throw /\
  (forall hook, clear_target body = Ok hook -> hook <> "*" ->
     let st' := snd (api_clear body st) in
     (isHookAllowed hook = false -> api_clear body st = (ClearNotFound, st)) /\
     (isHookAllowed hook = true ->
      fst (api_clear body st) = ClearedHook hook /\
      files st' !! hook = None /\ recentByHook st' !! hook = None /\
      cache_view st' hook = [] /\
      (forall h, h <> hook ->
         files st' !! h = files st !! h /\ recentByHook st' !! h = recentByHook st !! h /\
         cache_view st' h = cache_view st h))).
Proof.
  split; [| split; [reflexivity|]].
  - intros Ht. unfold api_clear. rewrite Ht. reflexivity.
  - intros hook Ht Hne st'. subst st'. apply String.eqb_neq in Hne.
    unfold api_clear. rewrite Ht, Hne. split.
    + intros ->. reflexivity.
    + intros ->. simpl negb. cbv iota. simpl fst. simpl snd. unfold unlink.
      split; [reflexivity | split; [apply lookup_delete_eq | split; [apply lookup_delete_eq |]]].
      split.
      * unfold cache_view, loadHook. simpl. rewrite !lookup_delete_eq. reflexivity.
      * intros h Hh. unfold cache_view, loadHook. simpl.
        rewrite !lookup_delete_ne by congruence. repeat split; reflexivity.
Qed.

(** ** What the read requests leave behind *)

Section EffectFacts.
Context `{env : Env}.

Lemma api_hook_same_view hookParam q field value limit st :
  same_view st (snd (api_hook hookParam q field value limit st)).
Proof.
  rewrite api_hook_spec. cbv zeta.
  destruct (isHookAllowed (trim hookParam)); simpl negb; cbv iota; [| apply same_view_refl].
  destruct (existsb _ _); apply ensureHookLoaded_same_view.
Qed.

Lemma api_hook_item_state hookParam id st :
  snd (api_hook_item hookParam id st)
  = if isHookAllowed (trim hookParam) then snd (ensureHookLoaded (trim hookParam) st) else st.
Proof.
  destruct (isHookAllowed (trim hookParam)) eqn:Hallowed.
  - rewrite api_hook_item_spec by exact Hallowed. reflexivity.
  - unfold api_hook_item. cbv zeta. rewrite Hallowed. reflexivity.
Qed.

Lemma api_hook_item_same_view hookParam id st :
  same_view st (snd (api_hook_item hookParam id st)).
Proof.
  rewrite api_hook_item_state.
  destruct (isHookAllowed (trim hookParam));
    [apply ensureHookLoaded_same_view | apply same_view_refl].
Qed.

Lemma cache_sorted_files scope st : files (cache_sorted scope st) = files st.
Proof. unfold cache_sorted. simpl. apply ensureHookLoaded_files. Qed.

Lemma cache_sorted_view scope st h :
  cache_view (cache_sorted scope st) h
  = if decide (h = scope) then sort byReceivedAtDesc (cache_view st scope) else cache_view st h.
Proof.
  destruct (ensureHookLoaded_same_view scope st) as [Hf Hv].
  unfold cache_view at 1. unfold cache_sorted. simpl recentByHook.
  destruct (decide (h = scope)) as [-> | Hne].
  - rewrite lookup_insert_eq. reflexivity.
  - rewrite lookup_insert_ne by congruence. rewrite <- (Hv h). unfold cache_view.
    destruct (recentByHook (snd (ensureHookLoaded scope st)) !! h); [reflexivity|].
    apply loadHook_files. reflexivity.
Qed.

(** The state an export leaves is the state it found, up to loading, or
    that state with the cache of one hook sorted. *)
Lemma export_events_state hookParam q field value st :
  same_view st (snd (export_events hookParam q field value st)) \/
  snd (export_events hookParam q field value st) = cache_sorted (export_scope hookParam) st.
Proof.
  rewrite export_events_spec. cbv zeta.
  destruct (String.eqb (export_scope hookParam) "*").
  - left. simpl. apply gather_spec.
  - destruct (isHookAllowed (export_scope hookParam)); simpl negb; cbv iota.
    + simpl snd. destruct (_ || _); [left; apply ensureHookLoaded_same_view | right; reflexivity].
    + left. apply same_view_refl.
Qed.

Lemma export_events_keeps_events hookParam q field value st :
  files (snd (export_events hookParam q field value st)) = files st /\
  forall h, Permutation (cache_view (snd (export_events hookParam q field value st)) h)
                        (cache_view st h).
Proof.
  destruct (export_events_state hookParam q field value st) as [[Hf Hv] | ->].
  - split; [exact Hf|]. intros h. rewrite Hv. reflexivity.
  - split; [apply cache_sorted_files|]. intros h. rewrite cache_sorted_view.
    destruct (decide (h = export_scope hookParam)) as [-> | _]; [apply sort_perm | reflexivity].
Qed.

End EffectFacts.

(** X9. No read request changes a log file or the events of a hook.  The
    listings and the lookup leave every hook with the same events in the
    same order (a cache may have been loaded); the two exports leave every
    hook with the same events, possibly in another order. *)
Theorem read_requests_keep_logs_and_events `{env : Env}
    (hook : string) (hookParam q field value limit : option string) (id : string)
    (st : state) :
  same_view st (snd (api_hook hook q field value limit st)) /\
  same_view st (snd (api_hook_item hook id st)) /\
  same_view st (snd (api_events q field value limit st)) /\
  (files (snd (export_ndjson hookParam q field value st)) = files st /\
   forall h, Permutation (cache_view (snd (export_ndjson hookParam q field value st)) h)
                         (cache_view st h)) /\
  (files (snd (export_csv hookParam q field value st)) = files st /\
   forall h, Permutation (cache_view (snd (export_csv hookParam q field value st)) h)
                         (cache_view st h)).
Proof.
  split; [apply api_hook_same_view | split; [apply api_hook_item_same_view |]].
  split; [apply api_events_same_view |].
  rewrite export_ndjson_state, export_csv_state.
  split; apply export_events_keeps_events.
Qed.

(** ** Invariants of the caches *)

Section InvariantFacts.
Context `{env : Env}.
Hypothesis Hmax : 0 < MAX_RECENT_PER_HOOK.

Lemma Forall_filter_true {A} (p : A -> bool) (l : list A) :
  Forall (fun x => p x = true) (List.filter p l).
Proof.
  induction l as [|x l IH]; simpl; [constructor|].
  destruct (p x) eqn:E; [constructor; assumption | exact IH].
Qed.

Lemma In_firstn {A} n (l : list A) x : In x (firstn n l) -> In x l.
Proof.
  revert l. induction n as [|n IH]; intros l; [intros []|].
  destruct l as [|y l]; simpl; [trivial|]. intros [-> | Hx]; [left; reflexivity|].
  right. apply IH. exact Hx.
Qed.

Lemma loadHook_truthy hook st : Forall (fun e => Json.truthy e = true) (loadHook hook st).
Proof.
  unfold loadHook. destruct (files st !! hook); [| constructor].
  destruct (negb _); [constructor | apply Forall_filter_true].
Qed.

Lemma well_formed_cache_view st hook :
  well_formed st ->
  length (cache_view st hook) <= MAX_RECENT_PER_HOOK /\
  Forall (fun e => Json.truthy e = true) (cache_view st hook).
Proof.
  intros [Hb Ht]. split; [apply bounded_cache_view; assumption|].
  unfold cache_view. destruct (recentByHook st !! hook) as [arr|] eqn:E;
    [exact (Ht hook arr E) | apply loadHook_truthy].
Qed.

Lemma well_formed_same_files st st' :
  (forall h arr, recentByHook st' !! h = Some arr ->
     exists h', Permutation arr (cache_view st h')) ->
  well_formed st -> well_formed st'.
Proof.
  intros Hsub Hwf. split; intros h arr Harr; destruct (Hsub h arr Harr) as (h' & Hperm);
    destruct (well_formed_cache_view st h' Hwf) as [Hlen Htruthy].
  - rewrite (Permutation_length Hperm). exact Hlen.
  - eapply Permutation_Forall; [symmetry; exact Hperm | exact Htruthy].
Qed.

Lemma well_formed_ensureHookLoaded hook st :
  well_formed st -> well_formed (snd (ensureHookLoaded hook st)).
Proof.
  apply well_formed_same_files. intros h arr Harr.
  destruct (ensureHookLoaded_same_view hook st) as [_ Hv].
  exists h. rewrite <- (Hv h). unfold cache_view. rewrite Harr. reflexivity.
Qed.

Lemma well_formed_same_view st st' : same_view st st' -> well_formed st -> well_formed st'.
Proof.
  intros [_ Hv]. apply well_formed_same_files. intros h arr Harr.
  exists h. rewrite <- (Hv h). unfold cache_view. rewrite Harr. reflexivity.
Qed.

Lemma well_formed_cache_sorted scope st : well_formed st -> well_formed (cache_sorted scope st).
Proof.
  apply well_formed_same_files. intros h arr Harr.
  pose proof (cache_sorted_view scope st h) as Hv.
  unfold cache_view at 1 in Hv. rewrite Harr in Hv. exists h. rewrite Hv.
  destruct (decide (h = scope)) as [-> | _]; [apply sort_perm | reflexivity].
Qed.

Lemma well_formed_storeEvent hook payload meta id now st :
  well_formed st -> well_formed (snd (storeEvent hook payload meta id now st)).
Proof.
  intros Hwf. pose proof Hwf as [Hb Ht]. split.
  - apply storeEvent_bounded; assumption.
  - intros h arr Harr. destruct (decide (h = hook)) as [-> | Hne].
    + rewrite (storeEvent_cache_bounded hook payload meta id now st Hmax Hb) in Harr.
      injection Harr as <-.
      destruct (well_formed_cache_view st hook Hwf) as [_ Htruthy].
      apply List.Forall_forall. intros x Hx. apply In_firstn in Hx.
      destruct Hx as [<- | Hx]; [reflexivity|].
      rewrite List.Forall_forall in Htruthy. apply Htruthy. exact Hx.
    + rewrite storeEvent_other in Harr by exact Hne. exact (Ht h arr Harr).
Qed.

Lemma well_formed_post_hook r id now st :
  well_formed st -> well_formed (snd (post_hook r id now st)).
Proof.
  intros Hwf. unfold post_hook. cbv zeta.
  destruct (_ || _); [exact Hwf|].
  destruct (negb _); [exact Hwf|].
  pose proof (well_formed_storeEvent (trim (wh_hook r)) (webhook_payload (wh_body r))
                (webhook_meta r) id now st Hwf) as Hst.
  destruct (storeEvent _ _ _ id now st) as [evt st1]. exact Hst.
Qed.

Lemma well_formed_api_clear body st : well_formed st -> well_formed (snd (api_clear body st)).
Proof.
  intros [Hb Ht]. unfold api_clear. cbv zeta.
  destruct (clear_target body) as [hook|]; [| split; assumption].
  destruct (String.eqb hook "*").
  - split; intros h arr Harr; simpl in Harr; rewrite lookup_empty in Harr; discriminate.
  - destruct (negb _); [split; assumption|].
    split; intros h arr Harr; simpl in Harr; apply lookup_delete_Some in Harr as [_ Harr];
      [exact (Hb h arr Harr) | exact (Ht h arr Harr)].
Qed.

Lemma well_formed_export_events hookParam q field value st :
  well_formed st -> well_formed (snd (export_events hookParam q field value st)).
Proof.
  intros Hwf. destruct (export_events_state hookParam q field value st) as [Hsame | ->].
  - exact (well_formed_same_view _ _ Hsame Hwf).
  - apply well_formed_cache_sorted. exact Hwf.
Qed.

Lemma well_formed_handle r st : well_formed st -> well_formed (handle r st).
Proof.
  intros Hwf. destruct r; simpl.
  - apply well_formed_post_hook. exact Hwf.
  - exact Hwf.
  - exact (well_formed_same_view _ _ (api_hook_same_view _ _ _ _ _ _) Hwf).
  - exact (well_formed_same_view _ _ (api_hook_item_same_view _ _ _) Hwf).
  - exact (well_formed_same_view _ _ (api_events_same_view _ _ _ _ _) Hwf).
  - rewrite export_ndjson_state. apply well_formed_export_events. exact Hwf.
  - rewrite export_csv_state. apply well_formed_export_events. exact Hwf.
  - apply well_formed_api_clear. exact Hwf.
Qed.

Lemma well_formed_run rs : forall st, well_formed st -> well_formed (run rs st).
Proof.
  induction rs as [|r rs IH]; intros st Hwf; [exact Hwf|].
  simpl. apply IH. apply well_formed_handle. exact Hwf.
Qed.

Lemma well_formed_restart st : well_formed (restart st).
Proof.
  split; [apply restart_bounded|].
  intros h arr Harr. simpl in Harr. rewrite lookup_empty in Harr. discriminate.
Qed.

Lemma find_by_id_no_throw id arr :
  Forall (fun e => Json.truthy e = true) arr -> find_by_id id arr <> Throw.
Proof.
  induction 1 as [|x arr Hx Harr IH]; [discriminate|].
  simpl. destruct (has_id id x) as [[|]|] eqn:E; [discriminate | exact IH |].
  exfalso. unfold has_id in E.
  destruct x; try discriminate Hx;
    destruct (Json.get _ "id") as [[]|]; discriminate E.
Qed.

End InvariantFacts.

(** X10. With a positive cache limit, in every state the server reaches
    from a start on any data directory, by any sequence of requests, every
    loaded cache holds at most [MAX_RECENT_PER_HOOK] entries and no falsy
    entry; hence no listing of a hook counts more than
    [MAX_RECENT_PER_HOOK] events, reading [id] from a cached entry never
    throws, and the lookup of an event never ends in a server error. *)
Theorem caches_stay_bounded_and_truthy `{env : Env} (rs : list request) (st : state) :
  0 < MAX_RECENT_PER_HOOK ->
  let st' := run rs (restart st) in
  bounded st' /\ loaded_truthy st' /\
  (forall hook, length (cache_view st' hook) <= MAX_RECENT_PER_HOOK) /\
  (forall hook q field value limit,
     listing_count (fst (api_hook hook q field value limit st')) <= MAX_RECENT_PER_HOOK) /\
  (forall hook id, fst (api_hook_item hook id st') <> ItemError).
Proof.
  intros Hmax st'.
  assert (Hwf : well_formed st') by (apply well_formed_run, well_formed_restart; exact Hmax).
  split; [apply Hwf | split; [apply Hwf | split; [| split]]].
  - intros hook. apply (well_formed_cache_view Hmax st' hook Hwf).
  - intros hook q field value limit. rewrite api_hook_spec. cbv zeta.
    destruct (isHookAllowed (trim hook)); simpl negb; cbv iota; [| simpl; lia].
    destruct (existsb _ _); simpl; [lia|].
    unfold listing. destruct (all_ok _); simpl; [| lia].
    etransitivity; [apply filter_length_le|].
    apply (well_formed_cache_view Hmax st' (trim hook) Hwf).
  - intros hook id. destruct (isHookAllowed (trim hook)) eqn:Hallowed.
    + rewrite api_hook_item_spec by exact Hallowed. simpl fst.
      pose proof (find_by_id_no_throw id (cache_view st' (trim hook))
                    (proj2 (well_formed_cache_view Hmax st' (trim hook) Hwf))) as Hno.
      destruct (find_by_id id _) as [[item|]|]; [| discriminate | congruence].
      destruct (Json.truthy item); discriminate.
    + unfold api_hook_item. cbv zeta. rewrite Hallowed. discriminate.
Qed.

(** ** Aggregation and the per-hook listings *)

Section CountFacts.
Context `{env : Env}.

Lemma filter_concat_length {A} (p : A -> bool) (ls : list (list A)) :
  length (List.filter p (concat ls))
  = list_sum (map (fun l => length (List.filter p l)) ls).
Proof.
  induction ls as [|l ls IH]; [reflexivity|].
  simpl. rewrite List.filter_app, length_app, IH. reflexivity.
Qed.

Lemma existsb_concat {A} (p : A -> bool) (ls : list (list A)) :
  existsb p (concat ls) = existsb (existsb p) ls.
Proof.
  induction ls as [|l ls IH]; [reflexivity|].
  simpl. rewrite existsb_app, IH. reflexivity.
Qed.

Lemma api_hook_listed h q field value limit st :
  In h (listHooksOnDisk st) ->
  fst (api_hook h q field value limit st)
  = if existsb (throws (request_matcher q field value)) (cache_view st h) then ServerError
    else listing limit (List.filter (accepts (request_matcher q field value)) (cache_view st h)).
Proof.
  intros Hin. apply In_listHooksOnDisk in Hin as [Hallowed _].
  rewrite api_hook_spec. cbv zeta.
  rewrite (isHookAllowed_trim h Hallowed), Hallowed. simpl negb. cbv iota.
  destruct (existsb _ _); reflexivity.
Qed.

Lemma listing_inv limit filtered count items :
  listing limit filtered = Listing count items ->
  count = length filtered /\
  all_ok (map with_summary (page (parseLimit limit) filtered)) = Ok items.
Proof.
  unfold listing. destruct (all_ok _) as [its|]; [| discriminate].
  intros [= <- <-]. split; reflexivity.
Qed.

(** A listing without limit is produced exactly when the summary throws
    on none of the events. *)
Lemma listing_unlimited limit filtered :
  parseLimit limit = 0 ->
  (exists count items, listing limit filtered = Listing count items) <->
  Forall (fun e => with_summary e <> Throw) filtered.
Proof.
  intros Hlimit. unfold listing, page. rewrite Hlimit. simpl Nat.eqb. cbv iota.
  destruct (all_ok (map with_summary filtered)) as [items|] eqn:Hall.
  - split; [intros _ | intros _; eauto].
    apply all_ok_map_Ok in Hall. apply List.Forall_forall. intros e He Hthrow.
    induction Hall as [|x y l l' Hxy Hrest IH]; [destruct He|].
    destruct He as [-> | He]; [congruence | exact (IH He)].
  - split; [intros (count & items & H); discriminate|].
    intros Hnone. apply all_ok_map_Throw in Hall.
    apply List.Exists_exists in Hall as (e & He & Hthrow).
    rewrite List.Forall_forall in Hnone. destruct (Hnone e He Hthrow).
Qed.

(** A page of events whose summaries do not throw is listed. *)
Lemma listing_of_summarised limit filtered :
  Forall (fun e => with_summary e <> Throw) filtered ->
  exists items, listing limit filtered = Listing (length filtered) items.
Proof.
  intros Hnone. unfold listing.
  destruct (all_ok (map with_summary (page (parseLimit limit) filtered))) as [items|] eqn:Hall;
    [eauto|].
  apply all_ok_map_Throw in Hall. apply List.Exists_exists in Hall as (e & He & Hthrow).
  rewrite List.Forall_forall in Hnone. exfalso. apply (Hnone e); [| exact Hthrow].
  unfold page, slice_first in He. destruct (Nat.eqb (parseLimit limit) 0); [exact He|].
  apply (In_firstn _ _ _ He).
Qed.

End CountFacts.

(** X11. The aggregation and the per-hook listings agree.  For one
    filter, the matcher throws on an event of the aggregation exactly when
    it throws on a cached event of some listed hook.  When the aggregation
    answers with a listing, its count is the sum, over the listed hooks,
    of the numbers of cached events the filter accepts, which is the count
    of every hook listing that is produced, whatever its limit; and when
    an aggregation without limit answers with a listing, so does the
    listing of every listed hook, whatever its limit. *)
Theorem api_events_count_is_sum_of_hook_counts `{env : Env}
    (q field value limit : option string) (st : state) :
  let matcher := request_matcher q field value in
  (existsb (throws matcher) (all_events st) = true <->
   exists h, In h (listHooksOnDisk st) /\
             existsb (throws matcher) (cache_view st h) = true) /\
  (forall count items,
     fst (api_events q field value limit st) = Listing count items ->
     count = list_sum (map (fun h => length (List.filter (accepts matcher) (cache_view st h)))
                         (listHooksOnDisk st)) /\
     (forall h limit' count' items',
        In h (listHooksOnDisk st) ->
        fst (api_hook h q field value limit' st) = Listing count' items' ->
        count' = length (List.filter (accepts matcher) (cache_view st h))) /\
     (parseLimit limit = 0 ->
      forall h limit', In h (listHooksOnDisk st) ->
        exists items',
          fst (api_hook h q field value limit' st)
          = Listing (length (List.filter (accepts matcher) (cache_view st h))) items')).
Proof.
  intros matcher.
  assert (Hex : existsb (throws matcher) (all_events st) = true <->
                exists h, In h (listHooksOnDisk st) /\
                          existsb (throws matcher) (cache_view st h) = true).
  { unfold all_events. rewrite existsb_concat, existsb_exists. split.
    - intros (arr & Harr & Hthrow). apply in_map_iff in Harr as (h & <- & Hh). eauto.
    - intros (h & Hh & Hthrow). exists (cache_view st h). split; [| exact Hthrow].
      apply in_map. exact Hh. }
  split; [exact Hex|].
  intros count items. rewrite api_events_spec. cbv zeta. fold matcher.
  destruct (existsb (throws matcher) (all_events st)) eqn:Hthrow; simpl fst; [discriminate|].
  assert (Hnone : forall h, In h (listHooksOnDisk st) ->
                    existsb (throws matcher) (cache_view st h) = false).
  { intros h Hh. destruct (existsb (throws matcher) (cache_view st h)) eqn:E; [| reflexivity].
    assert (false = true) by (apply Hex; eauto). discriminate. }
  intros Hlisting. apply listing_inv in Hlisting as [-> Hitems].
  split; [| split].
  - rewrite sort_length. unfold all_events. rewrite filter_concat_length, map_map.
    reflexivity.
  - intros h limit' count' items' Hh.
    rewrite (api_hook_listed h q field value limit' st Hh). fold matcher.
    rewrite (Hnone h Hh). intros Hl. apply listing_inv in Hl as [-> _]. reflexivity.
  - intros Hlimit h limit' Hh.
    rewrite (api_hook_listed h q field value limit' st Hh). fold matcher.
    rewrite (Hnone h Hh). apply listing_of_summarised.
    assert (Hall : Forall (fun e => with_summary e <> Throw)
                     (sort byReceivedAtDesc (List.filter (accepts matcher) (all_events st)))).
    { apply (listing_unlimited limit _ Hlimit). unfold listing. rewrite Hitems. eauto. }
    rewrite List.Forall_forall in Hall. apply List.Forall_forall. intros e He.
    apply Hall. eapply Permutation_in; [symmetry; apply sort_perm|].
    apply filter_In in He as [He Hacc]. apply filter_In. split; [| exact Hacc].
    unfold all_events. apply in_concat. exists (cache_view st h). split; [| exact He].
    apply in_map. exact Hh.
Qed.

(** ** When the matcher throws *)

Lemma eventMatches_throws_iff `{env : Env} (evt : json) (q field value : string) :
  eventMatches evt q field value = Throw <->
  selected_present value = true /\ names_field field = true /\
  stringifySafe (getByPath evt (trim field)) = None.
Proof.
  unfold eventMatches, selected_present. cbv zeta.
  destruct (nonempty value && nonempty (trim value)) eqn:Hsel.
  2:{ split; [discriminate | intros [H _]; discriminate]. }
  apply andb_true_iff in Hsel as [_ Hv].
  destruct (names_field field) eqn:Hf.
  - rewrite (eventMatchesSelectedField_named evt field value Hv Hf).
    destruct (stringifySafe (getByPath evt (trim field))) as [text|].
    + destruct (includes _ _); split; try discriminate; intros (_ & _ & H); discriminate.
    + split; [intros _; repeat split | reflexivity].
  - unfold eventMatchesSelectedField. cbv zeta.
    rewrite toLowerCase_nonempty, Hv. simpl negb. cbv iota.
    assert (negb (nonempty (trim field)) || String.eqb (trim field) "any"
            || String.eqb (trim field) "fulltext" = true) as ->.
    { unfold names_field in Hf. destruct (nonempty (trim field)); [| reflexivity].
      destruct (String.eqb (trim field) "any"); [reflexivity|].
      destruct (String.eqb (trim field) "fulltext"); [reflexivity | discriminate]. }
    destruct (includes _ _); split; try discriminate; intros (_ & H & _); discriminate.
Qed.

Lemma listing_error `{env : Env} limit filtered :
  listing limit filtered = ServerError <->
  exists evt, In evt (page (parseLimit limit) filtered) /\ buildSummary evt = Throw.
Proof.
  unfold listing.
  destruct (all_ok (map with_summary (page (parseLimit limit) filtered))) as [items|] eqn:Hall.
  - split; [discriminate|]. intros (evt & Hevt & Hthrow).
    assert (all_ok (map with_summary (page (parseLimit limit) filtered)) = Throw) as Hc;
      [| congruence].
    apply all_ok_map_Throw, List.Exists_exists. exists evt. split; [exact Hevt|].
    unfold with_summary. rewrite Hthrow. reflexivity.
  - split; [intros _ | reflexivity].
    apply all_ok_map_Throw, List.Exists_exists in Hall as (evt & Hevt & Hthrow).
    exists evt. split; [exact Hevt|].
    unfold with_summary in Hthrow. destruct (buildSummary evt); [discriminate | reflexivity].
Qed.

(** X12. The combined matcher throws in one case only: a selected value
    that is not blank, with a field that names a path (neither blank nor
    [any] nor [fulltext]) for which [stringifySafe] has no text, because
    the path does not resolve in the event or resolves to a value for
    which [JSON.stringify] returns [undefined], as it does for a function
    reached through the prototype chain.  On a path that resolves to a
    JSON value the matcher does not throw, and a request with only the
    advanced query never does.  A listing of a hook ends in the answer of
    the error middleware exactly when the hook is allowed and either such
    a filter meets such a cached event, or the matcher throws on no
    cached event and the summary throws on an event of the page. *)
Theorem eventMatches_throws_only_on_unresolved_path `{env : Env}
    (hook : string) (q field value limit : option string) (st : state) :
  let matcher := request_matcher q field value in
  let events := cache_view st (trim hook) in
  (forall evt q field value,
     eventMatches evt q field value = Throw <->
     selected_present value = true /\ names_field field = true /\
     stringifySafe (getByPath evt (trim field)) = None) /\
  (forall evt q field value got,
     getByPath evt (trim field) = Some (Plain got) ->
     eventMatches evt q field value <> Throw) /\
  (forall evt q field value,
     selected_present value = true -> names_field field = true ->
     getByPath evt (trim field) = None ->
     eventMatches evt q field value = Throw) /\
  (fst (api_hook hook q field value limit st) = ServerError <->
   isHookAllowed (trim hook) = true /\
   ((selected_present (param value) = true /\ names_field (param field) = true /\
     exists evt, In evt events /\
                 stringifySafe (getByPath evt (trim (param field))) = None) \/
    (existsb (throws matcher) events = false /\
     exists evt, In evt (page (parseLimit limit) (List.filter (accepts matcher) events)) /\
                 buildSummary evt = Throw))).
Proof.
  intros matcher events.
  split; [intros evt q0 field0 value0; apply eventMatches_throws_iff|].
  split; [| split].
  - intros evt q0 field0 value0 got Hgot Hthrow.
    apply eventMatches_throws_iff in Hthrow as (_ & _ & Htext).
    rewrite Hgot in Htext. discriminate.
  - intros evt q0 field0 value0 Hsel Hf Hpath. apply eventMatches_throws_iff.
    rewrite Hpath. repeat split; assumption.
  - assert (Hthrows : existsb (throws matcher) events = true <->
                      selected_present (param value) = true /\
                      names_field (param field) = true /\
                      exists evt, In evt events /\
                        stringifySafe (getByPath evt (trim (param field))) = None).
    { rewrite existsb_exists. split.
      - intros (evt & Hevt & Ht). unfold throws, matcher, request_matcher in Ht.
        destruct (eventMatches evt (normalizeQ q) (param field) (param value)) eqn:Hm;
          [discriminate|].
        apply eventMatches_throws_iff in Hm as (Hsel & Hf & Hpath).
        repeat split; try assumption. exists evt. split; assumption.
      - intros (Hsel & Hf & evt & Hevt & Hpath). exists evt. split; [exact Hevt|].
        unfold throws, matcher, request_matcher.
        assert (eventMatches evt (normalizeQ q) (param field) (param value) = Throw) as ->
          by (apply eventMatches_throws_iff; repeat split; assumption).
        reflexivity. }
    rewrite api_hook_spec. cbv zeta. fold events matcher.
    destruct (isHookAllowed (trim hook)); simpl negb; cbv iota.
    2:{ simpl. split; [discriminate | intros [H _]; discriminate]. }
    destruct (existsb (throws matcher) events) eqn:Hthrow; simpl fst.
    + split; [intros _ | reflexivity].
      split; [reflexivity | left; apply Hthrows; reflexivity].
    + rewrite listing_error. split.
      * intros Hsum. split; [reflexivity | right; split; [reflexivity | exact Hsum]].
      * intros [_ [Hfilter | [_ Hsum]]]; [| exact Hsum].
        apply Hthrows in Hfilter. discriminate.
Qed.

(** ** The tokenizer *)

Lemma tokenizeQuery_step q :
  tokenizeQuery q
  = match trimStart q with
    | EmptyString => []
    | String ch s' =>
        let raw := fst (scan_token None (String ch s')) in
        (if nonempty (trim raw) then [trim raw] else [])
        ++ tokenizeQuery (snd (scan_token None (String ch s')))
    end.
Proof.
  rewrite tokenizeQuery_equation_1. unfold next_token.
  generalize (next_token_shorter q).
  destruct (trimStart q) as [|ch s']; intros Hlt; [reflexivity|].
  cbv zeta.
  generalize (Hlt ch s' eq_refl). clear Hlt.
  destruct (scan_token None (String ch s')) as [raw rest]. intros Hlt.
  rewrite tokenizeQuery_clause_1_equation_1. reflexivity.
Qed.

(** Induction on the input of the tokenizer: the rest left by one token
    is shorter than the input. *)
Lemma tokenizeQuery_rest_ind (P : string -> Prop) :
  (forall q, trimStart q = EmptyString -> P q) ->
  (forall q ch s', trimStart q = String ch s' ->
     P (snd (scan_token None (String ch s'))) -> P q) ->
  forall q, P q.
Proof.
  intros Hnil Hcons q.
  induction q as [q IH] using (well_founded_induction
                                 (well_founded_ltof _ String.length)).
  destruct (trimStart q) as [|ch s'] eqn:E; [apply Hnil; exact E|].
  apply (Hcons q ch s' E). apply IH. unfold ltof.
  apply next_token_shorter. exact E.
Qed.

Lemma nonempty_true s : nonempty s = true <-> s <> EmptyString.
Proof. destruct s; simpl; split; intros H; try reflexivity; try discriminate; congruence. Qed.

Lemma tokenizeQuery_tokens_trimmed q :
  Forall (fun t => t <> EmptyString /\ trim t = t) (tokenizeQuery q).
Proof.
  induction q as [q Hq | q ch s' Hq IH] using tokenizeQuery_rest_ind;
    rewrite tokenizeQuery_step, Hq; [constructor|].
  cbv zeta. apply Forall_app. split; [| exact IH].
  destruct (nonempty (trim _)) eqn:Hne; [| constructor].
  constructor; [| constructor].
  split; [apply nonempty_true; exact Hne | apply trim_idempotent].
Qed.

Lemma trimStart_empty_trim s : trimStart s = EmptyString <-> trim s = EmptyString.
Proof.
  unfold trim. split; [intros ->; reflexivity|].
  destruct (trimStart s) as [|c t] eqn:E; [reflexivity|].
  destruct (trimEnd_head c t (trimStart_head c t s E)) as (r & ->). discriminate.
Qed.

(** *** Queries without quotes *)

Lemma scan_token_plain s :
  has_char is_quote s = false ->
  has_char is_space (fst (scan_token None s)) = false /\
  s = fst (scan_token None s) +:+ snd (scan_token None s) /\
  match snd (scan_token None s) with
  | EmptyString => True
  | String c _ => is_space c = true
  end.
Proof.
  induction s as [|ch s IH]; [intros _; repeat split|].
  simpl has_char. intros Hq. apply orb_false_iff in Hq as [Hch Hs].
  simpl scan_token. rewrite Hch.
  destruct (is_space ch) eqn:Hsp.
  - simpl. repeat split. exact Hsp.
  - destruct (IH Hs) as (Hno & Heq & Hrest).
    destruct (scan_token None s) as [t r]. simpl in *.
    rewrite Hsp, Hno. repeat split; [| exact Hrest].
    change (String ch t +:+ r) with (String ch (t +:+ r)). congruence.
Qed.

Lemma has_char_app_false p a b :
  has_char p (a +:+ b) = false -> has_char p a = false /\ has_char p b = false.
Proof. rewrite has_char_app. apply orb_false_iff. Qed.

Lemma pieces_nonempty s : pieces s <> [].
Proof.
  induction s as [|c s IH]; [discriminate|]. simpl.
  destruct (is_space c); [discriminate|]. destruct (pieces s); discriminate.
Qed.

Lemma blank_separated_trimStart s : blank_separated (trimStart s) = blank_separated s.
Proof.
  induction s as [|c s IH]; [reflexivity|].
  simpl trimStart. destruct (is_space c) eqn:Hc; [| reflexivity].
  rewrite IH. unfold blank_separated. simpl. rewrite Hc. reflexivity.
Qed.

Lemma blank_separated_word w rest :
  has_char is_space w = false -> w <> EmptyString ->
  match rest with EmptyString => True | String c _ => is_space c = true end ->
  blank_separated (w +:+ rest) = w :: blank_separated rest.
Proof.
  intros Hw Hne Hrest. unfold blank_separated.
  assert (Hp : pieces (w +:+ rest)
               = match rest with
                 | EmptyString => [w]
                 | String _ rest' => w :: pieces rest'
                 end).
  { clear Hne. induction w as [|a w IH].
    - destruct rest as [|c rest']; [reflexivity|]. simpl. simpl in Hrest.
      rewrite Hrest. reflexivity.
    - simpl in Hw. apply orb_false_iff in Hw as [Ha Hw].
      change (String a w +:+ rest) with (String a (w +:+ rest)).
      simpl pieces. rewrite Ha, (IH Hw). destruct rest; reflexivity. }
  rewrite Hp. destruct rest as [|c rest'].
  - simpl. destruct w; [congruence | reflexivity].
  - simpl in Hrest. simpl. rewrite Hrest.
    destruct w; [congruence|]. reflexivity.
Qed.

Lemma tokenizeQuery_plain q :
  has_char is_quote q = false -> tokenizeQuery q = blank_separated q.
Proof.
  induction q as [q Hq | q ch s' Hq IH] using tokenizeQuery_rest_ind; intros Hplain;
    rewrite tokenizeQuery_step, <- blank_separated_trimStart, Hq; [reflexivity|].
  assert (Hplain' : has_char is_quote (String ch s') = false).
  { rewrite <- Hq. clear -Hplain. induction q as [|c q IHq]; [reflexivity|].
    simpl in *. apply orb_false_iff in Hplain as [Hc Hrest].
    destruct (is_space c); [apply IHq; exact Hrest|]. simpl. rewrite Hc, Hrest. reflexivity. }
  destruct (scan_token_plain (String ch s') Hplain') as (Hno & Heq & Hrest).
  pose proof (trimStart_head ch s' q Hq) as Hch.
  cbv zeta.
  assert (Hraw : fst (scan_token None (String ch s')) <> EmptyString).
  { simpl. rewrite Hch. destruct (is_quote ch); destruct (scan_token _ s'); discriminate. }
  rewrite (trim_no_space _ Hno).
  apply nonempty_true in Hraw as Hraw'. rewrite Hraw'.
  rewrite Heq at 3. rewrite (blank_separated_word _ _ Hno Hraw Hrest).
  simpl. f_equal. apply IH.
  rewrite Heq in Hplain'. apply has_char_app_false in Hplain'. apply Hplain'.
Qed.

(** X13. Every token of [tokenizeQuery] is non-empty and carries no white
    space at either end; a blank query has no token.  On a query without
    quote characters the tokens are exactly the blank-separated words of
    the query, in order. *)
Theorem tokenizeQuery_tokens_are_trimmed_words (q : string) :
  Forall (fun t => t <> EmptyString /\ trim t = t) (tokenizeQuery q) /\
  (trim q = EmptyString -> tokenizeQuery q = []) /\
  (has_char is_quote q = false -> tokenizeQuery q = blank_separated q).
Proof.
  split; [apply tokenizeQuery_tokens_trimmed | split; [| apply tokenizeQuery_plain]].
  intros Hblank. apply trimStart_empty_trim in Hblank.
  rewrite tokenizeQuery_step, Hblank. reflexivity.
Qed.

(** *** Quoted phrases *)

Lemma scan_token_quoted qc s :
  (forall c, occurs c s -> c <> qc) ->
  scan_token (Some qc) (s +:+ String qc EmptyString)
  = (s +:+ String qc EmptyString, EmptyString).
Proof.
  induction s as [|c s IH]; intros Hno.
  - simpl. rewrite Ascii.eqb_refl. reflexivity.
  - change (String c s +:+ String qc EmptyString) with (String c (s +:+ String qc EmptyString)).
    simpl scan_token.
    assert (Ascii.eqb c qc = false) as ->.
    { apply Ascii.eqb_neq. apply Hno. left. reflexivity. }
    rewrite IH by (intros d Hd; apply Hno; right; exact Hd). reflexivity.
Qed.

Lemma is_quote_not_space qc : is_quote qc = true -> is_space qc = false.
Proof.
  unfold is_quote. intros H. apply orb_true_iff in H as [H | H];
    apply Ascii.eqb_eq in H; subst; reflexivity.
Qed.

Lemma trimEnd_app_char s c : is_space c = false ->
  trimEnd (s +:+ String c EmptyString) = s +:+ String c EmptyString.
Proof.
  intros Hc. induction s as [|a s IH]; [simpl; rewrite Hc; reflexivity|].
  change (String a s +:+ String c EmptyString) with (String a (s +:+ String c EmptyString)).
  simpl trimEnd. rewrite IH. destruct (s +:+ String c EmptyString) eqn:E; [| reflexivity].
  destruct s; discriminate.
Qed.

Lemma trim_wrapped a s c : is_space a = false -> is_space c = false ->
  trim (String a (s +:+ String c EmptyString)) = String a (s +:+ String c EmptyString).
Proof.
  intros Ha Hc. unfold trim. simpl trimStart. rewrite Ha.
  apply (trimEnd_app_char (String a s) c Hc).
Qed.

Lemma drop_last_app_char s c : drop_last (s +:+ String c EmptyString) = s.
Proof.
  induction s as [|a s IH]; [reflexivity|].
  change (String a s +:+ String c EmptyString) with (String a (s +:+ String c EmptyString)).
  simpl drop_last. rewrite IH. destruct (s +:+ String c EmptyString) eqn:E; [| reflexivity].
  destruct s; discriminate.
Qed.

Lemma cut_at_absent c s : (forall d, occurs d s -> d <> c) -> cut_at c s = None.
Proof.
  induction s as [|a s IH]; intros Hno; [reflexivity|]. simpl.
  assert (Ascii.eqb a c = false) as -> by (apply Ascii.eqb_neq, Hno; left; reflexivity).
  rewrite IH by (intros d Hd; apply Hno; right; exact Hd). reflexivity.
Qed.

Lemma occurs_app c a b : occurs c (a +:+ b) <-> occurs c a \/ occurs c b.
Proof.
  induction a as [|x a IH]; simpl; [tauto|].
  change (occurs c (a +:+ b)) with (occurs c (a +:+ b)). rewrite IH. tauto.
Qed.

(** X14. A phrase in quotes is one token, white space included: when the
    phrase is not empty and holds neither its quote character nor a colon,
    the query made of the quoted phrase has no field token and the one
    text token that is the phrase in lower case, so that it matches the
    events whose text contains the whole phrase, ignoring case. *)
Theorem parseTokens_quoted_phrase `{env : Env} (qc : ascii) (s : string) (evt : json) :
  is_quote qc = true -> s <> EmptyString ->
  (forall c, occurs c s -> c <> qc /\ c <> ":"%char) ->
  let q := String qc (s +:+ String qc EmptyString) in
  tokenizeQuery q = [q] /\
  parseTokens q = {| fieldTokens := []; textTokens := [toLowerCase s] |} /\
  eventMatches evt q EmptyString EmptyString
  = Ok (includes (toLowerCase (stringifySafe_val evt)) (toLowerCase s)).
Proof.
  intros Hqc Hne Hno q.
  pose proof (is_quote_not_space qc Hqc) as Hsp.
  assert (Htrim : trim q = q) by (apply trim_wrapped; exact Hsp).
  assert (Htok : tokenizeQuery q = [q]).
  { rewrite tokenizeQuery_step. unfold q at 1. simpl trimStart. rewrite Hsp.
    cbv zeta. simpl scan_token. rewrite Hqc.
    rewrite scan_token_quoted by (intros c Hc; apply Hno; exact Hc).
    simpl fst. simpl snd. fold q. rewrite Htrim. simpl nonempty. cbv iota.
    rewrite tokenizeQuery_step. reflexivity. }
  assert (Hparse : parseTokens q = {| fieldTokens := []; textTokens := [toLowerCase s] |}).
  { unfold parseTokens. rewrite Htok. simpl fold_left.
    assert (field_token_of q = None) as ->.
    { unfold field_token_of. rewrite cut_at_absent; [reflexivity|].
      intros d Hd. unfold q in Hd. simpl in Hd. destruct Hd as [<- | Hd].
      - intros ->. discriminate.
      - apply occurs_app in Hd as [Hd | [<- | []]]; [apply Hno; exact Hd|].
        intros ->. discriminate. }
    assert (text_token_of q = Some (toLowerCase s)) as ->; [| reflexivity].
    unfold text_token_of. cbv zeta. rewrite Htrim. unfold strip_quotes.
    assert (wrapped_in qc q = true) as Hw.
    { unfold wrapped_in, q. simpl first_char.
      change (String qc (s +:+ String qc EmptyString))
        with (String qc s +:+ String qc EmptyString).
      rewrite last_char_app_char, Ascii.eqb_refl. reflexivity. }
    assert (wrapped_in Json.dquote q || wrapped_in "'"%char q = true) as ->.
    { unfold is_quote in Hqc. apply orb_true_iff in Hqc as [E | E];
        apply Ascii.eqb_eq in E; subst qc; rewrite Hw; [reflexivity | apply orb_true_r]. }
    unfold q, slice_1_m1. rewrite drop_last_app_char.
    apply nonempty_true in Hne. rewrite Hne. reflexivity. }
  split; [exact Htok | split; [exact Hparse|]].
  unfold eventMatches. cbv zeta. simpl nonempty at 3. simpl andb. cbv iota.
  unfold normalizeQ. rewrite Htrim. unfold q at 1. simpl nonempty. simpl negb. cbv iota.
  rewrite Hparse. simpl. unfold eventMatchesTextToken. rewrite andb_true_r. reflexivity.
Qed.

(** *** Token classes *)

Lemma text_token_of_normal t v :
  text_token_of t = Some v -> v <> EmptyString /\ toLowerCase v = v.
Proof.
  unfold text_token_of. cbv zeta.
  destruct (nonempty (strip_quotes (trim t))) eqn:Hv; [| discriminate].
  intros [= <-]. split; [| apply toLowerCase_idempotent].
  apply (proj1 (nonempty_true _)). rewrite toLowerCase_nonempty. exact Hv.
Qed.

Lemma parseTokens_fold_spec tokens : forall acc,
  let r := fold_left
    (fun acc t =>
       match field_token_of t with
       | Some ft => {| fieldTokens := fieldTokens acc ++ [ft]; textTokens := textTokens acc |}
       | None =>
           match text_token_of t with
           | Some txt =>
               {| fieldTokens := fieldTokens acc; textTokens := textTokens acc ++ [txt] |}
           | None => acc
           end
       end) tokens acc in
  fieldTokens r = fieldTokens acc ++ omap field_token_of tokens /\
  textTokens r
  = textTokens acc
    ++ omap (fun t => match field_token_of t with
                      | Some _ => None
                      | None => text_token_of t
                      end) tokens.
Proof.
  induction tokens as [|t tokens IH]; intros acc.
  - simpl. rewrite !app_nil_r. split; reflexivity.
  - cbv zeta. simpl fold_left. destruct (IH
      (match field_token_of t with
       | Some ft => {| fieldTokens := fieldTokens acc ++ [ft]; textTokens := textTokens acc |}
       | None =>
           match text_token_of t with
           | Some txt =>
               {| fieldTokens := fieldTokens acc; textTokens := textTokens acc ++ [txt] |}
           | None => acc
           end
       end)) as [Hf Ht].
    cbv zeta in Hf, Ht. rewrite Hf, Ht. cbn [omap list_omap].
    destruct (field_token_of t) as [ft|].
    + simpl. rewrite <- app_assoc. split; reflexivity.
    + destruct (text_token_of t) as [txt|]; simpl; [rewrite <- app_assoc|]; split; reflexivity.
Qed.

Lemma omap_exclusive_length {A B C} (f : A -> option B) (g : A -> option C) (l : list A) :
  (forall x y, f x = Some y -> g x = None) ->
  length (omap f l) + length (omap g l) <= length l.
Proof.
  intros Hex. induction l as [|x l IH]; [simpl; lia|].
  cbn [omap list_omap]. fold (omap f l). fold (omap g l).
  destruct (f x) as [y|] eqn:Hf.
  - rewrite (Hex x y Hf). cbn [length]. lia.
  - destruct (g x); cbn [length]; lia.
Qed.

(** X15. The tokens [parseTokens] hands to the matchers are normalised:
    every field token has a non-empty lower-case key and a non-empty
    lower-case value, every text token is non-empty and in lower case, and
    each raw token gives at most one of them.  A field token of a parsed
    query therefore matches an event exactly when some property of the
    event, at any depth, has the key ignoring case and the value occurs,
    ignoring case, in the text of the property's value or of an element
    reached from it through arrays. *)
Theorem parseTokens_tokens_are_normalised (q : string) :
  (forall k v, In (k, v) (fieldTokens (parseTokens q)) ->
     k <> EmptyString /\ v <> EmptyString /\ toLowerCase k = k /\ toLowerCase v = v) /\
  (forall t, In t (textTokens (parseTokens q)) -> t <> EmptyString /\ toLowerCase t = t) /\
  length (fieldTokens (parseTokens q)) + length (textTokens (parseTokens q))
  <= length (tokenizeQuery q) /\
  (forall evt k v, In (k, v) (fieldTokens (parseTokens q)) ->
     (eventMatchesFieldToken evt k v = true <-> property_or_element_match evt k v)).
Proof.
  assert (Hfield : forall k v, In (k, v) (fieldTokens (parseTokens q)) ->
            k <> EmptyString /\ v <> EmptyString /\ toLowerCase k = k /\ toLowerCase v = v)
    by (intros k v; apply parseTokens_field_tokens_normal).
  destruct (parseTokens_fold_spec (tokenizeQuery q) {| fieldTokens := []; textTokens := [] |})
    as [Hf Ht].
  cbv zeta in Hf, Ht. fold (parseTokens q) in Hf, Ht. simpl in Hf, Ht.
  split; [exact Hfield | split; [| split]].
  - intros t Hin. rewrite Ht in Hin. apply In_omap in Hin as (raw & _ & Hraw).
    destruct (field_token_of raw); [discriminate|].
    exact (text_token_of_normal raw t Hraw).
  - rewrite Hf, Ht. apply omap_exclusive_length.
    intros t ft Hft. rewrite Hft. reflexivity.
  - intros evt k v Hin. destruct (Hfield k v Hin) as (Hk & _ & Hlk & Hlv).
    apply eventMatchesFieldToken_spec; assumption.
Qed.

(** ** The deep traversal *)

Lemma In_nodes_root (v x : json) : forall key0,
  In (None, v) (nodes key0 x) <-> key0 = None /\ In v (array_elements x).
Proof.
  induction x as [| b | z | s | items IH | props IH] using Json.json_ind'; intros key0.
  1-4: simpl; split;
    [ intros [[= -> ->] | []]; split; [reflexivity | left; reflexivity]
    | intros [-> [<- | []]]; left; reflexivity ].
  - cbn [nodes array_elements In]. rewrite List.Forall_forall in IH. split.
    + intros [[= -> ->] | Hin]; [split; [reflexivity | left; reflexivity]|].
      apply in_flat_map in Hin as (i & Hi & Hin).
      apply (IH i Hi) in Hin as [-> Hv]. split; [reflexivity|].
      right. apply in_flat_map. exists i. split; assumption.
    + intros [-> [<- | Hv]]; [left; reflexivity|].
      apply in_flat_map in Hv as (i & Hi & Hv).
      right. apply in_flat_map. exists i. split; [exact Hi|].
      apply (IH i Hi). split; [reflexivity | exact Hv].
  - cbn [nodes array_elements In]. rewrite List.Forall_forall in IH. split.
    + intros [[= -> ->] | Hin]; [split; [reflexivity | left; reflexivity]|].
      apply in_flat_map in Hin as (kv & Hkv & Hin).
      apply (IH kv Hkv) in Hin as [[=] _].
    + intros [-> [<- | []]]. left. reflexivity.
Qed.

(** X16. [deepAny] returns for every value, and it returns [true] exactly
    when the predicate holds at an entry it visits: with the key [null] at
    the root and at what is reached from the root through arrays only,
    and with the key of a property at the value of every property, at any
    depth, and at what is reached from that value through arrays only. *)
Theorem deepAny_visits_root_and_properties
    (obj : json) (predicate' : option string -> json -> bool) :
  deepAny obj predicate' = true <->
  (exists v, In v (array_elements obj) /\ predicate' None v = true) \/
  (exists k pv v, In (k, pv) (properties obj) /\ In v (array_elements pv) /\
                  predicate' (Some k) v = true).
Proof.
  rewrite deepAny_spec, existsb_exists. split.
  - intros ([[k|] v] & Hin & Hp); simpl in Hp.
    + apply In_nodes in Hin as [[[=] _] | (pv & Hprop & Hv)].
      right. exists k, pv, v. repeat split; assumption.
    + apply In_nodes_root in Hin as [_ Hv]. left. exists v. split; assumption.
  - intros [(v & Hv & Hp) | (k & pv & v & Hprop & Hv & Hp)].
    + exists (None, v). split; [| exact Hp]. apply In_nodes_root. split; [reflexivity | exact Hv].
    + exists (Some k, v). split; [| exact Hp].
      apply In_nodes. right. exists pv. split; assumption.
Qed.

(** ** Paths *)

Lemma split_app_sep sep a b :
  split sep (a +:+ String sep b) = split sep a ++ split sep b.
Proof.
  induction a as [|c a IH].
  - simpl. rewrite Ascii.eqb_refl. reflexivity.
  - change (String c a +:+ String sep b) with (String c (a +:+ String sep b)).
    simpl split. rewrite IH. destruct (Ascii.eqb c sep); [reflexivity|].
    destruct (split sep a) eqn:E; [| reflexivity].
    exfalso. destruct a as [|x a']; simpl in E; [discriminate|].
    destruct (Ascii.eqb x sep); [discriminate|]. destruct (split sep a'); discriminate.
Qed.

Section PathFacts.
Context `{env : Env}.

Lemma walk_none parts : walk None parts = None.
Proof. destruct parts; reflexivity. Qed.

Lemma walk_app cur p1 p2 : walk cur (p1 ++ p2) = walk (walk cur p1) p2.
Proof.
  revert cur. induction p1 as [|p p1 IH]; intros cur; [reflexivity|].
  simpl. destruct cur as [[[]|]|]; try apply IH; symmetry; apply walk_none.
Qed.

Lemma getByPath_walk obj p :
  Json.truthy obj = true -> p <> EmptyString ->
  getByPath obj p = walk (Some (Plain obj)) (List.filter nonempty (split "."%char p)).
Proof.
  intros Ht Hp. unfold getByPath. rewrite Ht.
  apply nonempty_true in Hp. rewrite Hp. reflexivity.
Qed.

Lemma getByPath_some obj p v :
  getByPath obj p = Some v -> Json.truthy obj = true /\ p <> EmptyString.
Proof.
  unfold getByPath. destruct (Json.truthy obj); [| discriminate].
  destruct p; [discriminate|]. intros _. split; [reflexivity | discriminate].
Qed.

End PathFacts.

(** X17. Paths compose: resolving [a.b] is resolving [b] in what [a]
    resolves to, provided that value is truthy; when [a] does not resolve,
    neither does [a.b].  The empty path and a falsy root resolve to
    nothing, and empty segments are skipped.  In an event built by
    [storeEvent] with a truthy payload, the path [payload.b] resolves to
    what [b] resolves to in the payload. *)
Theorem getByPath_paths_compose `{env : Env} (obj : json) (a b : string) :
  (getByPath obj EmptyString = None /\
   (Json.truthy obj = false -> getByPath obj a = None)) /\
  (a <> EmptyString -> getByPath obj a = None ->
   getByPath obj (a +:+ String "."%char b) = None) /\
  (forall v, getByPath obj a = Some (Plain v) -> Json.truthy v = true -> b <> EmptyString ->
     getByPath obj (a +:+ String "."%char b) = getByPath v b) /\
  getByPath obj (a +:+ String "."%char (String "."%char b))
  = getByPath obj (a +:+ String "."%char b) /\
  (forall id hook now meta payload,
     Json.truthy payload = true -> b <> EmptyString ->
     getByPath (mkEvent id hook now meta payload) ("payload." +:+ b) = getByPath payload b).
Proof.
  assert (Hne : forall x y, x +:+ String "."%char y <> EmptyString)
    by (intros [|? ?] y; discriminate).
  assert (Hcompose : forall o x v, getByPath o x = Some (Plain v) -> Json.truthy v = true ->
            b <> EmptyString -> getByPath o (x +:+ String "."%char b) = getByPath v b).
  { intros o x v Hx Hv Hb. destruct (getByPath_some o x _ Hx) as [Ho Hxne].
    rewrite (getByPath_walk o _ Ho (Hne x b)), split_app_sep, List.filter_app, walk_app.
    rewrite <- (getByPath_walk o x Ho Hxne), Hx.
    symmetry. apply getByPath_walk; assumption. }
  split; [split|split; [| split; [| split]]].
  - unfold getByPath. rewrite orb_true_r. reflexivity.
  - intros Hf. unfold getByPath. rewrite Hf. reflexivity.
  - intros Ha Hnone. destruct (Json.truthy obj) eqn:Ho.
    + rewrite (getByPath_walk obj _ Ho (Hne a b)), split_app_sep, List.filter_app, walk_app.
      rewrite <- (getByPath_walk obj a Ho Ha), Hnone. apply walk_none.
    + unfold getByPath. rewrite Ho. reflexivity.
  - intros v. apply Hcompose.
  - destruct (Json.truthy obj) eqn:Ho.
    + rewrite !(getByPath_walk obj _ Ho (Hne a _)), !split_app_sep.
      change (String "."%char b) with (EmptyString +:+ String "."%char b).
      rewrite split_app_sep, !List.filter_app. reflexivity.
    + unfold getByPath. rewrite Ho. reflexivity.
  - intros id hook now meta payload Hp Hb.
    apply (Hcompose (mkEvent id hook now meta payload) "payload" payload);
      [reflexivity | exact Hp | exact Hb].
Qed.

(** ** The log of a hook *)

Lemma string_app_nil_r (s : string) : s +:+ EmptyString = s.
Proof.
  induction s as [|c s IH]; [reflexivity|].
  change (String c (s +:+ EmptyString) = String c s). f_equal. exact IH.
Qed.

Lemma log_text_app a b : log_text (a ++ b) = log_text a +:+ log_text b.
Proof.
  induction a as [|l a IH]; [reflexivity|].
  simpl. rewrite IH, string_app_assoc. reflexivity.
Qed.

Lemma log_text_join lines :
  lines <> [] ->
  log_text lines = join (String newline EmptyString) lines +:+ String newline EmptyString.
Proof.
  induction lines as [|l lines IH]; [congruence|]. intros _.
  destruct lines as [|l' lines']; [reflexivity|].
  cbn [log_text] in *. rewrite IH by discriminate.
  change (join (String newline EmptyString) (l :: l' :: lines'))
    with (l +:+ String newline EmptyString
            +:+ join (String newline EmptyString) (l' :: lines')).
  rewrite !string_app_assoc. reflexivity.
Qed.

Lemma string_app_empty (a b : string) : a +:+ b = EmptyString -> a = EmptyString /\ b = EmptyString.
Proof.
  destruct a as [|c a]; [intros H; split; [reflexivity | exact H]|].
  change (String c a +:+ b) with (String c (a +:+ b)). discriminate.
Qed.

Lemma trimEnd_app_fixed a b :
  trimEnd b = b -> b <> EmptyString -> trimEnd (a +:+ b) = a +:+ b.
Proof.
  intros Hb Hne. induction a as [|c a IH]; [exact Hb|].
  change (String c a +:+ b) with (String c (a +:+ b)).
  simpl trimEnd. rewrite IH.
  destruct (a +:+ b) eqn:E; [| reflexivity].
  apply string_app_empty in E as [_ E]. congruence.
Qed.

Lemma trimEnd_app_newline s :
  trimEnd s = s -> s <> EmptyString -> trimEnd (s +:+ String newline EmptyString) = s.
Proof.
  induction s as [|c s IH]; [congruence|]. intros Hs _.
  change (String c s +:+ String newline EmptyString)
    with (String c (s +:+ String newline EmptyString)).
  simpl trimEnd. simpl in Hs.
  destruct s as [|d s'].
  - simpl. simpl in Hs. destruct (is_space c); [discriminate | reflexivity].
  - assert (trimEnd (String d s') = String d s') as Hs'.
    { destruct (trimEnd (String d s')) eqn:E.
      - destruct (is_space c); discriminate.
      - injection Hs as H1 H2. congruence. }
    rewrite (IH Hs') by discriminate. reflexivity.
Qed.

Lemma record_line_head l :
  record_line l -> exists c r, l = String c r /\ is_space c = false.
Proof. intros (_ & Hne & Ht). apply trim_nonempty_no_edge_space; assumption. Qed.

Lemma record_line_trimEnd l : record_line l -> trimEnd l = l.
Proof.
  intros Hl. destruct (record_line_head l Hl) as (c & r & -> & Hc).
  destruct Hl as (_ & _ & Ht). unfold trim in Ht. simpl trimStart in Ht.
  rewrite Hc in Ht. exact Ht.
Qed.

Lemma join_lines_fixed lines :
  Forall record_line lines -> lines <> [] ->
  let body := join (String newline EmptyString) lines in
  trimEnd body = body /\ exists c r, body = String c r /\ is_space c = false.
Proof.
  induction 1 as [|l lines Hl Hlines IH]; [congruence|]. intros _.
  destruct (record_line_head l Hl) as (c & r & -> & Hc).
  destruct lines as [|l' lines'].
  - cbv zeta. simpl join. split; [apply (record_line_trimEnd _ Hl) | eauto].
  - destruct IH as [Hfix (c' & r' & Hbody & Hc')]; [discriminate|].
    cbv zeta.
    change (join (String newline EmptyString) (String c r :: l' :: lines'))
      with (String c r +:+ String newline EmptyString
              +:+ join (String newline EmptyString) (l' :: lines')).
    split.
    + rewrite <- string_app_assoc.
      apply trimEnd_app_fixed; [exact Hfix | rewrite Hbody; discriminate].
    + exists c. eexists. split; [reflexivity | exact Hc].
Qed.

Lemma trim_log_text lines :
  Forall record_line lines -> lines <> [] ->
  trim (log_text lines) = join (String newline EmptyString) lines.
Proof.
  intros Hlines Hne. rewrite log_text_join by exact Hne.
  destruct (join_lines_fixed lines Hlines Hne) as [Hfix (c & r & Hbody & Hc)].
  cbv zeta in *. unfold trim.
  assert (trimStart (join (String newline EmptyString) lines +:+ String newline EmptyString)
          = join (String newline EmptyString) lines +:+ String newline EmptyString) as ->.
  { rewrite Hbody. change (String c r +:+ ?x) with (String c (r +:+ x)).
    simpl. rewrite Hc. reflexivity. }
  apply trimEnd_app_newline; [exact Hfix | rewrite Hbody; discriminate].
Qed.

Lemma split_join_lines lines :
  Forall one_line lines -> lines <> [] ->
  split newline (join (String newline EmptyString) lines) = lines.
Proof.
  induction 1 as [|l lines Hl Hlines IH]; [congruence|]. intros _.
  destruct lines as [|l' lines']; [apply split_one_line; exact Hl|].
  change (join (String newline EmptyString) (l :: l' :: lines'))
    with (l +:+ String newline EmptyString
            +:+ join (String newline EmptyString) (l' :: lines')).
  change (String newline EmptyString +:+ ?x) with (String newline x).
  rewrite split_line_then by exact Hl. rewrite IH by discriminate. reflexivity.
Qed.

(** The lines [loadHook] reads from a log of record lines are those
    lines. *)
Lemma file_lines_log_text lines :
  Forall record_line lines -> file_lines (log_text lines) = lines.
Proof.
  intros Hlines. destruct lines as [|l lines]; [reflexivity|].
  unfold file_lines. rewrite trim_log_text by (exact Hlines || discriminate).
  rewrite split_join_lines; [| | discriminate].
  - apply filter_all_true. intros x Hx.
    rewrite List.Forall_forall in Hlines. destruct (Hlines x Hx) as (_ & Hne & _).
    apply nonempty_true. exact Hne.
  - eapply List.Forall_impl; [| exact Hlines]. intros x Hx. apply Hx.
Qed.

Lemma stringify_object_record_line props : record_line (Json.stringify (JObj props)).
Proof.
  split; [apply stringify_one_line | split; [discriminate|]].
  cbn [Json.stringify].
  set (body := join "," _).
  change ("{" +:+ body +:+ "}") with (String "{" (body +:+ String "}" EmptyString)).
  apply trim_wrapped; reflexivity.
Qed.

Section LogFacts.
Context `{env : Env}.

Lemma storeEvent_log hook payload meta id now st :
  default EmptyString (files (snd (storeEvent hook payload meta id now st)) !! hook)
  = default EmptyString (files st !! hook)
    +:+ log_text [Json.stringify (mkEvent id hook now meta payload)] /\
  forall h, h <> hook ->
    files (snd (storeEvent hook payload meta id now st)) !! h = files st !! h.
Proof.
  rewrite storeEvent_files. unfold appendFile. split.
  - rewrite lookup_insert_eq. simpl. destruct (files st !! hook); reflexivity.
  - intros h Hh. apply lookup_insert_ne. congruence.
Qed.

Lemma ingest_all_log hook reqs : forall st,
  default EmptyString (files (ingest_all hook reqs st) !! hook)
  = default EmptyString (files st !! hook)
    +:+ log_text (map (fun r => Json.stringify (event_of hook r)) reqs) /\
  forall h, h <> hook -> files (ingest_all hook reqs st) !! h = files st !! h.
Proof.
  induction reqs as [|r reqs IH]; intros st.
  - simpl. rewrite string_app_nil_r. split; reflexivity.
  - simpl ingest_all. unfold ingest_all in IH.
    set (st1 := snd (storeEvent hook (req_payload r) (req_meta r) (req_id r) (req_now r) st)).
    destruct (IH st1) as [Hlog Hother].
    destruct (storeEvent_log hook (req_payload r) (req_meta r) (req_id r) (req_now r) st)
      as [Hlog1 Hother1]. fold st1 in Hlog1, Hother1.
    unfold ingest_all. simpl fold_left. fold st1. split.
    + rewrite Hlog, Hlog1. cbn [map log_text]. unfold event_of.
      rewrite !string_app_assoc. reflexivity.
    + intros h Hh. rewrite (Hother h Hh). apply Hother1. exact Hh.
Qed.

End LogFacts.

(** X18. The log of a hook is append-only and complete: after any
    sequence of ingests into a hook, the log file of the hook is what it
    was, followed by one line per ingested event, in the order of arrival,
    each line being the serialised event ended by a line feed; no other
    file changes.  Read back the way [loadHook] reads a log, a log written
    from nothing holds exactly the serialised events, one per line. *)
Theorem storeEvent_log_is_append_only `{env : Env}
    (hook : string) (reqs : list ingest_request) (st : state) :
  let st' := ingest_all hook reqs st in
  let lines := map (fun r => Json.stringify (event_of hook r)) reqs in
  default EmptyString (files st' !! hook)
  = default EmptyString (files st !! hook) +:+ log_text lines /\
  (forall h, h <> hook -> files st' !! h = files st !! h) /\
  Forall record_line lines /\
  (files st !! hook = None -> file_lines (default EmptyString (files st' !! hook)) = lines).
Proof.
  intros st' lines.
  destruct (ingest_all_log hook reqs st) as [Hlog Hother]. fold st' lines in Hlog, Hother.
  assert (Hlines : Forall record_line lines).
  { apply List.Forall_forall. intros l Hl. apply in_map_iff in Hl as (r & <- & _).
    apply stringify_object_record_line. }
  split; [exact Hlog | split; [exact Hother | split; [exact Hlines|]]].
  intros Hnew. rewrite Hlog, Hnew. simpl default.
  apply file_lines_log_text. exact Hlines.
Qed.

(** *** Replaying the log *)

Lemma omap_parse_serialised {A} (parse : string -> option A) (ser : A -> string)
    (items : list A) :
  (forall x, In x items -> parse (ser x) = Some x) ->
  omap parse (map ser items) = items.
Proof.
  induction items as [|x items IH]; intros Hinv; [reflexivity|].
  cbn [map omap list_omap]. fold (omap parse (map ser items)).
  rewrite (Hinv x (or_introl eq_refl)). simpl. f_equal.
  apply IH. intros y Hy. apply Hinv. right. exact Hy.
Qed.

Lemma last_n_map {A B} (f : A -> B) n (l : list A) : last_n n (map f l) = map f (last_n n l).
Proof. unfold last_n. rewrite length_map. apply skipn_map. Qed.

Lemma log_text_empty lines : log_text lines = EmptyString -> lines = [].
Proof.
  destruct lines as [|l lines]; [reflexivity|]. simpl. intros H.
  apply string_app_empty in H as [_ H]. discriminate.
Qed.

Section ReplayFacts.
Context `{env : Env}.

Lemma loadHook_replay hook st events :
  0 < MAX_RECENT_PER_HOOK ->
  default EmptyString (files st !! hook) = log_text (map Json.stringify events) ->
  (forall e, In e events -> JSON_parse (Json.stringify e) = Some e) ->
  (forall e, In e events -> exists props, e = JObj props) ->
  loadHook hook st = last_n MAX_RECENT_PER_HOOK events.
Proof.
  intros Hmax Hlog Hparse Hobj.
  destruct (files st !! hook) as [content|] eqn:Hfile; simpl in Hlog.
  - rewrite (loadHook_eq hook st content Hmax Hfile). subst content.
    rewrite file_lines_log_text.
    2:{ apply List.Forall_forall. intros l Hl. apply in_map_iff in Hl as (e & <- & He).
        destruct (Hobj e He) as (props & ->). apply stringify_object_record_line. }
    rewrite last_n_map, omap_parse_serialised.
    2:{ intros e He. apply Hparse. unfold last_n in He. apply In_skipn in He. exact He. }
    apply filter_all_true. intros e He. unfold last_n in He. apply In_skipn in He.
    destruct (Hobj e He) as (props & ->). reflexivity.
  - symmetry in Hlog. apply log_text_empty in Hlog. apply map_eq_nil in Hlog. subst events.
    unfold loadHook. rewrite Hfile. reflexivity.
Qed.

End ReplayFacts.

(** X19. A restart reloads the log oldest first.  When events are ingested
    into a hook that had no log and no cache, and [JSON.parse] reads each
    serialised event back, the cache holds the most recent
    [MAX_RECENT_PER_HOOK] events, latest first; after a restart the hook
    is loaded with the same events in the opposite order, as they stand in
    the log. *)
Theorem restart_reloads_log_oldest_first `{env : Env}
    (hook : string) (reqs : list ingest_request) (st : state) :
  0 < MAX_RECENT_PER_HOOK -> bounded st ->
  files st !! hook = None -> recentByHook st !! hook = None ->
  (forall r, In r reqs ->
     JSON_parse (Json.stringify (event_of hook r)) = Some (event_of hook r)) ->
  let st' := ingest_all hook reqs st in
  let events := map (event_of hook) reqs in
  cache_view st' hook = firstn MAX_RECENT_PER_HOOK (rev events) /\
  loadHook hook (restart st') = last_n MAX_RECENT_PER_HOOK events /\
  cache_view (restart st') hook = rev (cache_view st' hook).
Proof.
  intros Hmax Hb Hfile Hcold Hparse st' events.
  assert (Hcache : cache_view st' hook = firstn MAX_RECENT_PER_HOOK (rev events)).
  { destruct (ingest_all_cache hook reqs st Hmax Hb) as [Hc _]. fold st' in Hc.
    rewrite Hc. unfold cache_view, loadHook. rewrite Hcold, Hfile, app_nil_r. reflexivity. }
  assert (Hload : loadHook hook (restart st') = last_n MAX_RECENT_PER_HOOK events).
  { apply loadHook_replay; [exact Hmax | | |].
    - destruct (ingest_all_log hook reqs st) as [Hlog _]. simpl files.
      fold st' in Hlog. rewrite Hlog, Hfile. unfold events. rewrite map_map. reflexivity.
    - intros e He. apply in_map_iff in He as (r & <- & Hr). apply Hparse. exact Hr.
    - intros e He. apply in_map_iff in He as (r & <- & _). eexists. reflexivity. }
  split; [exact Hcache | split; [exact Hload|]].
  rewrite Hcache, firstn_rev, rev_involutive.
  unfold cache_view at 1. simpl recentByHook. rewrite lookup_empty. exact Hload.
Qed.

(** ** Reading the CSV export back *)

Lemma cons_char_add_field c f rows :
  cons_char c (add_field f rows) = add_field (String c f) rows.
Proof. destruct rows; reflexivity. Qed.

Lemma is_csv_special_false c :
  is_csv_special c = false ->
  Ascii.eqb c ","%char = false /\ Ascii.eqb c newline = false /\
  Ascii.eqb c Json.dquote = false.
Proof.
  intros Hc. repeat split; apply Ascii.eqb_neq; intros ->; vm_compute in Hc; discriminate.
Qed.

(** A field that needs no quotes, up to the separator that ends it. *)
Lemma csv_read_plain f mode rest :
  has_char is_csv_special f = false -> mode <> InQuoted ->
  csv_read mode (f +:+ String ","%char rest) = add_field f (csv_read AtStart rest) /\
  csv_read mode (f +:+ String newline rest) = [f] :: csv_read AtStart rest.
Proof.
  revert mode. induction f as [|c f IH]; intros mode Hf Hmode.
  - destruct mode; try congruence; split; reflexivity.
  - simpl in Hf. apply orb_false_iff in Hf as [Hc Hf].
    destruct (is_csv_special_false c Hc) as (Hcomma & Hnl & Hq).
    destruct (IH InPlain Hf) as [IH1 IH2]; [discriminate|].
    change (String c f +:+ ?x) with (String c (f +:+ x)).
    destruct mode; try congruence; simpl csv_read; rewrite Hcomma, Hnl, ?Hq, ?IH1, ?IH2;
      split; first [apply cons_char_add_field | reflexivity].
Qed.

(** The inside of a quoted field, from after the opening quote up to the
    separator that follows the closing quote. *)
Lemma csv_read_in_quotes f rest :
  csv_read InQuoted (double_quotes f +:+ String Json.dquote (String ","%char rest))
  = add_field f (csv_read AtStart rest) /\
  csv_read InQuoted (double_quotes f +:+ String Json.dquote (String newline rest))
  = [f] :: csv_read AtStart rest.
Proof.
  induction f as [|c f [IH1 IH2]]; [split; reflexivity|].
  simpl double_quotes. destruct (Ascii.eqb c Json.dquote) eqn:Hc.
  - apply Ascii.eqb_eq in Hc. subst c.
    change (String Json.dquote (String Json.dquote (double_quotes f)) +:+ ?x)
      with (String Json.dquote (String Json.dquote (double_quotes f +:+ x))).
    simpl csv_read. rewrite IH1, IH2. split; first [apply cons_char_add_field | reflexivity].
  - change (String c (double_quotes f) +:+ ?x) with (String c (double_quotes f +:+ x)).
    simpl csv_read. rewrite Hc, IH1, IH2.
    split; first [apply cons_char_add_field | reflexivity].
Qed.

(** An escaped field, up to the separator that ends it, is read back as
    the field. *)
Lemma csv_read_escaped f rest :
  csv_read AtStart (csvEscape (Some f) +:+ String ","%char rest)
  = add_field f (csv_read AtStart rest) /\
  csv_read AtStart (csvEscape (Some f) +:+ String newline rest)
  = [f] :: csv_read AtStart rest.
Proof.
  unfold csvEscape. destruct (has_char is_csv_special f) eqn:Hf.
  - change (String Json.dquote (double_quotes f +:+ String Json.dquote EmptyString) +:+ ?x)
      with (String Json.dquote ((double_quotes f +:+ String Json.dquote EmptyString) +:+ x)).
    rewrite !string_app_assoc.
    change (String Json.dquote EmptyString +:+ ?x) with (String Json.dquote x).
    simpl csv_read. apply csv_read_in_quotes.
  - apply csv_read_plain; [exact Hf | discriminate].
Qed.

(** A record of escaped fields, up to the line feed that ends it. *)
Lemma csv_read_record fields rest :
  fields <> [] ->
  csv_read AtStart
    (join "," (map (fun f => csvEscape (Some f)) fields) +:+ String newline rest)
  = fields :: csv_read AtStart rest.
Proof.
  induction fields as [|f fields IH]; [congruence|]. intros _.
  destruct fields as [|f' fields'].
  - simpl map. simpl join. apply csv_read_escaped.
  - change (join "," (map (fun f => csvEscape (Some f)) (f :: f' :: fields')))
      with (csvEscape (Some f) +:+ ","
              +:+ join "," (map (fun f => csvEscape (Some f)) (f' :: fields'))).
    rewrite !string_app_assoc.
    change ("," +:+ ?x) with (String ","%char x).
    rewrite (proj1 (csv_read_escaped f _)), IH by discriminate. reflexivity.
Qed.

(** The records of a text made of records of escaped fields, each ended
    by a line feed; the reader reports the empty text after the last line
    feed as one more record with one empty field. *)
Lemma csv_read_records rows :
  Forall (fun fields => fields <> []) rows -> rows <> [] ->
  csv_read AtStart
    (join (String newline EmptyString)
       (map (fun fields => join "," (map (fun f => csvEscape (Some f)) fields)) rows)
     +:+ String newline EmptyString)
  = rows ++ [[EmptyString]].
Proof.
  induction 1 as [|fields rows Hf Hrows IH]; [congruence|]. intros _.
  destruct rows as [|fields' rows'].
  - simpl map. simpl join. rewrite csv_read_record by exact Hf. reflexivity.
  - set (line := fun fields => join "," (map (fun f => csvEscape (Some f)) fields)) in *.
    change (join (String newline EmptyString) (map line (fields :: fields' :: rows')))
      with (line fields +:+ String newline EmptyString
              +:+ join (String newline EmptyString) (map line (fields' :: rows'))).
    rewrite !string_app_assoc.
    change (String newline EmptyString +:+ ?x) with (String newline x).
    unfold line at 1. rewrite csv_read_record by exact Hf.
    rewrite IH by discriminate. reflexivity.
Qed.

Lemma csvEscape_field_text x :
  csvEscape_field x = let* t := csv_text x in Ok (csvEscape (Some t)).
Proof. destruct x as [[]|]; reflexivity. Qed.

Lemma all_ok_then {A B} (g : A -> B) (rs : list (result A)) :
  all_ok (map (fun r => let* t := r in Ok (g t)) rs)
  = let* ts := all_ok rs in Ok (map g ts).
Proof.
  induction rs as [|r rs IH]; [reflexivity|].
  simpl. destruct r as [t|]; [| reflexivity]. simpl. rewrite IH.
  destruct (all_ok rs); reflexivity.
Qed.

Section CsvFacts.
Context `{env : Env}.

Lemma csv_row_values e :
  csv_row e
  = let* fields := csv_values e in
    Ok (join "," (map (fun f => csvEscape (Some f)) fields)).
Proof.
  unfold csv_row, csv_values.
  pose proof (all_ok_then (fun f => csvEscape (Some f))
                [csv_text (Json.get e "receivedAt");
                 csv_text (Json.get e "id");
                 csv_text (Json.get e "hook");
                 csv_text (or_empty (meta_field e "ip"));
                 csv_text (or_empty (meta_field e "contentType"));
                 csv_text (or_empty (meta_field e "userAgent"));
                 Ok (stringifySafe_val (payload_or_empty e))]) as Hrows.
  cbn [map bind] in Hrows. rewrite !csvEscape_field_text, Hrows. clear Hrows.
  destruct (all_ok _); reflexivity.
Qed.

Lemma csv_values_length e fields : csv_values e = Ok fields -> length fields = 7.
Proof.
  unfold csv_values. intros H.
  rewrite <- (map_id [csv_text (Json.get e "receivedAt"); csv_text (Json.get e "id");
                      csv_text (Json.get e "hook"); csv_text (or_empty (meta_field e "ip"));
                      csv_text (or_empty (meta_field e "contentType"));
                      csv_text (or_empty (meta_field e "userAgent"));
                      Ok (stringifySafe_val (payload_or_empty e))]) in H.
  apply all_ok_map_length in H. exact H.
Qed.

Lemma csv_rows_length events : forall rows,
  all_ok (map csv_values events) = Ok rows -> Forall (fun r => length r = 7) rows.
Proof.
  induction events as [|e events IH]; intros rows; simpl.
  - intros [= <-]. constructor.
  - destruct (csv_values e) as [r|] eqn:He; [| discriminate]. simpl.
    destruct (all_ok (map csv_values events)) as [rs|]; [| discriminate]. simpl.
    intros [= <-]. constructor; [exact (csv_values_length e r He) | apply IH; reflexivity].
Qed.

Lemma csv_header_line :
  join "," csv_header = join "," (map (fun f => csvEscape (Some f)) csv_header).
Proof. reflexivity. Qed.

(** The rows of the export are the escaped column values of the events,
    when every conversion succeeds. *)
Lemma csv_rows_values events :
  all_ok (map csv_row events)
  = let* rows := all_ok (map csv_values events) in
    Ok (map (fun fields => join "," (map (fun f => csvEscape (Some f)) fields)) rows).
Proof.
  induction events as [|e events IH]; [reflexivity|].
  simpl. rewrite csv_row_values, IH.
  destruct (csv_values e); [| reflexivity]. simpl.
  destruct (all_ok (map csv_values events)); reflexivity.
Qed.

End CsvFacts.

(** X20. The CSV export can be read back.  For the events an export
    selects, when the conversion of every column to a string succeeds the
    export answers with a download, and a standard reader splits the body
    into the header record, then one record of exactly seven fields for
    each exported event, in the order of the export, each field being the
    text of the column before escaping (commas, quotes and line breaks
    included), and nothing else but the empty text after the last line
    feed.  When the conversion of a column throws, the export ends in the
    answer of the error middleware. *)
Theorem export_csv_reads_back `{env : Env}
    (hookParam q field value : option string) (st : state) :
  forall events st1,
    export_events hookParam q field value st = (inr events, st1) ->
    (forall rows,
       all_ok (map csv_values events) = Ok rows ->
       exists body,
         export_csv hookParam q field value st = (Download body, st1) /\
         csv_read AtStart body = (csv_header :: rows) ++ [[EmptyString]] /\
         Forall (fun record => length record = 7) (csv_header :: rows)) /\
    (all_ok (map csv_values events) = Throw ->
     export_csv hookParam q field value st = (ServerError, st1)).
Proof.
  intros events st1 Hexp. unfold export_csv. rewrite Hexp, csv_rows_values. split.
  - intros rows Hrows. rewrite Hrows. cbn [bind]. cbv zeta.
    eexists. split; [reflexivity | split].
    + rewrite csv_header_line.
      change (join "," (map (fun f => csvEscape (Some f)) csv_header)
              :: map (fun fields => join "," (map (fun f => csvEscape (Some f)) fields)) rows)
        with (map (fun fields => join "," (map (fun f => csvEscape (Some f)) fields))
                (csv_header :: rows)).
      apply csv_read_records; [| discriminate].
      constructor; [discriminate|].
      eapply List.Forall_impl; [| exact (csv_rows_length events rows Hrows)].
      intros r Hr ->. discriminate.
    + constructor; [reflexivity | exact (csv_rows_length events rows Hrows)].
  - intros Hthrow. rewrite Hthrow. reflexivity.
Qed.

(** ** Blanks and case in the filter parameters *)

Lemma is_space_lower_char c : is_space (lower_char c) = is_space c.
Proof. destruct c as [[] [] [] [] [] [] [] []]; reflexivity. Qed.

Lemma trimStart_toLowerCase s : trimStart (toLowerCase s) = toLowerCase (trimStart s).
Proof.
  induction s as [|c s IH]; [reflexivity|].
  simpl. rewrite is_space_lower_char, IH. destruct (is_space c); reflexivity.
Qed.

Lemma trimEnd_toLowerCase s : trimEnd (toLowerCase s) = toLowerCase (trimEnd s).
Proof.
  induction s as [|c s IH]; [reflexivity|].
  simpl. rewrite IH, is_space_lower_char.
  destruct (trimEnd s); simpl; [destruct (is_space c)|]; reflexivity.
Qed.

Lemma trim_toLowerCase s : trim (toLowerCase s) = toLowerCase (trim s).
Proof. unfold trim. rewrite trimStart_toLowerCase. apply trimEnd_toLowerCase. Qed.

Lemma nonempty_trim s : nonempty s && nonempty (trim s) = nonempty (trim s).
Proof. destruct s; reflexivity. Qed.

(** X21. The combined matcher does not see white space around the query,
    the field path or the selected value, nor the case of the selected
    value: replacing any of the three by its trimmed form, or the value by
    its lower-case form, gives the same answer on every event. *)
Theorem eventMatches_ignores_outer_blanks_and_value_case `{env : Env}
    (evt : json) (q field value : string) :
  eventMatches evt (trim q) field value = eventMatches evt q field value /\
  eventMatches evt q (trim field) value = eventMatches evt q field value /\
  eventMatches evt q field (trim value) = eventMatches evt q field value /\
  eventMatches evt q field (toLowerCase value) = eventMatches evt q field value.
Proof.
  unfold eventMatches, eventMatchesSelectedField, normalizeQ. cbv zeta.
  rewrite !nonempty_trim, !trim_idempotent, trim_toLowerCase, !toLowerCase_idempotent,
    !toLowerCase_nonempty.
  repeat split; reflexivity.
Qed.

(** ** The name of an export *)

Lemma all_chars_app p a b : all_chars p (a +:+ b) = all_chars p a && all_chars p b.
Proof.
  induction a as [|c a IH]; [reflexivity|].
  change (String c a +:+ b) with (String c (a +:+ b)).
  simpl. rewrite IH. apply andb_assoc.
Qed.

Lemma all_chars_weaken (p p' : ascii -> bool) s :
  (forall c, p c = true -> p' c = true) -> all_chars p s = true -> all_chars p' s = true.
Proof.
  intros Hpp. induction s as [|c s IH]; [reflexivity|]. simpl.
  intros H. apply andb_true_iff in H as [Hc Hs]. rewrite (Hpp c Hc), (IH Hs). reflexivity.
Qed.

(** X22. The file name an export announces is made of letters, digits,
    underscores, hyphens and dots only, whatever the query and the value
    are: for the wildcard or an allowed hook it holds no quote, no line
    break and no path separator, so it cannot break out of the quoted
    [filename] of the [Content-Disposition] header. *)
Theorem export_filename_is_plain `{env : Env} (scope q value ext : string) :
  scope = "*" \/ isHookAllowed scope = true ->
  ext = ".ndjson" \/ ext = ".csv" ->
  (forall c, occurs c (export_filename scope q value ext) ->
     is_hook_char c = true \/ c = "."%char) /\
  ~ occurs Json.dquote (export_filename scope q value ext) /\
  ~ occurs newline (export_filename scope q value ext) /\
  ~ occurs "013"%char (export_filename scope q value ext) /\
  ~ occurs "/"%char (export_filename scope q value ext).
Proof.
  intros Hscope Hext.
  set (plain := fun c => is_hook_char c || Ascii.eqb c "."%char).
  assert (Hall : all_chars plain (export_filename scope q value ext) = true).
  { unfold export_filename. rewrite !all_chars_app.
    assert (all_chars plain (if String.eqb scope "*" then "all-hooks" else scope) = true) as ->.
    { destruct Hscope as [-> | Hallowed]; [reflexivity|].
      destruct (String.eqb scope "*"); [reflexivity|].
      apply isHookAllowed_iff in Hallowed as (_ & Hchars & _).
      apply (all_chars_weaken is_hook_char); [intros c Hc; unfold plain; rewrite Hc; reflexivity|].
      apply all_chars_spec. exact Hchars. }
    assert (all_chars plain (if nonempty q || nonempty value then "-filtered" else EmptyString)
            = true) as -> by (destruct (nonempty q || nonempty value); reflexivity).
    destruct Hext as [-> | ->]; reflexivity. }
  rewrite all_chars_spec in Hall.
  repeat (match goal with |- _ /\ _ => split end);
    try (intros Hc; apply Hall in Hc; vm_compute in Hc; discriminate).
  intros c Hc. apply Hall in Hc. unfold plain in Hc.
  apply orb_true_iff in Hc as [Hc | Hc]; [left; exact Hc | right].
  apply Ascii.eqb_eq in Hc. exact Hc.
Qed.

(** ** Visibility of a new event *)

Section VisibilityFacts.
Context `{env : Env}.

Lemma storeEvent_log_exists hook payload meta id now st :
  is_Some (files (snd (storeEvent hook payload meta id now st)) !! hook).
Proof. rewrite storeEvent_files. unfold appendFile. rewrite lookup_insert_eq. eauto. Qed.

End VisibilityFacts.

(** X23. An accepted event is visible at once: when the cache may hold at
    least one event, after an accepted webhook request the hook is on the
    hook list, the new event is the first entry of the cache of its hook,
    and it is among the events the aggregation reads.  An unfiltered
    listing of the hook counts at least one event whenever it is
    produced, and it is produced when the summary throws on no cached
    event of the hook. *)
Theorem post_hook_event_is_visible `{env : Env}
    (r : webhook_request) (id now : string) (st : state) :
  0 < MAX_RECENT_PER_HOOK ->
  trim (wh_hook r) <> "api" -> trim (wh_hook r) <> "dashboard" ->
  isHookAllowed (trim (wh_hook r)) = true ->
  let hook := trim (wh_hook r) in
  let evt := mkEvent id hook now (webhook_meta r) (webhook_payload (wh_body r)) in
  let st' := snd (post_hook r id now st) in
  In hook (api_hooks st') /\
  (exists rest, cache_view st' hook = evt :: rest) /\
  In evt (all_events st') /\
  (forall limit count items,
     fst (api_hook hook None None None limit st') = Listing count items -> 1 <= count) /\
  (Forall (fun e => buildSummary e <> Throw) (cache_view st' hook) ->
   forall limit, exists n items,
     fst (api_hook hook None None None limit st') = Listing (S n) items).
Proof.
  intros Hmax Hapi Hdash Hallowed hook evt st'.
  apply String.eqb_neq in Hapi, Hdash.
  assert (Hst : st' = snd (storeEvent hook (webhook_payload (wh_body r)) (webhook_meta r)
                             id now st)).
  { unfold st'. rewrite (post_hook_accepted r id now st Hapi Hdash Hallowed). reflexivity. }
  assert (Hlisted : In hook (listHooksOnDisk st')).
  { apply In_listHooksOnDisk. split; [exact Hallowed|].
    rewrite Hst. apply storeEvent_log_exists. }
  assert (Hhead : exists rest, cache_view st' hook = evt :: rest).
  { destruct (storeEvent_head hook (webhook_payload (wh_body r)) (webhook_meta r) id now st Hmax)
      as (rest & Hcache).
    exists rest. unfold cache_view. rewrite Hst, Hcache. reflexivity. }
  assert (Hanswer : forall limit,
            fst (api_hook hook None None None limit st')
            = listing limit (cache_view st' hook)).
  { intros limit. rewrite (api_hook_listed hook None None None limit st' Hlisted).
    destruct (no_filter_keeps_all (normalizeQ None) (param None) (param None)
                (cache_view st' hook) eq_refl) as [Hno Hall].
    unfold request_matcher. rewrite Hno, Hall. reflexivity. }
  split; [right; exact Hlisted | split; [exact Hhead | split; [| split]]].
  - destruct Hhead as (rest & Hcache). unfold all_events. apply in_concat.
    exists (cache_view st' hook). split; [apply in_map; exact Hlisted|].
    rewrite Hcache. left. reflexivity.
  - intros limit count items. rewrite Hanswer. intros Hl.
    apply listing_inv in Hl as [-> _]. destruct Hhead as (rest & ->). simpl. lia.
  - intros Hsum limit. rewrite Hanswer.
    destruct (listing_of_summarised limit (cache_view st' hook)) as (items & Hl).
    { eapply List.Forall_impl; [| exact Hsum]. intros e He Hthrow.
      apply He, with_summary_throws, Hthrow. }
    destruct Hhead as (rest & Hcache). rewrite Hl, Hcache. simpl length. eauto.
Qed.

(** ** The allowlist of the configuration *)

(** X24. The allowlist read from the configuration holds only names that
    are not empty and carry no white space at either end; it is empty, so
    that every well-formed hook name is allowed, when the variable is
    unset or empty or holds nothing but commas and white space. *)
Theorem parse_allowlist_entries_are_trimmed (v : string) :
  Forall (fun h => h <> EmptyString /\ trim h = h) (parse_allowlist (Some v)) /\
  parse_allowlist None = [] /\
  parse_allowlist (Some EmptyString) = [] /\
  ((forall piece, In piece (split ","%char v) -> trim piece = EmptyString) ->
   parse_allowlist (Some v) = []) /\
  (forall h, In h (parse_allowlist (Some v)) <->
             h <> EmptyString /\ exists piece, In piece (split ","%char v) /\ trim piece = h).
Proof.
  assert (Hin : forall h, In h (parse_allowlist (Some v)) <->
            h <> EmptyString /\ exists piece, In piece (split ","%char v) /\ trim piece = h).
  { intros h. unfold parse_allowlist. rewrite filter_In, in_map_iff, nonempty_true.
    split; intros [H1 H2]; split; try assumption;
      destruct H1 as (p & Hp1 & Hp2) || destruct H2 as (p & Hp1 & Hp2);
      exists p; auto. }
  split; [| split; [reflexivity | split; [reflexivity | split; [| exact Hin]]]].
  - apply List.Forall_forall. intros h Hh. apply Hin in Hh as (Hne & piece & _ & <-).
    split; [exact Hne | apply trim_idempotent].
  - intros Hblank.
    assert (Hnone : forall h, ~ In h (parse_allowlist (Some v))).
    { intros h Hh. apply Hin in Hh as (Hne & piece & Hp & <-).
      rewrite (Hblank piece Hp) in Hne. congruence. }
    destruct (parse_allowlist (Some v)) as [|h l]; [reflexivity|].
    destruct (Hnone h (or_introl eq_refl)).
Qed.

(** ** Durability *)

Lemma trimStart_app a b :
  trimStart (a +:+ b)
  = match trimStart a with
    | EmptyString => trimStart b
    | t => t +:+ b
    end.
Proof.
  induction a as [|c a IH]; [reflexivity|].
  change (String c a +:+ b) with (String c (a +:+ b)).
  simpl trimStart. destruct (is_space c); [exact IH | reflexivity].
Qed.

Lemma last_n_snoc {A} n (l : list A) x : last_n (S n) (l ++ [x]) = last_n n l ++ [x].
Proof.
  unfold last_n. rewrite length_app. simpl length.
  replace (length l + 1 - S n) with (length l - n) by lia.
  rewrite skipn_app.
  replace (length l - n - length l) with 0 by lia. reflexivity.
Qed.

Lemma filter_snoc {A} (p : A -> bool) (l : list A) x :
  p x = true -> List.filter p (l ++ [x]) = List.filter p l ++ [x].
Proof. intros Hx. rewrite List.filter_app. simpl. rewrite Hx. reflexivity. Qed.

Lemma omap_snoc {A B} (f : A -> option B) (l : list A) x y :
  f x = Some y -> omap f (l ++ [x]) = omap f l ++ [y].
Proof.
  intros Hx. induction l as [|a l IH].
  - cbn [app omap list_omap]. rewrite Hx. reflexivity.
  - cbn [app omap list_omap]. fold (omap f (l ++ [x])). fold (omap f l). rewrite IH.
    destruct (f a); reflexivity.
Qed.

(** The lines of a log that ends with a line feed, after one more record
    line was appended: the new line is the last one. *)
Lemma file_lines_appended old line :
  record_line line ->
  old = EmptyString \/ (exists old', old = old' +:+ String newline EmptyString) ->
  exists earlier,
    file_lines (old +:+ line +:+ String newline EmptyString) = earlier ++ [line].
Proof.
  intros Hline Hold.
  destruct (record_line_head line Hline) as (c & r & Hc & Hsp).
  pose proof (record_line_trimEnd line Hline) as Hfix.
  destruct Hline as (Hone & Hne & _).
  assert (Hnonempty : nonempty line = true) by (apply nonempty_true; exact Hne).
  assert (Hstart : trimStart (line +:+ String newline EmptyString)
                   = line +:+ String newline EmptyString).
  { rewrite Hc. change (String c r +:+ ?x) with (String c (r +:+ x)).
    simpl. rewrite Hsp. reflexivity. }
  assert (Hprefix : exists prefix,
            trimStart (old +:+ line +:+ String newline EmptyString)
            = prefix +:+ line +:+ String newline EmptyString /\
            (prefix = EmptyString \/
             exists p, prefix = p +:+ String newline EmptyString)).
  { rewrite trimStart_app, Hstart.
    destruct (trimStart old) as [|a t] eqn:Ht.
    - exists EmptyString. split; [reflexivity | left; reflexivity].
    - exists (String a t). split; [reflexivity|]. right.
      destruct Hold as [-> | (old' & ->)]; [discriminate|].
      rewrite trimStart_app in Ht.
      destruct (trimStart old') as [|a' t'] eqn:Ht'; [discriminate|].
      exists (String a' t'). symmetry. exact Ht. }
  destruct Hprefix as (prefix & Htrim & Hshape).
  assert (Hbody : trim (old +:+ line +:+ String newline EmptyString) = prefix +:+ line).
  { unfold trim. rewrite Htrim, <- string_app_assoc.
    apply trimEnd_app_newline.
    - apply trimEnd_app_fixed; assumption.
    - intros E. apply string_app_empty in E as [_ E]. congruence. }
  unfold file_lines. rewrite Hbody.
  destruct Hshape as [-> | (p & ->)].
  - exists []. simpl app. change (EmptyString +:+ line) with line.
    rewrite split_one_line by exact Hone. simpl. rewrite Hnonempty. reflexivity.
  - exists (List.filter nonempty (split newline p)).
    rewrite string_app_assoc.
    change (String newline EmptyString +:+ line) with (String newline line).
    rewrite split_app_sep, (split_one_line line Hone).
    apply filter_snoc. exact Hnonempty.
Qed.

(** X25. An accepted event survives a restart.  When the log of the hook
    is missing or ends with a line feed, as every log written by
    [storeEvent] does, and [JSON.parse] reads the serialised event back,
    then after the event was stored and the process restarted, loading the
    hook yields the event as the last record, for every positive cache
    limit. *)
Theorem storeEvent_event_survives_restart `{env : Env}
    (hook : string) (payload meta : json) (id now : string) (st : state) :
  0 < MAX_RECENT_PER_HOOK ->
  (files st !! hook = None \/
   exists old, files st !! hook = Some (old +:+ String newline EmptyString)) ->
  JSON_parse (Json.stringify (mkEvent id hook now meta payload))
  = Some (mkEvent id hook now meta payload) ->
  let st' := snd (storeEvent hook payload meta id now st) in
  (exists content, files st' !! hook = Some (content +:+ String newline EmptyString)) /\
  exists earlier,
    loadHook hook (restart st') = earlier ++ [mkEvent id hook now meta payload] /\
    cache_view (restart st') hook = earlier ++ [mkEvent id hook now meta payload].
Proof.
  intros Hmax Hold Hparse st'.
  set (evt := mkEvent id hook now meta payload) in *.
  set (line := Json.stringify evt).
  assert (Hfile : files st' !! hook
                  = Some (default EmptyString (files st !! hook)
                          +:+ line +:+ String newline EmptyString)).
  { unfold st'. rewrite storeEvent_files. unfold appendFile. rewrite lookup_insert_eq.
    destruct (files st !! hook); reflexivity. }
  split.
  - eexists. rewrite Hfile, <- string_app_assoc. reflexivity.
  - destruct (file_lines_appended (default EmptyString (files st !! hook)) line)
      as (earlier & Hlines).
    { apply stringify_object_record_line. }
    { destruct Hold as [-> | (old & ->)]; [left; reflexivity | right; eexists; reflexivity]. }
    assert (Hload : loadHook hook (restart st')
                    = List.filter Json.truthy
                        (omap JSON_parse (last_n (pred MAX_RECENT_PER_HOOK) earlier))
                      ++ [evt]).
    { rewrite (loadHook_eq hook (restart st') _ Hmax Hfile), Hlines.
      destruct MAX_RECENT_PER_HOOK as [|n]; [lia|]. simpl pred.
      rewrite last_n_snoc, (omap_snoc JSON_parse _ line evt Hparse).
      apply filter_snoc. reflexivity. }
    eexists. split; [exact Hload|].
    unfold cache_view. simpl recentByHook. rewrite lookup_empty. exact Hload.
Qed.

Lemma storeEvent_event_survives_restart_witness :
  0 < MAX_RECENT_PER_HOOK (Env := default_env) /\
  (exists old, files Scenario.one_booking !! "tracks" = Some (old +:+ String newline EmptyString)) /\
  exists earlier,
    loadHook (env := default_env) "tracks" (restart Scenario.two_bookings)
    = earlier ++ [mkEvent "evt-2" "tracks" "2024-05-01T10:00:01.000Z" sample_meta
                    (booking_payload "52")].
Proof.
  assert (Hmax : 0 < MAX_RECENT_PER_HOOK (Env := default_env)) by (simpl; lia).
  assert (Hold : exists old,
            files Scenario.one_booking !! "tracks" = Some (old +:+ String newline EmptyString)).
  { exists (Json.stringify booking_event). vm_compute. reflexivity. }
  split; [exact Hmax | split; [exact Hold|]].
  destruct (storeEvent_event_survives_restart (env := default_env) "tracks"
              (booking_payload "52") sample_meta "evt-2" "2024-05-01T10:00:01.000Z"
              Scenario.one_booking Hmax (or_intror Hold))
    as (_ & earlier & Hload & _); [vm_compute; reflexivity|].
  exists earlier. exact Hload.
Defined.

(** ** The summary of a listed event *)

Lemma lookup_set_prop_ne k k' v props :
  k <> k' -> Json.lookup_prop k (set_prop k' v props) = Json.lookup_prop k props.
Proof.
  intros Hne. induction props as [|[k0 v0] props IH]; simpl.
  - destruct (String.eqb k' k) eqn:E; [apply String.eqb_eq in E; congruence | reflexivity].
  - destruct (String.eqb k0 k') eqn:E0; simpl.
    + apply String.eqb_eq in E0. subst k0.
      destruct (String.eqb k' k) eqn:E; [apply String.eqb_eq in E; congruence | reflexivity].
    + rewrite IH. reflexivity.
Qed.

Lemma lookup_set_prop_eq k v props : Json.lookup_prop k (set_prop k v props) = Some v.
Proof.
  induction props as [|[k0 v0] props IH]; simpl; [rewrite String.eqb_refl; reflexivity|].
  destruct (String.eqb k0 k) eqn:E; simpl; rewrite E; [reflexivity | exact IH].
Qed.

Lemma set_prop_keys k v props :
  map fst (set_prop k v props)
  = if existsb (String.eqb k) (map fst props) then map fst props else map fst props ++ [k].
Proof.
  induction props as [|[k0 v0] props IH]; [reflexivity|].
  simpl. rewrite (String.eqb_sym k k0). destruct (String.eqb k0 k); simpl; [reflexivity|].
  rewrite IH. destruct (existsb _ _); reflexivity.
Qed.

(** X26. A listed item is the event with its summary: for an event that
    is an object and whose summary is built, the item has every property
    of the event with the same value, in the same order, except that
    [_summary] holds the summary text; the property is added at the end
    when the event has none, and replaced in place when it has one. *)
Theorem with_summary_keeps_event_properties
    (props : list (string * json)) (k : string) (item : json) :
  with_summary (JObj props) = Ok item ->
  (k <> "_summary" -> Json.get item k = Json.get (JObj props) k) /\
  (exists summary,
     buildSummary (JObj props) = Ok summary /\
     Json.get item "_summary" = Some (JStr summary)) /\
  (exists props', item = JObj props' /\
     map fst props'
     = if existsb (String.eqb "_summary") (map fst props) then map fst props
       else map fst props ++ ["_summary"]).
Proof.
  unfold with_summary. destruct (buildSummary (JObj props)) as [summary|]; [| discriminate].
  simpl bind. simpl spread. intros [= <-]. simpl Json.get.
  split; [intros Hk; apply lookup_set_prop_ne; exact Hk | split].
  - exists summary. split; [reflexivity | apply lookup_set_prop_eq].
  - eexists. split; [reflexivity | apply set_prop_keys].
Qed.

Lemma with_summary_keeps_event_properties_witness :
  let props := [("id", JStr "evt-1"); ("hook", JStr "tracks");
                ("receivedAt", JStr "2024-05-01T10:00:00.000Z");
                ("meta", sample_meta); ("payload", booking_payload "51")] in
  let item := JObj (props ++ [("_summary", JStr "BookingCreated | D CS 51")]) in
  with_summary (JObj props) = Ok item /\
  Json.get item "payload" = Some (booking_payload "51") /\
  Json.get item "_summary" = Some (JStr "BookingCreated | D CS 51").
Proof.
  cbv zeta.
  assert (Hitem : with_summary
                    (JObj [("id", JStr "evt-1"); ("hook", JStr "tracks");
                           ("receivedAt", JStr "2024-05-01T10:00:00.000Z");
                           ("meta", sample_meta); ("payload", booking_payload "51")])
                  = Ok (JObj ([("id", JStr "evt-1"); ("hook", JStr "tracks");
                               ("receivedAt", JStr "2024-05-01T10:00:00.000Z");
                               ("meta", sample_meta); ("payload", booking_payload "51")]
                              ++ [("_summary", JStr "BookingCreated | D CS 51")])))
    by (vm_compute; reflexivity).
  split; [exact Hitem|].
  destruct (with_summary_keeps_event_properties _ "payload" _ Hitem)
    as (Hkeep & (summary & Hsum & Hget) & _).
  split; [rewrite Hkeep by discriminate; reflexivity|].
  rewrite Hget. f_equal. f_equal.
  assert (buildSummary
            (JObj [("id", JStr "evt-1"); ("hook", JStr "tracks");
                   ("receivedAt", JStr "2024-05-01T10:00:00.000Z");
                   ("meta", sample_meta); ("payload", booking_payload "51")])
          = Ok "BookingCreated | D CS 51") as Hb by (vm_compute; reflexivity).
  congruence.
Defined.

(** ** Sorting a part before sorting the whole *)

Section SortTwice.
Context {A : Type} (compareFn : A -> A -> Z).

Local Abbreviation ord := (in_order compareFn).
Local Abbreviation ins := (insert_sorted compareFn).

Lemma insert_sorted_front x l : Forall (ord x) l -> ins x l = x :: l.
Proof.
  destruct l as [|y l]; [reflexivity|]. intros H. inversion H as [|? ? Hy _]; subst.
  simpl. unfold in_order in Hy. rewrite Hy. reflexivity.
Qed.

Lemma stable_sort_fixed l : StronglySorted ord l -> stable_sort compareFn l = l.
Proof.
  induction 1 as [|x l Hs IH Hx]; [reflexivity|].
  simpl. rewrite IH. apply insert_sorted_front. exact Hx.
Qed.

Lemma stable_sort_app a b : stable_sort compareFn (a ++ b) = foldr ins (stable_sort compareFn b) a.
Proof. unfold stable_sort. apply foldr_app. Qed.

Variable D : A -> Prop.
Hypothesis Htrans : forall a b c, D a -> D b -> D c -> ord a b -> ord b c -> ord a c.
Hypothesis Htotal : forall a b, D a -> D b -> ~ ord a b -> ord b a.

Lemma ord_dec a b : {ord a b} + {~ ord a b}.
Proof.
  unfold in_order. destruct (0 <? compareFn a b)%Z; [right; discriminate | left; reflexivity].
Qed.

Lemma insert_sorted_step x y l :
  ins x (y :: l) = if ord_dec x y then x :: y :: l else y :: ins x l.
Proof.
  simpl. destruct (ord_dec x y) as [H | H]; unfold in_order in H;
    destruct (0 <? compareFn x y)%Z; congruence.
Qed.

(** Two elements of which one has to follow the other can be inserted in
    either order. *)
Lemma insert_sorted_comm b y m :
  D b -> D y -> Forall D m -> ~ ord b y ->
  ins y (ins b m) = ins b (ins y m).
Proof.
  intros Db Dy Dm Hby.
  assert (Hyb : ord y b) by (apply Htotal; assumption).
  induction Dm as [|z m Dz Dm IH].
  - simpl. unfold in_order in Hyb. rewrite Hyb.
    destruct (0 <? compareFn b y)%Z eqn:E; [reflexivity|]. destruct Hby. exact E.
  - rewrite (insert_sorted_step b z), (insert_sorted_step y z).
    destruct (ord_dec b z) as [Hbz | Hbz], (ord_dec y z) as [Hyz | Hyz].
    + rewrite (insert_sorted_step y b), (insert_sorted_step b y).
      destruct (ord_dec y b); [| contradiction].
      destruct (ord_dec b y); [contradiction|].
      rewrite (insert_sorted_step b z). destruct (ord_dec b z); [reflexivity | contradiction].
    + destruct Hyz. apply (Htrans y b z); assumption.
    + rewrite (insert_sorted_step y z), (insert_sorted_step b y).
      destruct (ord_dec y z); [| contradiction].
      destruct (ord_dec b y); [contradiction|].
      rewrite (insert_sorted_step b z). destruct (ord_dec b z); [contradiction | reflexivity].
    + rewrite (insert_sorted_step y z), (insert_sorted_step b z).
      destruct (ord_dec y z); [contradiction|].
      destruct (ord_dec b z); [contradiction|].
      rewrite IH. reflexivity.
Qed.

Lemma Forall_insert_sorted x l : D x -> Forall D l -> Forall D (ins x l).
Proof.
  intros Dx Dl. eapply Permutation_Forall; [symmetry; apply insert_sorted_perm|].
  constructor; assumption.
Qed.

Lemma Forall_foldr_insert s l : Forall D s -> Forall D l -> Forall D (foldr ins s l).
Proof.
  intros Ds Dl. induction Dl as [|x l Dx Dl IH]; [exact Ds|].
  simpl. apply Forall_insert_sorted; assumption.
Qed.

Lemma foldr_insert_insert b l s :
  D b -> Forall D l -> Forall D s ->
  foldr ins s (ins b l) = ins b (foldr ins s l).
Proof.
  intros Db Dl Ds. induction Dl as [|y l Dy Dl IH]; [reflexivity|].
  rewrite insert_sorted_step. destruct (ord_dec b y) as [H | H]; [reflexivity|].
  simpl foldr. rewrite IH. apply insert_sorted_comm; try assumption.
  apply Forall_foldr_insert; assumption.
Qed.

(** Inserting a list element by element gives the same result when the
    list is sorted first. *)
Lemma foldr_insert_stable_sort l s :
  Forall D l -> Forall D s ->
  foldr ins s (stable_sort compareFn l) = foldr ins s l.
Proof.
  intros Dl Ds. induction Dl as [|x l Dx Dl IH]; [reflexivity|].
  simpl stable_sort. rewrite foldr_insert_insert; try assumption.
  - simpl. rewrite IH. reflexivity.
  - eapply Permutation_Forall; [symmetry; apply stable_sort_perm | exact Dl].
Qed.

Lemma filter_insert_sorted (p : A -> bool) b l :
  D b -> Forall D l -> StronglySorted ord l ->
  List.filter p (ins b l)
  = if p b then ins b (List.filter p l) else List.filter p l.
Proof.
  intros Db Dl Hs. induction Hs as [|z l Hs IH Hz].
  - simpl. destruct (p b); reflexivity.
  - inversion Dl as [|? ? Dz Dl']; subst.
    rewrite insert_sorted_step. destruct (ord_dec b z) as [Hbz | Hbz].
    + cbn [List.filter]. destruct (p b); [| reflexivity].
      symmetry. apply insert_sorted_front.
      assert (Hall : Forall (ord b) (z :: l)).
      { constructor; [exact Hbz|].
        rewrite List.Forall_forall in *. intros w Hw.
        apply (Htrans b z w); auto. }
      apply (Forall_filter_keep _ p) in Hall. exact Hall.
    + cbn [List.filter]. rewrite (IH Dl').
      destruct (p z), (p b); try reflexivity.
      rewrite insert_sorted_step. destruct (ord_dec b z); [contradiction | reflexivity].
Qed.

(** Filtering commutes with sorting. *)
Lemma filter_stable_sort (p : A -> bool) l :
  Forall D l -> List.filter p (stable_sort compareFn l) = stable_sort compareFn (List.filter p l).
Proof.
  intros Dl. induction Dl as [|x l Dx Dl IH]; [reflexivity|].
  simpl stable_sort. rewrite filter_insert_sorted; [| exact Dx | |].
  - cbn [List.filter]. rewrite IH. destruct (p x); reflexivity.
  - eapply Permutation_Forall; [symmetry; apply stable_sort_perm | exact Dl].
  - apply (stable_sort_sorted compareFn D Htrans Htotal). exact Dl.
Qed.

(** Sorting some of the parts of a concatenation beforehand does not
    change the sorted selection. *)
Lemma stable_sort_filter_concat_presorted (p : A -> bool) (parts parts' : list (list A)) :
  Forall (Forall D) parts ->
  Forall2 (fun l' l => l' = l \/ l' = stable_sort compareFn l) parts' parts ->
  stable_sort compareFn (List.filter p (concat parts'))
  = stable_sort compareFn (List.filter p (concat parts)).
Proof.
  intros Dparts Hrel. induction Hrel as [|l' l parts' parts Hl Hrel IH]; [reflexivity|].
  inversion Dparts as [|? ? Dl Dparts']; subst.
  simpl concat. rewrite !List.filter_app, !stable_sort_app, (IH Dparts').
  destruct Hl as [-> | ->]; [reflexivity|].
  rewrite (filter_stable_sort p l Dl). apply foldr_insert_stable_sort.
  - apply Forall_filter_keep. exact Dl.
  - eapply Permutation_Forall; [symmetry; apply stable_sort_perm|].
    apply Forall_filter_keep. apply Forall_concat. exact Dparts'.
Qed.

End SortTwice.

(** ** What an export leaves to later requests *)

Lemma existsb_perm {A} (p : A -> bool) (l l' : list A) :
  Permutation l l' -> existsb p l = existsb p l'.
Proof.
  induction 1 as [| x l l' _ IH | x y l | l l' l'' _ IH1 _ IH2]; simpl.
  - reflexivity.
  - rewrite IH. reflexivity.
  - destruct (p x), (p y); reflexivity.
  - congruence.
Qed.

Lemma Forall_concat_inv {A} (P : A -> Prop) (parts : list (list A)) :
  Forall P (concat parts) -> Forall (Forall P) parts.
Proof.
  induction parts as [|l parts IH]; [constructor|].
  simpl. intros H. apply Forall_app in H as [Hl Hrest].
  constructor; [exact Hl | apply IH; exact Hrest].
Qed.

Lemma timestamped_trans a b c :
  timestamped a -> timestamped b -> timestamped c ->
  in_order byReceivedAtDesc a b -> in_order byReceivedAtDesc b c ->
  in_order byReceivedAtDesc a c.
Proof. intros Da Db Dc. rewrite !in_order_not_older. apply not_older_trans; assumption. Qed.

Lemma timestamped_total a b :
  timestamped a -> timestamped b ->
  ~ in_order byReceivedAtDesc a b -> in_order byReceivedAtDesc b a.
Proof. intros Da Db. rewrite !in_order_not_older. apply not_older_total; assumption. Qed.

Section LaterRequests.
Context `{env : Env}.

(** On events with string time stamps the sort of the engine is the
    stable sort. *)
Lemma sort_timestamped (l : list json) :
  Forall timestamped l -> sort byReceivedAtDesc l = stable_sort byReceivedAtDesc l.
Proof. intros Dl. apply sort_of_consistent, byReceivedAtDesc_consistent. exact Dl. Qed.

Lemma sort_timestamped_filter (p : json -> bool) (l : list json) :
  Forall timestamped l ->
  sort byReceivedAtDesc (List.filter p l) = stable_sort byReceivedAtDesc (List.filter p l).
Proof. intros Dl. apply sort_timestamped, Forall_filter_keep. exact Dl. Qed.

(** The selection of a request from a list of events: whether the matcher
    throws, and the accepted events in sorted order. *)
Lemma selection_presorted (fn : json -> result bool) (l : list json) :
  Forall timestamped l ->
  existsb (throws fn) (sort byReceivedAtDesc l) = existsb (throws fn) l /\
  sort byReceivedAtDesc (List.filter (accepts fn) (sort byReceivedAtDesc l))
  = sort byReceivedAtDesc (List.filter (accepts fn) l).
Proof.
  intros Dl. split; [apply existsb_perm, sort_perm|].
  rewrite (sort_timestamped_filter _ l Dl), (sort_timestamped l Dl).
  rewrite sort_timestamped_filter
    by (eapply Permutation_Forall; [symmetry; apply stable_sort_perm | exact Dl]).
  rewrite (filter_stable_sort byReceivedAtDesc timestamped timestamped_trans timestamped_total
             _ l Dl).
  apply stable_sort_fixed.
  apply (stable_sort_sorted byReceivedAtDesc timestamped timestamped_trans timestamped_total).
  apply Forall_filter_keep. exact Dl.
Qed.

Lemma Forall2_presorted (parts parts' : list (list json)) :
  Forall (Forall timestamped) parts ->
  Forall2 (fun l' l => l' = l \/ l' = sort byReceivedAtDesc l) parts' parts ->
  Forall2 (fun l' l => l' = l \/ l' = stable_sort byReceivedAtDesc l) parts' parts.
Proof.
  intros Dparts Hrel. induction Hrel as [|l' l parts' parts Hl Hrel IH]; [constructor|].
  inversion Dparts as [|? ? Dl Dparts']; subst.
  constructor; [| apply IH; exact Dparts'].
  destruct Hl as [-> | ->]; [left; reflexivity | right; apply sort_timestamped; exact Dl].
Qed.

Lemma selection_parts_presorted (fn : json -> result bool) (parts parts' : list (list json)) :
  Forall timestamped (concat parts) ->
  Forall2 (fun l' l => l' = l \/ l' = sort byReceivedAtDesc l) parts' parts ->
  existsb (throws fn) (concat parts') = existsb (throws fn) (concat parts) /\
  sort byReceivedAtDesc (List.filter (accepts fn) (concat parts'))
  = sort byReceivedAtDesc (List.filter (accepts fn) (concat parts)).
Proof.
  intros Dall Hrel. split.
  - clear Dall. induction Hrel as [|l' l parts' parts Hl Hrel IH]; [reflexivity|].
    simpl. rewrite !existsb_app, IH.
    destruct Hl as [-> | ->]; [reflexivity|].
    rewrite (existsb_perm _ _ _ (sort_perm byReceivedAtDesc l)). reflexivity.
  - assert (Dparts : Forall (Forall timestamped) parts) by (apply Forall_concat_inv; exact Dall).
    apply Forall2_presorted in Hrel; [| exact Dparts].
    assert (Dall' : Forall timestamped (concat parts')).
    { clear Dall. apply Forall_concat.
      induction Hrel as [|l' l parts' parts Hl Hrel IH]; [constructor|].
      inversion Dparts as [|? ? Dl Dparts']; subst.
      constructor; [| apply IH; exact Dparts'].
      destruct Hl as [-> | ->]; [exact Dl|].
      eapply Permutation_Forall; [symmetry; apply stable_sort_perm | exact Dl]. }
    rewrite (sort_timestamped_filter _ _ Dall), (sort_timestamped_filter _ _ Dall').
    apply (stable_sort_filter_concat_presorted byReceivedAtDesc timestamped
             timestamped_trans timestamped_total); [exact Dparts | exact Hrel].
Qed.

Lemma cache_sorted_parts scope st hooks :
  Forall2 (fun l' l => l' = l \/ l' = sort byReceivedAtDesc l)
    (map (cache_view (cache_sorted scope st)) hooks) (map (cache_view st) hooks).
Proof.
  induction hooks as [|h hooks IH]; [constructor|].
  simpl. constructor; [| exact IH].
  rewrite cache_sorted_view. destruct (decide (h = scope)) as [-> | _]; [right | left]; reflexivity.
Qed.

Lemma cache_sorted_all_events scope st (fn : json -> result bool) :
  Forall timestamped (all_events st) ->
  existsb (throws fn) (all_events (cache_sorted scope st)) = existsb (throws fn) (all_events st) /\
  sort byReceivedAtDesc (List.filter (accepts fn) (all_events (cache_sorted scope st)))
  = sort byReceivedAtDesc (List.filter (accepts fn) (all_events st)).
Proof.
  intros Dall. unfold all_events.
  rewrite (listHooksOnDisk_same_files st (cache_sorted scope st) (cache_sorted_files scope st)).
  apply selection_parts_presorted; [exact Dall | apply cache_sorted_parts].
Qed.

Lemma cache_sorted_cache_view scope st h (fn : json -> result bool) :
  Forall timestamped (cache_view st scope) ->
  existsb (throws fn) (cache_view (cache_sorted scope st) h)
  = existsb (throws fn) (cache_view st h) /\
  sort byReceivedAtDesc (List.filter (accepts fn) (cache_view (cache_sorted scope st) h))
  = sort byReceivedAtDesc (List.filter (accepts fn) (cache_view st h)).
Proof.
  intros Dl. rewrite cache_sorted_view.
  destruct (decide (h = scope)) as [-> | _]; [| split; reflexivity].
  apply selection_presorted. exact Dl.
Qed.

Lemma export_events_fst_cache_sorted scope st hookParam q field value :
  Forall timestamped (all_events st) -> Forall timestamped (cache_view st scope) ->
  fst (export_events hookParam q field value (cache_sorted scope st))
  = fst (export_events hookParam q field value st).
Proof.
  intros Dall Dl. rewrite !export_events_spec. cbv zeta. unfold exported.
  destruct (String.eqb (export_scope hookParam) "*").
  - simpl fst.
    destruct (cache_sorted_all_events scope st (request_matcher q field value) Dall)
      as [-> ->]. reflexivity.
  - destruct (isHookAllowed (export_scope hookParam)); simpl negb; cbv iota; [| reflexivity].
    simpl fst.
    destruct (cache_sorted_cache_view scope st (export_scope hookParam)
                (request_matcher q field value) Dl) as [-> ->]. reflexivity.
Qed.

Lemma export_events_fst_same_view st st' hookParam q field value :
  same_view st st' ->
  fst (export_events hookParam q field value st')
  = fst (export_events hookParam q field value st).
Proof.
  intros Hsame. rewrite !export_events_spec. cbv zeta.
  rewrite (all_events_same_view st st' Hsame). destruct Hsame as [_ Hv]. rewrite Hv.
  destruct (String.eqb _ "*"); [reflexivity|]. destruct (negb _); reflexivity.
Qed.

Lemma export_ndjson_fst hookParam q field value st :
  fst (export_ndjson hookParam q field value st)
  = match fst (export_events hookParam q field value st) with
    | inl r => r
    | inr events => Download (ndjson_body events)
    end.
Proof.
  unfold export_ndjson.
  destruct (export_events hookParam q field value st) as [[r | events] st1]; reflexivity.
Qed.

Lemma export_csv_fst hookParam q field value :
  exists render : list json -> response,
    forall st0,
      fst (export_csv hookParam q field value st0)
      = match fst (export_events hookParam q field value st0) with
        | inl r => r
        | inr events => render events
        end.
Proof.
  exists (fun events =>
            match all_ok (map csv_row events) with
            | Ok lines =>
                Download (join (String newline "") (join "," csv_header :: lines)
                          +:+ String newline "")
            | Throw => ServerError
            end).
  intros st0. unfold export_csv.
  destruct (export_events hookParam q field value st0) as [[r | events] st1];
    [reflexivity|].
  cbn [fst]. destruct (all_ok (map csv_row events)); reflexivity.
Qed.

End LaterRequests.

(** X27. The sort an export applies to a cache is not seen by later
    aggregations and exports.  When the events the export can touch carry
    string time stamps, the state an export leaves answers every
    aggregation request and every export request exactly as the state
    before the export does; the two exports leave the same state. *)
Theorem export_is_invisible_to_aggregation_and_exports `{env : Env}
    (hookParam q field value : option string) (st : state) :
  Forall timestamped (all_events st) ->
  Forall timestamped (cache_view st (export_scope hookParam)) ->
  let st' := snd (export_ndjson hookParam q field value st) in
  snd (export_csv hookParam q field value st) = st' /\
  (forall q' field' value' limit',
     fst (api_events q' field' value' limit' st') = fst (api_events q' field' value' limit' st)) /\
  (forall hookParam' q' field' value',
     fst (export_ndjson hookParam' q' field' value' st')
     = fst (export_ndjson hookParam' q' field' value' st)) /\
  (forall hookParam' q' field' value',
     fst (export_csv hookParam' q' field' value' st')
     = fst (export_csv hookParam' q' field' value' st)).
Proof.
  intros Dall Dscope st'.
  assert (Hst : st' = snd (export_events hookParam q field value st))
    by apply export_ndjson_state.
  split; [rewrite export_csv_state; symmetry; exact Hst|].
  assert (Hexp : forall hookParam' q' field' value',
            fst (export_events hookParam' q' field' value' st')
            = fst (export_events hookParam' q' field' value' st)).
  { intros. rewrite Hst.
    destruct (export_events_state hookParam q field value st) as [Hsame | ->].
    - apply export_events_fst_same_view. exact Hsame.
    - apply export_events_fst_cache_sorted; assumption. }
  split; [| split].
  - intros q' field' value' limit'. rewrite Hst.
    destruct (export_events_state hookParam q field value st) as [Hsame | ->].
    + apply api_events_response_same_view. exact Hsame.
    + rewrite !api_events_spec. cbv zeta. simpl fst.
      destruct (cache_sorted_all_events (export_scope hookParam) st
                  (request_matcher q' field' value') Dall) as [-> ->].
      destruct (existsb _ _); reflexivity.
  - intros. rewrite !export_ndjson_fst, Hexp. reflexivity.
  - intros. destruct (export_csv_fst hookParam' q' field' value') as (render & Hr).
    rewrite !Hr, Hexp. reflexivity.
Qed.

Lemma export_is_invisible_to_aggregation_and_exports_witness :
  Forall timestamped (all_events (env := default_env) Scenario.third_after_restart) /\
  Forall timestamped
    (cache_view (env := default_env) Scenario.third_after_restart (export_scope (Some "tracks"))) /\
  fst (api_events (env := default_env) None None None None
         (snd (export_ndjson (env := default_env) (Some "tracks") None None None
                 Scenario.third_after_restart)))
  = fst (api_events (env := default_env) None None None None Scenario.third_after_restart).
Proof.
  assert (Hall : Forall timestamped
                   (all_events (env := default_env) Scenario.third_after_restart)).
  { vm_compute. repeat constructor; eexists; reflexivity. }
  assert (Hscope : Forall timestamped
                     (cache_view (env := default_env) Scenario.third_after_restart
                        (export_scope (Some "tracks")))).
  { vm_compute. repeat constructor; eexists; reflexivity. }
  split; [exact Hall | split; [exact Hscope|]].
  destruct (export_is_invisible_to_aggregation_and_exports (env := default_env)
              (Some "tracks") None None None Scenario.third_after_restart Hall Hscope)
    as (_ & Hagg & _).
  apply Hagg.
Defined.

(** ** The line-delimited export as a log *)

Lemma ndjson_body_log_text events : ndjson_body events = log_text (map Json.stringify events).
Proof.
  unfold ndjson_body. destruct events as [|e events]; [reflexivity|].
  rewrite log_text_join by discriminate. reflexivity.
Qed.

(** X28. The line-delimited export is a log: when every exported event is
    an object that [JSON.parse] reads back from its serialised form, a log
    file whose content is the body of the export is loaded as the exported
    events, in the order of the export (the last [MAX_RECENT_PER_HOOK] of
    them). *)
Theorem export_ndjson_is_a_loadable_log `{env : Env}
    (hookParam q field value : option string) (st : state) :
  0 < MAX_RECENT_PER_HOOK ->
  forall events st1,
    export_events hookParam q field value st = (inr events, st1) ->
    (forall e, In e events ->
       (exists props, e = JObj props) /\ JSON_parse (Json.stringify e) = Some e) ->
    exists body,
      export_ndjson hookParam q field value st = (Download body, st1) /\
      forall hook st2,
        files st2 !! hook = Some body ->
        loadHook hook st2 = last_n MAX_RECENT_PER_HOOK events.
Proof.
  intros Hmax events st1 Hexp Hevents.
  exists (ndjson_body events). split.
  - unfold export_ndjson. rewrite Hexp. reflexivity.
  - intros hook st2 Hfile.
    apply loadHook_replay; [exact Hmax | | |].
    + rewrite Hfile. simpl. apply ndjson_body_log_text.
    + intros e He. apply (Hevents e He).
    + intros e He. apply (Hevents e He).
Qed.

Lemma export_ndjson_is_a_loadable_log_witness :
  let events := [mkEvent "evt-2" "tracks" "2024-05-01T10:00:01.000Z" sample_meta
                   (booking_payload "52");
                 mkEvent "evt-1" "tracks" "2024-05-01T10:00:00.000Z" sample_meta
                   (booking_payload "51")] in
  let st1 := snd (export_events (env := default_env) (Some "tracks") None None None
                    Scenario.two_bookings) in
  0 < MAX_RECENT_PER_HOOK (Env := default_env) /\
  export_events (env := default_env) (Some "tracks") None None None Scenario.two_bookings
  = (inr events, st1) /\
  (forall e, In e events ->
     (exists props, e = JObj props) /\
     JSON_parse (Env := default_env) (Json.stringify e) = Some e) /\
  loadHook (env := default_env) "copy"
    {| files := {[ "copy" := ndjson_body events ]}; recentByHook := ∅ |}
  = last_n (MAX_RECENT_PER_HOOK (Env := default_env)) events.
Proof.
  cbv zeta.
  set (events := [mkEvent "evt-2" "tracks" "2024-05-01T10:00:01.000Z" sample_meta
                    (booking_payload "52");
                  mkEvent "evt-1" "tracks" "2024-05-01T10:00:00.000Z" sample_meta
                    (booking_payload "51")]).
  assert (Hmax : 0 < MAX_RECENT_PER_HOOK (Env := default_env)) by (simpl; lia).
  assert (Hexp : export_events (env := default_env) (Some "tracks") None None None
                   Scenario.two_bookings
                 = (inr events,
                    snd (export_events (env := default_env) (Some "tracks") None None None
                           Scenario.two_bookings)))
    by (vm_compute; reflexivity).
  assert (Hevents : forall e, In e events ->
            (exists props, e = JObj props) /\
            JSON_parse (Env := default_env) (Json.stringify e) = Some e).
  { intros e [<- | [<- | []]]; (split; [eexists; reflexivity | vm_compute; reflexivity]). }
  split; [exact Hmax | split; [exact Hexp | split; [exact Hevents|]]].
  destruct (export_ndjson_is_a_loadable_log (env := default_env) (Some "tracks") None None None
              Scenario.two_bookings Hmax events _ Hexp Hevents) as (body & Hbody & Hload).
  unfold export_ndjson in Hbody. rewrite Hexp in Hbody. injection Hbody as <-.
  apply Hload. apply lookup_singleton_eq.
Defined.

(** ** Listing and export of one hook *)

(** X29. The listing and the line-delimited export of one allowed hook
    whose cached events carry string time stamps select the same events.
    The export fails with the answer of the
    error middleware exactly when the matcher throws on a cached event,
    and then the listing fails as well; the listing can fail where the
    export succeeds, since only the listing builds summaries.  Whenever
    the listing answers with a count, the export succeeds and holds the
    first [MAX_EXPORT] of the sorted events that the listing counts, so
    that it has as many lines as the listing counts whenever that number
    does not exceed [MAX_EXPORT]. *)
Theorem export_and_listing_select_the_same_events `{env : Env}
    (hook : string) (q field value limit : option string) (st : state) :
  isHookAllowed hook = true ->
  Forall timestamped (cache_view st hook) ->
  let matcher := request_matcher q field value in
  let matching := List.filter (accepts matcher) (cache_view st hook) in
  let selected := firstn MAX_EXPORT (sort byReceivedAtDesc matching) in
  (fst (export_ndjson (Some hook) q field value st) = ServerError <->
   existsb (throws matcher) (cache_view st hook) = true) /\
  (fst (export_ndjson (Some hook) q field value st) = ServerError ->
   fst (api_hook hook q field value limit st) = ServerError) /\
  (forall count items,
     fst (api_hook hook q field value limit st) = Listing count items ->
     count = length matching /\
     fst (export_ndjson (Some hook) q field value st) = Download (ndjson_body selected) /\
     length selected = Nat.min MAX_EXPORT count).
Proof.
  intros Hallowed _ matcher matching selected.
  pose proof (isHookAllowed_trim hook Hallowed) as Htrim.
  assert (Hscope : export_scope (Some hook) = hook).
  { unfold export_scope. rewrite Htrim.
    apply isHookAllowed_iff in Hallowed as (Hlen & _ & _).
    destruct hook; [simpl in Hlen; lia | reflexivity]. }
  assert (Hstar : String.eqb hook "*" = false).
  { apply String.eqb_neq. intros ->. discriminate. }
  rewrite export_ndjson_fst, export_events_spec, api_hook_spec. cbv zeta.
  rewrite Hscope, Htrim, Hstar, Hallowed. simpl negb. cbv iota. cbn [fst]. unfold exported.
  fold matcher. fold matching.
  destruct (existsb (throws matcher) (cache_view st hook)); cbn [fst].
  - split; [split; reflexivity | split; [reflexivity | discriminate]].
  - split; [split; discriminate | split; [discriminate|]].
    intros count items Hlisting. apply listing_inv in Hlisting as [-> _].
    split; [reflexivity | split; [reflexivity|]].
    unfold selected. rewrite length_firstn, sort_length. reflexivity.
Qed.

Lemma export_and_listing_select_the_same_events_witness :
  isHookAllowed (env := default_env) "tracks" = true /\
  Forall timestamped (cache_view (env := default_env) Scenario.two_bookings "tracks") /\
  fst (api_hook (env := default_env) "tracks" None (Some "any") (Some "51") None
         Scenario.two_bookings)
  = Listing 1 [summarised booking_event "BookingCreated | D CS 51"] /\
  fst (export_ndjson (env := default_env) (Some "tracks") None (Some "any") (Some "51")
         Scenario.two_bookings)
  = Download (ndjson_body [booking_event]).
Proof.
  assert (Hlisting : fst (api_hook (env := default_env) "tracks" None (Some "any") (Some "51")
                            None Scenario.two_bookings)
                     = Listing 1 [summarised booking_event "BookingCreated | D CS 51"])
    by (vm_compute; reflexivity).
  assert (Hts : Forall timestamped
                  (cache_view (env := default_env) Scenario.two_bookings "tracks")).
  { vm_compute. repeat constructor; eexists; reflexivity. }
  split; [reflexivity | split; [exact Hts | split; [exact Hlisting|]]].
  destruct (export_and_listing_select_the_same_events (env := default_env) "tracks"
              None (Some "any") (Some "51") None Scenario.two_bookings eq_refl Hts)
    as (_ & _ & Hsel).
  destruct (Hsel _ _ Hlisting) as (_ & Hexport & _).
  rewrite Hexport. vm_compute. reflexivity.
Defined.

(** The listing fails on a stored event whose summary cannot be built;
    the export of the same hook succeeds. *)
Lemma listing_fails_where_export_succeeds :
  fst (api_hook (env := default_env) "tracks" None None None None Scenario.unprintable_booking)
  = ServerError /\
  exists body,
    fst (export_ndjson (env := default_env) (Some "tracks") None None None
           Scenario.unprintable_booking)
    = Download body.
Proof. split; [| eexists]; vm_compute; reflexivity. Qed.

(** ** Instances of the further properties *)

Lemma post_hook_rejection_changes_nothing_witness :
  (trim (wh_hook reserved_request) = "api" \/ trim (wh_hook reserved_request) = "dashboard" \/
   isHookAllowed (env := default_env) (trim (wh_hook reserved_request)) = false) /\
  post_hook (env := default_env) reserved_request "evt-9" "2024-05-01T10:00:09.000Z"
    Scenario.one_booking
  = (UnknownWebhook, Scenario.one_booking).
Proof.
  assert (H : trim (wh_hook reserved_request) = "api" \/
              trim (wh_hook reserved_request) = "dashboard" \/
              isHookAllowed (env := default_env) (trim (wh_hook reserved_request)) = false)
    by (left; reflexivity).
  split; [exact H|].
  exact (post_hook_rejection_changes_nothing (env := default_env) reserved_request
           "evt-9" "2024-05-01T10:00:09.000Z" Scenario.one_booking H).
Defined.

Lemma api_hook_item_finds_stored_event_witness :
  0 < MAX_RECENT_PER_HOOK (Env := default_env) /\
  isHookAllowed (env := default_env) (trim (wh_hook sample_request)) = true /\
  fst (api_hook_item (env := default_env) (wh_hook sample_request) "evt-4"
         (snd (post_hook (env := default_env) sample_request "evt-4"
                 "2024-05-01T10:00:04.000Z" Scenario.two_bookings)))
  = Item (mkEvent "evt-4" "tracks" "2024-05-01T10:00:04.000Z"
            (webhook_meta sample_request) (booking_payload "54")).
Proof.
  assert (Hmax : 0 < MAX_RECENT_PER_HOOK (Env := default_env)) by (simpl; lia).
  assert (Hallowed : isHookAllowed (env := default_env) (trim (wh_hook sample_request)) = true)
    by reflexivity.
  split; [exact Hmax | split; [exact Hallowed|]].
  destruct (api_hook_item_finds_stored_event (env := default_env) sample_request "evt-4"
              "2024-05-01T10:00:04.000Z" Scenario.two_bookings Hmax)
    as [_ Hitem]; [discriminate | discriminate | exact Hallowed |].
  rewrite Hitem. vm_compute. reflexivity.
Defined.

Lemma api_clear_hook_clears_only_that_hook_witness :
  clear_target (env := default_env) (Some (JObj [("hook", JStr "alpha")])) = Ok "alpha" /\
  "alpha" <> "*" /\
  isHookAllowed (env := default_env) "alpha" = true /\
  fst (api_clear (env := default_env) (Some (JObj [("hook", JStr "alpha")]))
         Scenario.two_hooks_tied) = ClearedHook "alpha" /\
  cache_view (env := default_env)
    (snd (api_clear (env := default_env) (Some (JObj [("hook", JStr "alpha")]))
            Scenario.two_hooks_tied)) "alpha" = [] /\
  cache_view (env := default_env)
    (snd (api_clear (env := default_env) (Some (JObj [("hook", JStr "alpha")]))
            Scenario.two_hooks_tied)) "beta" = [Scenario.tie_b].
Proof.
  assert (Ht : clear_target (env := default_env) (Some (JObj [("hook", JStr "alpha")]))
               = Ok "alpha") by reflexivity.
  assert (Hne : "alpha" <> "*") by discriminate.
  split; [exact Ht | split; [exact Hne | split; [reflexivity|]]].
  destruct (api_clear_hook_clears_only_that_hook (env := default_env)
              (Some (JObj [("hook", JStr "alpha")])) Scenario.two_hooks_tied)
    as (_ & _ & Hnamed).
  destruct (Hnamed "alpha" Ht Hne) as [_ Hclear].
  destruct (Hclear eq_refl) as (Hresp & _ & _ & Hview & Hother).
  split; [exact Hresp | split; [exact Hview|]].
  destruct (Hother "beta") as (_ & _ & Hbeta); [discriminate|].
  rewrite Hbeta. vm_compute. reflexivity.
Defined.

Lemma caches_stay_bounded_and_truthy_witness :
  0 < MAX_RECENT_PER_HOOK (Env := default_env) /\
  bounded (env := default_env)
    (run (env := default_env)
       [PostHook sample_request "evt-4" "2024-05-01T10:00:04.000Z";
        GetExportNdjson (Some "tracks") None None None;
        PostClear (Some (JObj [("hook", JStr "alpha")]));
        GetEvents None None None None]
       (restart Scenario.two_bookings)).
Proof.
  assert (Hmax : 0 < MAX_RECENT_PER_HOOK (Env := default_env)) by (simpl; lia).
  split; [exact Hmax|].
  apply (caches_stay_bounded_and_truthy (env := default_env)
           [PostHook sample_request "evt-4" "2024-05-01T10:00:04.000Z";
            GetExportNdjson (Some "tracks") None None None;
            PostClear (Some (JObj [("hook", JStr "alpha")]));
            GetEvents None None None None]
           Scenario.two_bookings Hmax).
Defined.

Lemma parseTokens_quoted_phrase_witness :
  is_quote Json.dquote = true /\ "a B" <> EmptyString /\
  parseTokens (String Json.dquote ("a B" +:+ String Json.dquote EmptyString))
  = {| fieldTokens := []; textTokens := ["a b"] |}.
Proof.
  split; [reflexivity | split; [discriminate|]].
  apply (parseTokens_quoted_phrase (env := default_env) Json.dquote "a B" JNull);
    [reflexivity | discriminate |].
  intros c Hc. simpl in Hc.
  destruct Hc as [<- | [<- | [<- | []]]]; split; discriminate.
Defined.

Lemma restart_reloads_log_oldest_first_witness :
  0 < MAX_RECENT_PER_HOOK (Env := default_env) /\
  bounded (env := default_env) empty_state /\
  files empty_state !! "tracks" = None /\ recentByHook empty_state !! "tracks" = None /\
  (forall r, In r sample_ingests ->
     JSON_parse (Env := default_env) (Json.stringify (event_of "tracks" r))
     = Some (event_of "tracks" r)) /\
  cache_view (env := default_env)
    (restart (ingest_all (env := default_env) "tracks" sample_ingests empty_state)) "tracks"
  = rev (cache_view (env := default_env)
           (ingest_all (env := default_env) "tracks" sample_ingests empty_state) "tracks").
Proof.
  assert (Hmax : 0 < MAX_RECENT_PER_HOOK (Env := default_env)) by (simpl; lia).
  assert (Hb : bounded (env := default_env) empty_state)
    by exact (restart_bounded (env := default_env) empty_state).
  assert (Hparse : forall r, In r sample_ingests ->
            JSON_parse (Env := default_env) (Json.stringify (event_of "tracks" r))
            = Some (event_of "tracks" r)).
  { intros r [<- | [<- | []]]; vm_compute; reflexivity. }
  split; [exact Hmax | split; [exact Hb | split; [reflexivity | split; [reflexivity |]]]].
  split; [exact Hparse|].
  apply (restart_reloads_log_oldest_first (env := default_env) "tracks" sample_ingests
           empty_state Hmax Hb eq_refl eq_refl Hparse).
Defined.

Lemma export_csv_reads_back_witness :
  let st := Scenario.two_bookings in
  let events := [mkEvent "evt-2" "tracks" "2024-05-01T10:00:01.000Z" sample_meta
                   (booking_payload "52");
                 mkEvent "evt-1" "tracks" "2024-05-01T10:00:00.000Z" sample_meta
                   (booking_payload "51")] in
  let st1 := snd (export_events (env := default_env) (Some "tracks") None None None st) in
  export_events (env := default_env) (Some "tracks") None None None st = (inr events, st1) /\
  exists rows body,
    all_ok (map csv_values events) = Ok rows /\
    export_csv (env := default_env) (Some "tracks") None None None st = (Download body, st1) /\
    csv_read AtStart body = (csv_header :: rows) ++ [[EmptyString]].
Proof.
  cbv zeta.
  set (events := [mkEvent "evt-2" "tracks" "2024-05-01T10:00:01.000Z" sample_meta
                    (booking_payload "52");
                  mkEvent "evt-1" "tracks" "2024-05-01T10:00:00.000Z" sample_meta
                    (booking_payload "51")]).
  assert (Hexp : export_events (env := default_env) (Some "tracks") None None None
                   Scenario.two_bookings
                 = (inr events,
                    snd (export_events (env := default_env) (Some "tracks") None None None
                           Scenario.two_bookings)))
    by (vm_compute; reflexivity).
  split; [exact Hexp|].
  destruct (all_ok (map csv_values events)) as [rows|] eqn:Hrows;
    [| vm_compute in Hrows; discriminate].
  destruct (export_csv_reads_back (env := default_env) (Some "tracks") None None None
              Scenario.two_bookings _ _ Hexp) as [Hok _].
  destruct (Hok rows Hrows) as (body & Hbody & Hread & _).
  exists rows, body. split; [reflexivity | split; [exact Hbody | exact Hread]].
Defined.

Lemma export_filename_is_plain_witness :
  ("tracks" = "*" \/ isHookAllowed (env := default_env) "tracks" = true) /\
  (".csv" = ".ndjson" \/ ".csv" = ".csv") /\
  export_filename "tracks" EmptyString " " ".csv" = "tracks-filtered.csv" /\
  ~ occurs Json.dquote (export_filename "tracks" EmptyString " " ".csv").
Proof.
  assert (Hscope : "tracks" = "*" \/ isHookAllowed (env := default_env) "tracks" = true)
    by (right; reflexivity).
  assert (Hext : ".csv" = ".ndjson" \/ ".csv" = ".csv") by (right; reflexivity).
  split; [exact Hscope | split; [exact Hext | split; [reflexivity|]]].
  apply (export_filename_is_plain (env := default_env) "tracks" EmptyString " " ".csv"
           Hscope Hext).
Defined.

Lemma post_hook_event_is_visible_witness :
  0 < MAX_RECENT_PER_HOOK (Env := default_env) /\
  isHookAllowed (env := default_env) (trim (wh_hook sample_request)) = true /\
  In "tracks"
    (api_hooks (env := default_env)
       (snd (post_hook (env := default_env) sample_request "evt-4"
               "2024-05-01T10:00:04.000Z" empty_state))) /\
  In (mkEvent "evt-4" "tracks" "2024-05-01T10:00:04.000Z" (webhook_meta sample_request)
        (webhook_payload (env := default_env) (wh_body sample_request)))
     (all_events (env := default_env)
        (snd (post_hook (env := default_env) sample_request "evt-4"
                "2024-05-01T10:00:04.000Z" empty_state))).
Proof.
  assert (Hmax : 0 < MAX_RECENT_PER_HOOK (Env := default_env)) by (simpl; lia).
  assert (Hallowed : isHookAllowed (env := default_env) (trim (wh_hook sample_request)) = true)
    by reflexivity.
  split; [exact Hmax | split; [exact Hallowed|]].
  destruct (post_hook_event_is_visible (env := default_env) sample_request "evt-4"
              "2024-05-01T10:00:04.000Z" empty_state Hmax)
    as (Hlist & _ & Hall & _); [discriminate | discriminate | exact Hallowed |].
  split; [exact Hlist | exact Hall].
Defined.
